(** * Buffered CSV event sink of the input tracker

    Shallow embedding of [CSVLogger] from [src/input_tracker.cpp]: the
    event record, the FIFO queue guarded by [m_queueMutex], the text written
    to the log file, and the three threads of control that touch the logger
    (the thread that owns it and calls [start]/[stop]/the destructor, the
    background flush thread, and the producers calling [logEvent]).

    Threads are modelled by an interleaving semantics: every step below is
    one atomic action of the source (an atomic load or store of [m_running],
    a critical section under [m_queueMutex], one use of the file stream,
    which is only ever held by one thread at a time).  One thread owns the
    logger and makes its calls one after the other.  Time is a logical
    clock counted in seconds, the unit of [m_flushIntervalSec].  An open of
    the file may fail; an insertion into a stream that is open is taken to
    succeed. *)

From Stdlib Require Import ZArith List String Ascii Bool Lia.
From Stdlib Require Import Decimal DecimalString DecimalZ.
Import ListNotations.

Open Scope Z_scope.
Open Scope string_scope.
Open Scope list_scope.

(** Concatenation of texts, kept apart from the concatenation of lists. *)
Infix "+++" := String.append (right associativity, at level 60).

(* ================================================================== *)
(** ** Data model *)

(** [POINT] of the Win32 headers: two [LONG] coordinates. *)
Record POINT := mkPOINT { x : Z; y : Z }.

(** [struct InputEvent].  [timestamp] is a [DWORD] and [keyCode] a [UINT]
    (both unsigned 32-bit), the coordinates are signed 32-bit; the logger
    only stores and prints them, so they are kept as integers. *)
Record InputEvent := mkInputEvent {
  eventType : string;
  timestamp : Z;
  mousePos  : POINT;
  keyCode   : Z
}.

Definition DWORD_range (z : Z) : Prop := 0 <= z < 2 ^ 32.
Definition LONG_range (z : Z) : Prop := - 2 ^ 31 <= z < 2 ^ 31.

Definition InputEvent_in_range (evt : InputEvent) : Prop :=
  DWORD_range (timestamp evt) /\ LONG_range (x (mousePos evt)) /\
  LONG_range (y (mousePos evt)) /\ DWORD_range (keyCode evt).

(** Events as the three producers build them: the mouse hook and the cursor
    poller pass key code 0, the keyboard hook passes the virtual-key code. *)
Definition mouseHookEvent (tag : string) (time : Z) (pt : POINT) : InputEvent :=
  mkInputEvent tag time pt 0.

Definition keyboardHookEvent (tag : string) (time : Z) (pt : POINT) (vkCode : Z)
  : InputEvent :=
  mkInputEvent tag time pt vkCode.

Definition cursorPollEvent (time : Z) (pt : POINT) : InputEvent :=
  mkInputEvent "MOUSE_POS" time pt 0.

(** The tags the producers use. *)
Definition producer_tags : list string :=
  ["MOUSE_LEFT_DOWN"; "MOUSE_LEFT_UP"; "MOUSE_RIGHT_DOWN"; "MOUSE_RIGHT_UP";
   "KEY_DOWN"; "KEY_UP"; "MOUSE_POS"].

(* ================================================================== *)
(** ** The event queue ([std::queue<InputEvent>]) *)

(** The head of the list is [front()], [push] appends at the tail. *)
Definition EventQueue := list InputEvent.

Definition q_empty (q : EventQueue) : bool :=
  match q with [] => true | _ :: _ => false end.

Definition q_push (evt : InputEvent) (q : EventQueue) : EventQueue := q ++ [evt].

Definition q_front (q : EventQueue) : option InputEvent := hd_error q.

Definition q_pop (q : EventQueue) : EventQueue := tl q.

(** The loop of [flushToDisk] that runs under the lock:
    [while (!q.empty()) { localBuffer.push_back(q.front()); q.pop(); }].
    Returns the queue and the local buffer when the loop ends. *)
Fixpoint drain_loop (q : EventQueue) (localBuffer : list InputEvent)
  : EventQueue * list InputEvent :=
  match q with
  | [] => (q, localBuffer)
  | evt :: rest => drain_loop rest (localBuffer ++ [evt])
  end.

(** [drainAll]: the whole critical section, starting from an empty buffer.
    The result is (events taken, queue left). *)
Definition drainAll (q : EventQueue) : list InputEvent * EventQueue :=
  let '(q', localBuffer) := drain_loop q [] in (localBuffer, q').

(* ================================================================== *)
(** ** Text of the log file *)

Definition nl : string := String (ascii_of_nat 10) EmptyString.
Definition comma : ascii := ","%char.
Definition newline : ascii := ascii_of_nat 10.

(** [operator<<] on an integer: decimal digits, a minus sign when negative. *)
Definition dec (z : Z) : string := NilZero.string_of_int (Z.to_int z).

(** The header written by [start]. *)
Definition csv_header : string := "timestamp_ms,event_type,x,y,key_code" +++ nl.

(** The five fields of a record, in the order of the insertions. *)
Definition csv_fields (evt : InputEvent) : list string :=
  [dec (timestamp evt); eventType evt; dec (x (mousePos evt));
   dec (y (mousePos evt)); dec (keyCode evt)].

(** One chain of insertions of the writing loop. *)
Definition csv_record (evt : InputEvent) : string :=
  dec (timestamp evt) +++ "," +++ eventType evt +++ "," +++
  dec (x (mousePos evt)) +++ "," +++ dec (y (mousePos evt)) +++ "," +++
  dec (keyCode evt) +++ nl.

(** The writing loop [for (const auto& evt : localBuffer) ofs << ...],
    [ofs] being the text the stream has received so far. *)
Fixpoint write_loop (localBuffer : list InputEvent) (ofs : string) : string :=
  match localBuffer with
  | [] => ofs
  | evt :: rest => write_loop rest (ofs +++ csv_record evt)
  end.

(** The records of a batch, one after the other. *)
Definition render (evts : list InputEvent) : string :=
  String.concat "" (map csv_record evts).

(** A reader for the file, used to state what a record contains: the pieces
    of a text between occurrences of a separator. *)
Fixpoint split_on (sep : ascii) (s : string) : list string :=
  match s with
  | EmptyString => [EmptyString]
  | String c rest =>
      if Ascii.eqb c sep then EmptyString :: split_on sep rest
      else match split_on sep rest with
           | [] => [String c EmptyString]
           | piece :: pieces => String c piece :: pieces
           end
  end.

Fixpoint has_char (c : ascii) (s : string) : bool :=
  match s with
  | EmptyString => false
  | String d rest => Ascii.eqb d c || has_char c rest
  end.

(** A tag that can be read back: no comma and no line break in it. *)
Definition plain_tag (s : string) : bool :=
  negb (has_char comma s) && negb (has_char newline s).

(** Reading an integer field back. *)
Definition read_dec (s : string) : option Z :=
  option_map Z.of_int (NilZero.int_of_string s).

Fixpoint starts_with (p s : string) : bool :=
  match p, s with
  | EmptyString, _ => true
  | String a p', String b s' => Ascii.eqb a b && starts_with p' s'
  | String _ _, EmptyString => false
  end.

Definition digit_char (c : ascii) : bool :=
  let n := nat_of_ascii c in (48 <=? n)%nat && (n <=? 57)%nat.

Fixpoint all_chars (p : ascii -> bool) (s : string) : bool :=
  match s with
  | EmptyString => true
  | String c rest => p c && all_chars p rest
  end.

(** [occurs p s]: the text [p] occurs somewhere in [s]. *)
Fixpoint occurs (p s : string) : bool :=
  starts_with p s ||
  match s with
  | EmptyString => false
  | String _ s' => occurs p s'
  end.

(* ================================================================== *)
(** ** The logger's memory and its file *)

Inductive OpenMode := OpenTrunc | OpenApp.

(** The data members of [CSVLogger] that are plain data, the contents of
    the file named [m_filename] (the characters inserted into the stream;
    a file that does not exist reads as the empty text), what was sent to
    [std::cerr], and the trace of attempts to open the file (mode,
    success). *)
Record Store := mkStore {
  m_filename         : string;
  m_flushIntervalSec : Z;
  m_running          : bool;
  m_eventQueue       : EventQueue;
  disk               : string;
  cerr               : list string;
  opens              : list (OpenMode * bool)
}.

Definition set_running (b : bool) (st : Store) : Store :=
  mkStore (m_filename st) (m_flushIntervalSec st) b (m_eventQueue st)
          (disk st) (cerr st) (opens st).

Definition set_queue (q : EventQueue) (st : Store) : Store :=
  mkStore (m_filename st) (m_flushIntervalSec st) (m_running st) q
          (disk st) (cerr st) (opens st).

Definition set_disk (d : string) (st : Store) : Store :=
  mkStore (m_filename st) (m_flushIntervalSec st) (m_running st)
          (m_eventQueue st) d (cerr st) (opens st).

Definition put_cerr (msg : string) (st : Store) : Store :=
  mkStore (m_filename st) (m_flushIntervalSec st) (m_running st)
          (m_eventQueue st) (disk st) (cerr st ++ [msg]) (opens st).

Definition note_open (m : OpenMode) (ok : bool) (st : Store) : Store :=
  mkStore (m_filename st) (m_flushIntervalSec st) (m_running st)
          (m_eventQueue st) (disk st) (cerr st) (opens st ++ [(m, ok)]).

(** The constructor.  [ts] is the result of [getTimestampString()], used
    only when the file name given is empty; [old] is what the file holds. *)
Definition CSVLogger (filename : string) (flushIntervalSeconds : Z)
           (ts : string) (old : string) : Store :=
  let name := if String.eqb filename "" then "input_log_" +++ ts +++ ".csv"
              else filename in
  mkStore name flushIntervalSeconds false [] old [] [].

(** [logEvent]: lock, push, unlock. *)
Definition logEvent (evt : InputEvent) (st : Store) : Store :=
  set_queue (q_push evt (m_eventQueue st)) st.

(** The block of [start] that opens the file with [std::ios::trunc] and
    inserts the header.  [ok] tells whether the open succeeds; an insertion
    into a stream that failed to open writes nothing. *)
Definition open_truncate (ok : bool) (st : Store) : Store :=
  let st1 := note_open OpenTrunc ok st in
  if ok then set_disk ("" +++ csv_header) st1 else st1.

(** First half of [flushToDisk]: the critical section. *)
Definition drain_locked (st : Store) : Store * list InputEvent :=
  let '(localBuffer, q') := drainAll (m_eventQueue st) in
  (set_queue q' st, localBuffer).

Definition append_failure (st : Store) : string :=
  "Failed to open CSV file for appending: " +++ m_filename st +++ nl.

(** Second half of [flushToDisk]: nothing to do for an empty buffer;
    otherwise open in append mode, report a failure on [std::cerr] and
    return, or write one record per event and close. *)
Definition write_batch (ok : bool) (localBuffer : list InputEvent) (st : Store)
  : Store :=
  if q_empty localBuffer then st
  else
    let st1 := note_open OpenApp ok st in
    if negb ok then put_cerr (append_failure st) st1
    else set_disk (write_loop localBuffer (disk st)) st1.

(** [flushToDisk] run without another thread in between. *)
Definition flushToDisk (ok : bool) (st : Store) : Store :=
  let '(st1, localBuffer) := drain_locked st in
  write_batch ok localBuffer st1.

(* ================================================================== *)
(** ** Threads *)

(** Where the background thread stands in [flushThreadFunc].
    [FT_None]: [m_flushThread] holds no thread (not joinable).
    [FT_Exited]: the function has returned, the thread is still joinable. *)
Inductive FlushPc :=
| FT_None
| FT_LoopHead                                   (* while (m_running.load()) *)
| FT_Sleep (remaining : nat)                    (* sleep_for(seconds(...)) *)
| FT_Check                                      (* if (!m_running.load()) break *)
| FT_Drain                                      (* flushToDisk: the lock *)
| FT_Write (localBuffer : list InputEvent)      (* flushToDisk: the file *)
| FT_Exited.

(** Who called [stop]: user code, or the destructor. *)
Inductive StopCaller := ByUser | ByDestructor.

(** Where the thread that owns the logger stands. *)
Inductive OwnerPc :=
| C_Idle                                        (* between two calls *)
| C_Start_Check                                 (* if (m_running.load()) return *)
| C_Start_Store                                 (* m_running.store(true) *)
| C_Start_Open                                  (* ofstream trunc + header *)
| C_Start_Launch                                (* m_flushThread = thread(...) *)
| C_Stop_Check (k : StopCaller)                 (* if (!m_running.load()) return *)
| C_Stop_Store (k : StopCaller)                 (* m_running.store(false) *)
| C_Stop_Join (k : StopCaller)                  (* if (joinable()) join() *)
| C_Stop_Drain (k : StopCaller)                 (* flushToDisk: the lock *)
| C_Stop_Write (localBuffer : list InputEvent) (k : StopCaller)
| C_Dtor_Check                                  (* if (m_running.load()) stop() *)
| C_Dtor_Members                                (* members are destroyed *)
| C_Destroyed
| C_Aborted.                                    (* std::terminate *)

Record Sys := mkSys {
  store         : Store;
  m_flushThread : FlushPc;
  owner         : OwnerPc
}.

Inductive Method := M_start | M_stop | M_dtor.

(** What can happen next.  [ok] is the outcome of an open of the file, read
    only by the steps that open it. *)
Inductive Action :=
| A_Call (m : Method)
| A_Owner (ok : bool)
| A_Flush (ok : bool)
| A_Log (evt : InputEvent)
| A_Tick.

Definition joinable (ft : FlushPc) : bool :=
  match ft with FT_None => false | _ => true end.

(** Where the owner continues when [stop] returns. *)
Definition stop_return (k : StopCaller) : OwnerPc :=
  match k with ByUser => C_Idle | ByDestructor => C_Dtor_Members end.

Definition call_step (m : Method) (s : Sys) : option Sys :=
  match owner s with
  | C_Idle =>
      Some (mkSys (store s) (m_flushThread s)
                  match m with
                  | M_start => C_Start_Check
                  | M_stop => C_Stop_Check ByUser
                  | M_dtor => C_Dtor_Check
                  end)
  | _ => None
  end.

(** One atomic step of the owner.  [None]: nothing to run, or blocked in
    [join()]. *)
Definition owner_step (ok : bool) (s : Sys) : option Sys :=
  let st := store s in
  let ft := m_flushThread s in
  match owner s with
  | C_Idle | C_Destroyed | C_Aborted => None
  | C_Start_Check =>
      if m_running st then Some (mkSys st ft C_Idle)
      else Some (mkSys st ft C_Start_Store)
  | C_Start_Store => Some (mkSys (set_running true st) ft C_Start_Open)
  | C_Start_Open => Some (mkSys (open_truncate ok st) ft C_Start_Launch)
  | C_Start_Launch =>
      if joinable ft then Some (mkSys st ft C_Aborted)
      else Some (mkSys st FT_LoopHead C_Idle)
  | C_Stop_Check k =>
      if negb (m_running st) then Some (mkSys st ft (stop_return k))
      else Some (mkSys st ft (C_Stop_Store k))
  | C_Stop_Store k => Some (mkSys (set_running false st) ft (C_Stop_Join k))
  | C_Stop_Join k =>
      match ft with
      | FT_None => Some (mkSys st ft (C_Stop_Drain k))
      | FT_Exited => Some (mkSys st FT_None (C_Stop_Drain k))
      | _ => None
      end
  | C_Stop_Drain k =>
      let '(st1, localBuffer) := drain_locked st in
      Some (mkSys st1 ft (C_Stop_Write localBuffer k))
  | C_Stop_Write localBuffer k =>
      Some (mkSys (write_batch ok localBuffer st) ft (stop_return k))
  | C_Dtor_Check =>
      if m_running st then Some (mkSys st ft (C_Stop_Check ByDestructor))
      else Some (mkSys st ft C_Dtor_Members)
  | C_Dtor_Members =>
      if joinable ft then Some (mkSys st ft C_Aborted)
      else Some (mkSys st ft C_Destroyed)
  end.

(** One atomic step of [flushThreadFunc].  [None]: no thread, returned, or
    still asleep. *)
Definition flush_step (ok : bool) (s : Sys) : option Sys :=
  let st := store s in
  match m_flushThread s with
  | FT_None | FT_Exited => None
  | FT_LoopHead =>
      if m_running st
      then Some (mkSys st (FT_Sleep (Z.to_nat (m_flushIntervalSec st))) (owner s))
      else Some (mkSys st FT_Exited (owner s))
  | FT_Sleep O => Some (mkSys st FT_Check (owner s))
  | FT_Sleep (S _) => None
  | FT_Check =>
      if negb (m_running st) then Some (mkSys st FT_Exited (owner s))
      else Some (mkSys st FT_Drain (owner s))
  | FT_Drain =>
      let '(st1, localBuffer) := drain_locked st in
      Some (mkSys st1 (FT_Write localBuffer) (owner s))
  | FT_Write localBuffer =>
      Some (mkSys (write_batch ok localBuffer st) FT_LoopHead (owner s))
  end.

(** A producer calls [logEvent]; the object must still exist. *)
Definition log_step (evt : InputEvent) (s : Sys) : option Sys :=
  match owner s with
  | C_Destroyed | C_Aborted => None
  | _ => Some (mkSys (logEvent evt (store s)) (m_flushThread s) (owner s))
  end.

(** One second passes. *)
Definition tick (s : Sys) : Sys :=
  match m_flushThread s with
  | FT_Sleep (S n) => mkSys (store s) (FT_Sleep n) (owner s)
  | _ => s
  end.

Definition step (a : Action) (s : Sys) : option Sys :=
  match a with
  | A_Call m => call_step m s
  | A_Owner ok => owner_step ok s
  | A_Flush ok => flush_step ok s
  | A_Log evt => log_step evt s
  | A_Tick => Some (tick s)
  end.

(** Running a schedule. *)
Fixpoint exec (sched : list Action) (s : Sys) : option Sys :=
  match sched with
  | [] => Some s
  | a :: rest =>
      match step a s with
      | Some s' => exec rest s'
      | None => None
      end
  end.

(** The logger right after its constructor. *)
Definition fresh (filename : string) (flushIntervalSeconds : Z)
           (ts old : string) : Sys :=
  mkSys (CSVLogger filename flushIntervalSeconds ts old) FT_None C_Idle.

(* ------------------------------------------------------------------ *)
(** *** Observations on schedules and states *)

(** The events the producers enqueue during a schedule, in order. *)
Fixpoint logged (sched : list Action) : list InputEvent :=
  match sched with
  | [] => []
  | A_Log evt :: rest => evt :: logged rest
  | _ :: rest => logged rest
  end.

Definition is_call (a : Action) : bool :=
  match a with A_Call _ => true | _ => false end.

Definition is_tick (a : Action) : bool :=
  match a with A_Tick => true | _ => false end.

Definition open_ok (a : Action) : bool :=
  match a with A_Owner ok | A_Flush ok => ok | _ => true end.

(** No method is invoked during the schedule. *)
Definition no_calls (sched : list Action) : bool :=
  forallb (fun a => negb (is_call a)) sched.

(** No time passes during the schedule. *)
Definition no_ticks (sched : list Action) : bool :=
  forallb (fun a => negb (is_tick a)) sched.

(** Every open of the schedule succeeds. *)
Definition opens_ok (sched : list Action) : bool := forallb open_ok sched.

(** The batch a thread holds between its drain and its write. *)
Definition flush_batch (ft : FlushPc) : list InputEvent :=
  match ft with FT_Write localBuffer => localBuffer | _ => [] end.

Definition owner_batch (pc : OwnerPc) : list InputEvent :=
  match pc with C_Stop_Write localBuffer _ => localBuffer | _ => [] end.

(** The events accepted and not yet written, oldest first. *)
Definition pending (s : Sys) : list InputEvent :=
  flush_batch (m_flushThread s) ++ owner_batch (owner s) ++ m_eventQueue (store s).

(** The record of [evt] is in the file. *)
Definition on_disk (evt : InputEvent) (s : Sys) : bool :=
  occurs (csv_record evt) (disk (store s)).

Definition flush_active (ft : FlushPc) : bool :=
  match ft with FT_None | FT_Exited => false | _ => true end.

Definition flush_none (ft : FlushPc) : bool :=
  match ft with FT_None => true | _ => false end.

(** What holds of the flag and of the thread object at each point of the
    owner's code. *)
Definition wf (s : Sys) : bool :=
  let r := m_running (store s) in
  let ft := m_flushThread s in
  match owner s with
  | C_Idle | C_Start_Check | C_Stop_Check _ | C_Dtor_Check =>
      if r then flush_active ft else flush_none ft
  | C_Start_Store => negb r && flush_none ft
  | C_Start_Open | C_Start_Launch => r && flush_none ft
  | C_Stop_Store _ => r && flush_active ft
  | C_Stop_Join _ => negb r && joinable ft
  | C_Stop_Drain _ | C_Stop_Write _ _ | C_Dtor_Members | C_Destroyed =>
      negb r && flush_none ft
  | C_Aborted => false
  end.

(** The steps that let the flush thread reach the end of its function once
    the flag is cleared. *)
Definition flush_exit_schedule (ft : FlushPc) : list Action :=
  match ft with
  | FT_None | FT_Exited => []
  | FT_LoopHead | FT_Check => [A_Flush true]
  | FT_Sleep n => repeat A_Tick n ++ [A_Flush true; A_Flush true]
  | FT_Drain => [A_Flush true; A_Flush true; A_Flush true]
  | FT_Write _ => [A_Flush true; A_Flush true]
  end.

(** [stop] from its call to its return, nobody else running but the flush
    thread it waits for. *)
Definition stop_schedule (ft : FlushPc) : list Action :=
  [A_Call M_stop; A_Owner true; A_Owner true] ++ flush_exit_schedule ft ++
  [A_Owner true; A_Owner true; A_Owner true].

(** [start] on a stopped logger; [ok] is the outcome of the open. *)
Definition start_schedule (ok : bool) : list Action :=
  [A_Call M_start; A_Owner true; A_Owner true; A_Owner ok; A_Owner true].

(** The destructor on a running logger. *)
Definition dtor_schedule (ft : FlushPc) : list Action :=
  [A_Call M_dtor; A_Owner true; A_Owner true; A_Owner true] ++
  flush_exit_schedule ft ++
  [A_Owner true; A_Owner true; A_Owner true; A_Owner true].

(* ------------------------------------------------------------------ *)
(** *** A call of [stop] in progress *)

(** When every open so far succeeded, the file is what it was in [s0]
    followed by the records of [W]. *)
Definition disk_extends (allok : bool) (s0 s : Sys) (W : list InputEvent) : Prop :=
  allok = true -> disk (store s) = disk (store s0) +++ render W.

(** The state [s] of a call of [stop] (from user code or from the
    destructor) relative to the state [s0] it was made in: [h] are the
    events logged since the call, [allok] tells whether every open since
    succeeded.  Before the final drain, what was written since the call
    and what is pending make up what was pending at the call and [h]; from
    the final drain on, the queue holds only events logged after it. *)
Definition stop_inv (s0 : Sys) (h : list InputEvent) (allok : bool) (s : Sys)
  : Prop :=
  wf s = true /\
  match owner s with
  | C_Dtor_Check | C_Stop_Check _ =>
      m_running (store s) = true /\
      exists W, W ++ pending s = pending s0 ++ h /\ disk_extends allok s0 s W
  | C_Stop_Store _ | C_Stop_Join _ | C_Stop_Drain _ =>
      exists W, W ++ pending s = pending s0 ++ h /\ disk_extends allok s0 s W
  | C_Stop_Write localBuffer _ =>
      exists later, h = later ++ m_eventQueue (store s) /\
      exists W, W ++ localBuffer = pending s0 ++ later /\
                disk_extends allok s0 s W
  | C_Idle | C_Dtor_Members | C_Destroyed =>
      m_running (store s) = false /\
      exists later, h = later ++ m_eventQueue (store s) /\
      disk_extends allok s0 s (pending s0 ++ later)
  | _ => False
  end.

(** The flush thread is at a point from which it polls the flag before it
    drains again (or it has returned, or there is none). *)
Definition flush_quiet (ft : FlushPc) : bool :=
  match ft with FT_Drain | FT_Write _ => false | _ => true end.

(** The owner is between calls or inside the destructor of a stopped
    logger: points at which it touches neither the queue nor the file. *)
Definition quiescent (pc : OwnerPc) : bool :=
  match pc with
  | C_Idle | C_Dtor_Check | C_Dtor_Members | C_Destroyed => true
  | _ => false
  end.

(** The owner has cleared the flag in [stop] and has not called anything
    since. *)
Definition past_signal (pc : OwnerPc) : bool :=
  match pc with
  | C_Stop_Join _ | C_Stop_Drain _ | C_Stop_Write _ _
  | C_Idle | C_Dtor_Members | C_Destroyed | C_Aborted => true
  | _ => false
  end.

(** Logging a sequence of events, one call after the other. *)
Definition logEvents (evts : list InputEvent) (st : Store) : Store :=
  fold_left (fun acc evt => logEvent evt acc) evts st.

(* ------------------------------------------------------------------ *)
(** *** Sample runs *)

(** The key press of the sample session: Q goes down at tick 100 with the
    cursor at (5, 9). *)
Definition key_q : InputEvent := keyboardHookEvent "KEY_DOWN" 100 (mkPOINT 5 9) 81.

Definition click : InputEvent := mouseHookEvent "MOUSE_LEFT_DOWN" 120 (mkPOINT 640 360).

(** The tracker's logger as [TrackerConfig] builds it, the file absent. *)
Definition tracker_logger : Sys := fresh "input_log.csv" 60 "" "".

(** The session up to the moment the owner is about to shut down: the
    logger is started, the flush thread goes to sleep, one key press is
    logged. *)
Definition session_prefix : list Action :=
  start_schedule true ++ [A_Flush true; A_Log key_q].

(** The state that prefix leads to. *)
Definition running_logger : Sys :=
  mkSys (mkStore "input_log.csv" 60 true [key_q] csv_header [] [(OpenTrunc, true)])
        (FT_Sleep 60) C_Idle.

(** The steps of a shutdown after the call, the last open succeeding or
    not: flag check, flag cleared, the sleep runs out, the thread polls the
    flag and returns, join, final drain, final write. *)
Definition shutdown_steps (ok : bool) : list Action :=
  [A_Owner true; A_Owner true] ++ repeat A_Tick 60 ++
  [A_Flush true; A_Flush true; A_Owner true; A_Owner true; A_Owner ok].

(** The running logger right after [stop] has cleared the flag: the owner
    is about to join, the flush thread has its whole interval left to
    sleep. *)
Definition signalled_logger : Sys :=
  mkSys (mkStore "input_log.csv" 60 false [key_q] csv_header [] [(OpenTrunc, true)])
        (FT_Sleep 60) (C_Stop_Join ByUser).

Definition final_state (sched : list Action) (s : Sys) : Sys :=
  match exec sched s with Some s' => s' | None => s end.

(* ================================================================== *)
(** ** Further observations on the logger *)

Definition is_start_call (a : Action) : bool :=
  match a with A_Call M_start => true | _ => false end.

(** [start] is not invoked during the schedule. *)
Definition no_start (sched : list Action) : bool :=
  forallb (fun a => negb (is_start_call a)) sched.

(** The owner is inside [start]. *)
Definition in_start (pc : OwnerPc) : bool :=
  match pc with
  | C_Start_Check | C_Start_Store | C_Start_Open | C_Start_Launch => true
  | _ => false
  end.

(** [D] is what is left of [W] when some of its events are taken away,
    the others keeping their order. *)
Inductive kept_of : list InputEvent -> list InputEvent -> Prop :=
| kept_nil : kept_of [] []
| kept_same (evt : InputEvent) (D W : list InputEvent) :
    kept_of D W -> kept_of (evt :: D) (evt :: W)
| kept_drop (evt : InputEvent) (D W : list InputEvent) :
    kept_of D W -> kept_of D (evt :: W).

(** The file of [st] after the batches [W] have gone through their writes:
    it is [base], or [disk0] when an open failed, followed by the records
    of the events [D] kept of [W], all of them when no open failed. *)
Definition written (base disk0 : string) (allok : bool) (st : Store)
           (W : list InputEvent) : Prop :=
  exists D, kept_of D W /\ (allok = true -> D = W) /\
            exists b, disk st = b +++ render D /\
                      (b = base \/ (allok = false /\ b = disk0)).

(** The state of a logger relative to the file [disk0] and the events [P0]
    that were pending when the observation began: [h] are the events logged
    since, [allok] tells whether every open since succeeded.  Outside
    [start], the events whose batch has gone through its write and those
    still pending make up [P0] and [h], and the file is [base] followed by
    the records of those events, less the batches whose open failed.
    Inside [start], which is entered on a stopped logger only, nothing is
    written, and the file becomes the header if the open succeeds. *)
Definition fifo_inv (base disk0 : string) (P0 h : list InputEvent)
           (allok : bool) (s : Sys) : Prop :=
  wf s = true /\
  match owner s with
  | C_Start_Check =>
      base = csv_header /\ m_running (store s) = false /\
      pending s = P0 ++ h /\ disk (store s) = disk0
  | C_Start_Store | C_Start_Open =>
      base = csv_header /\ pending s = P0 ++ h /\ disk (store s) = disk0
  | C_Start_Launch =>
      base = csv_header /\ pending s = P0 ++ h /\
      written base disk0 allok (store s) []
  | C_Aborted => False
  | _ =>
      exists W, W ++ pending s = P0 ++ h /\
                written base disk0 allok (store s) W
  end.

(** How one step may change the store: the footprint of the code. *)
Inductive store_op : Store -> Store -> Prop :=
| op_none (st : Store) : store_op st st
| op_log (evt : InputEvent) (st : Store) : store_op st (logEvent evt st)
| op_flag (b : bool) (st : Store) : store_op st (set_running b st)
| op_trunc (ok : bool) (st : Store) : store_op st (open_truncate ok st)
| op_drain (st : Store) : store_op st (set_queue [] st)
| op_write (ok : bool) (buf : list InputEvent) (st : Store) :
    store_op st (write_batch ok buf st).

(** The opens for appending that failed. *)
Fixpoint failed_appends (trace : list (OpenMode * bool)) : nat :=
  match trace with
  | [] => O
  | (OpenApp, false) :: rest => S (failed_appends rest)
  | _ :: rest => failed_appends rest
  end.

(** The seconds that pass during a schedule. *)
Fixpoint ticks (sched : list Action) : nat :=
  match sched with
  | [] => O
  | A_Tick :: rest => S (ticks rest)
  | _ :: rest => ticks rest
  end.

(** The time a sleeping flush thread has left never exceeds the interval. *)
Definition sleep_bounded (s : Sys) : Prop :=
  match m_flushThread s with
  | FT_Sleep n => (n <= Z.to_nat (m_flushIntervalSec (store s)))%nat
  | _ => True
  end.

(** Only producers and the clock move during the schedule. *)
Definition only_logs_and_ticks (sched : list Action) : bool :=
  forallb (fun a => match a with A_Log _ | A_Tick => true | _ => false end) sched.

(** What [std::cerr] holds after [n] failed opens for appending. *)
Definition failure_report (st : Store) (n : nat) : list string :=
  repeat ("Failed to open CSV file for appending: " +++ m_filename st +++ nl) n.

(** The owner is inside [stop] and has not yet come out of [join()]. *)
Definition before_join (s : Sys) : bool :=
  match owner s with
  | C_Stop_Check _ => m_running (store s)
  | C_Stop_Store _ | C_Stop_Join _ => true
  | _ => false
  end.

(* ================================================================== *)
(** ** Reading the file back *)

(** The line of a record, without its line break. *)
Definition csv_line (evt : InputEvent) : string :=
  String.concat "," (csv_fields evt).

(** A reader for one line: five fields, the first and the last three
    decimal integers. *)
Definition parse_record (line : string) : option InputEvent :=
  match split_on comma line with
  | [ts; tag; px; py; kc] =>
      match read_dec ts, read_dec px, read_dec py, read_dec kc with
      | Some t, Some a, Some b, Some k =>
          Some (mkInputEvent tag t (mkPOINT a b) k)
      | _, _, _, _ => None
      end
  | _ => None
  end.

(** The lines after the header; the text must end with a line break, so
    the last piece is empty. *)
Fixpoint parse_lines (pieces : list string) : option (list InputEvent) :=
  match pieces with
  | [] => None
  | piece :: rest =>
      match rest with
      | [] => if String.eqb piece "" then Some [] else None
      | _ :: _ =>
          match parse_record piece, parse_lines rest with
          | Some evt, Some evts => Some (evt :: evts)
          | _, _ => None
          end
      end
  end.

(** A reader for the whole file: the header line, then one record a line. *)
Definition parse_file (text : string) : option (list InputEvent) :=
  match split_on newline text with
  | [] => None
  | first :: rest =>
      if String.eqb first "timestamp_ms,event_type,x,y,key_code"
      then parse_lines rest else None
  end.

Definition plain_events (evts : list InputEvent) : bool :=
  forallb (fun evt => plain_tag (eventType evt)) evts.

Fixpoint count_char (c : ascii) (s : string) : nat :=
  match s with
  | EmptyString => O
  | String d rest => ((if Ascii.eqb d c then 1 else 0) + count_char c rest)%nat
  end.

(* ================================================================== *)
(** ** Key names *)

(** The constants of the Win32 headers that the tracker names.  Their
    values are not part of the repository: the functions below take them
    as a parameter. *)
Record Win32 := mkWin32 {
  VK_SHIFT       : Z;
  VK_CONTROL     : Z;
  VK_MENU        : Z;
  WM_KEYDOWN     : Z;
  WM_KEYUP       : Z;
  WM_SYSKEYDOWN  : Z;
  WM_SYSKEYUP    : Z;
  WM_LBUTTONDOWN : Z;
  WM_LBUTTONUP   : Z;
  WM_RBUTTONDOWN : Z;
  WM_RBUTTONUP   : Z
}.

(** The values of WinUser.h, for the sample runs. *)
Definition winuser : Win32 :=
  mkWin32 16 17 18 256 257 260 261 513 514 516 517.

(** The code of a character, as [static_cast<UINT>] gives it for the
    characters of the ASCII range. *)
Definition char_code (c : ascii) : Z := Z.of_nat (nat_of_ascii c).

(** [(v >= '0' && v <= '9') || (v >= 'A' && v <= 'Z')]. *)
Definition digit_or_capital (v : Z) : bool :=
  ((48 <=? v)%Z && (v <=? 57)%Z) || ((65 <=? v)%Z && (v <=? 90)%Z).

(** [toupper] in the "C" locale: the letters a to z are raised, every
    other character is left as it is. *)
Definition toupper (c : ascii) : ascii :=
  let n := nat_of_ascii c in
  if (97 <=? n)%nat && (n <=? 122)%nat then ascii_of_nat (n - 32) else c.

(** [for (char c : keyStr) upper.push_back(toupper(c))]. *)
Fixpoint upper (keyStr : string) : string :=
  match keyStr with
  | EmptyString => EmptyString
  | String c rest => String (toupper c) (upper rest)
  end.

(** [vkCodeToString]: the [switch] on the three named keys, then the
    one-character names, then the fallback [VK(n)]. *)
Definition vkCodeToString (K : Win32) (vkCode : Z) : string :=
  if (vkCode =? VK_CONTROL K)%Z then "CTRL"
  else if (vkCode =? VK_SHIFT K)%Z then "SHIFT"
  else if (vkCode =? VK_MENU K)%Z then "ALT"
  else if digit_or_capital vkCode
       then String (ascii_of_nat (Z.to_nat vkCode)) EmptyString
       else "VK(" +++ dec vkCode +++ ")".

(** [keyStringToVk]; 0 means not recognised. *)
Definition keyStringToVk (K : Win32) (keyStr : string) : Z :=
  let up := upper keyStr in
  if String.eqb up "CTRL" then VK_CONTROL K
  else if String.eqb up "SHIFT" then VK_SHIFT K
  else if String.eqb up "ALT" then VK_MENU K
  else match up with
       | String c EmptyString =>
           if digit_or_capital (char_code c) then char_code c else 0
       | _ => 0
       end.

(** A code that has a name of its own. *)
Definition nameable (K : Win32) (vk : Z) : bool :=
  (vk =? VK_CONTROL K)%Z || (vk =? VK_SHIFT K)%Z || (vk =? VK_MENU K)%Z ||
  digit_or_capital vk.

(** What the headers guarantee of the three named keys: they differ from
    one another and from the codes of the digits and capitals. *)
Definition named_keys_apart (K : Win32) : bool :=
  negb (VK_CONTROL K =? VK_SHIFT K)%Z && negb (VK_CONTROL K =? VK_MENU K)%Z &&
  negb (VK_SHIFT K =? VK_MENU K)%Z &&
  negb (digit_or_capital (VK_CONTROL K)) &&
  negb (digit_or_capital (VK_SHIFT K)) &&
  negb (digit_or_capital (VK_MENU K)).

(* ================================================================== *)
(** ** The tracker *)

(** [TrackerConfig], with what its functions print.  A hook handle is
    [None] when it is [nullptr].  [pollers] counts the polling threads
    launched (they are detached). *)
Record TrackerConfig := mkTracker {
  isRunning      : bool;
  pollIntervalMs : Z;
  trackedKeys    : list Z;
  mouseHook      : option Z;
  keyboardHook   : option Z;
  csvLogger      : Sys;
  pollers        : nat;
  cout           : list string;
  cerr_tracker   : list string
}.

(** [g_config] when the program starts. *)
Definition g_config (K : Win32) : TrackerConfig :=
  mkTracker false 20
            [char_code "Q"; char_code "W"; char_code "E"; char_code "R";
             char_code "1"; char_code "2"; char_code "3"; char_code "4";
             VK_CONTROL K]
            None None (fresh "input_log.csv" 60 "" "") O [] [].

Definition with_keys (keys : list Z) (g : TrackerConfig) : TrackerConfig :=
  mkTracker (isRunning g) (pollIntervalMs g) keys (mouseHook g)
            (keyboardHook g) (csvLogger g) (pollers g) (cout g) (cerr_tracker g).

Definition print (line : string) (g : TrackerConfig) : TrackerConfig :=
  mkTracker (isRunning g) (pollIntervalMs g) (trackedKeys g) (mouseHook g)
            (keyboardHook g) (csvLogger g) (pollers g) (cout g ++ [line])
            (cerr_tracker g).

(** The loop of [setTrackedKeys] that fills [newVk]. *)
Fixpoint collect_keys (K : Win32) (keys : list string) (newVk : list Z)
  : list Z :=
  match keys with
  | [] => newVk
  | k :: rest =>
      let vk := keyStringToVk K k in
      collect_keys K rest (if (vk =? 0)%Z then newVk else newVk ++ [vk])
  end.

Definition setTrackedKeys (K : Win32) (keys : list string) (g : TrackerConfig)
  : TrackerConfig :=
  let newVk := collect_keys K keys [] in
  print ("Tracked keys updated. Count = " +++ dec (Z.of_nat (List.length newVk))
         +++ nl)
        (with_keys newVk g).

(** The search loop of the keyboard hook. *)
Fixpoint isTracked (vkCode : Z) (keys : list Z) : bool :=
  match keys with
  | [] => false
  | code :: rest => if (code =? vkCode)%Z then true else isTracked vkCode rest
  end.

(** [LowLevelKeyboardProc]: the event it hands to [logEvent], if any.
    [vkCode] is read from the hook structure, [time] from [GetTickCount],
    [pt] from [GetCursorPos].  Every path ends in [CallNextHookEx]. *)
Definition LowLevelKeyboardProc (K : Win32) (g : TrackerConfig)
           (nCode wParam vkCode time : Z) (pt : POINT) : option InputEvent :=
  if (nCode >=? 0)%Z && isRunning g then
    if negb (isTracked vkCode (trackedKeys g)) then None
    else if (wParam =? WM_KEYDOWN K)%Z || (wParam =? WM_SYSKEYDOWN K)%Z
         then Some (keyboardHookEvent "KEY_DOWN" time pt vkCode)
    else if (wParam =? WM_KEYUP K)%Z || (wParam =? WM_SYSKEYUP K)%Z
         then Some (keyboardHookEvent "KEY_UP" time pt vkCode)
    else None
  else None.

(** [LowLevelMouseProc]: the event it hands to [logEvent], if any. *)
Definition LowLevelMouseProc (K : Win32) (g : TrackerConfig)
           (nCode wParam time : Z) (pt : POINT) : option InputEvent :=
  if (nCode >=? 0)%Z && isRunning g then
    if (wParam =? WM_LBUTTONDOWN K)%Z
    then Some (mouseHookEvent "MOUSE_LEFT_DOWN" time pt)
    else if (wParam =? WM_LBUTTONUP K)%Z
    then Some (mouseHookEvent "MOUSE_LEFT_UP" time pt)
    else if (wParam =? WM_RBUTTONDOWN K)%Z
    then Some (mouseHookEvent "MOUSE_RIGHT_DOWN" time pt)
    else if (wParam =? WM_RBUTTONUP K)%Z
    then Some (mouseHookEvent "MOUSE_RIGHT_UP" time pt)
    else None
  else None.

(** Where a polling thread stands in [cursorPollingThread]. *)
Inductive PollPc :=
| P_Test                      (* while (g_config.isRunning.load()) *)
| P_Cursor                    (* GetCursorPos(&pt), getCurrentTimeMs() *)
| P_Log (evt : InputEvent)    (* g_config.csvLogger.logEvent(evt) *)
| P_Sleep                     (* sleep_for(milliseconds(pollIntervalMs)) *)
| P_Exited.

(** One atomic step of [cursorPollingThread], the tracker being [g] at
    that moment: where the thread stands next and the event it hands to
    [logEvent], if it does.  [cursor] is what [GetCursorPos] gives, [time]
    what [GetTickCount] returns.  The flag is loaded at the head of the
    loop only. *)
Definition cursorPoll (g : TrackerConfig) (cursor : option POINT) (time : Z)
           (pc : PollPc) : PollPc * option InputEvent :=
  match pc with
  | P_Test => (if isRunning g then P_Cursor else P_Exited, None)
  | P_Cursor =>
      match cursor with
      | Some pt => (P_Log (cursorPollEvent time pt), None)
      | None => (P_Sleep, None)
      end
  | P_Log evt => (P_Sleep, Some evt)
  | P_Sleep => (P_Test, None)
  | P_Exited => (P_Exited, None)
  end.

(** A run of the thread, each step with the tracker, the cursor and the
    clock of its moment: where the thread stands at the end and the events
    it handed over, in order. *)
Fixpoint cursorPollingThread (steps : list (TrackerConfig * option POINT * Z))
         (pc : PollPc) : PollPc * list InputEvent :=
  match steps with
  | [] => (pc, [])
  | (g, cursor, time) :: rest =>
      let '(pc1, out) := cursorPoll g cursor time pc in
      let '(pc2, evts) := cursorPollingThread rest pc1 in
      (pc2, match out with Some evt => evt :: evts | None => evts end)
  end.

(** The flag is cleared at every step of the run. *)
Definition flag_cleared (steps : list (TrackerConfig * option POINT * Z)) : bool :=
  forallb (fun step => negb (isRunning (fst (fst step)))) steps.

(** [evt] is an event handed to [logEvent] by one of the hooks called on
    the tracker [g]. *)
Definition hooked (K : Win32) (g : TrackerConfig) (evt : InputEvent) : Prop :=
  (exists nCode wParam vkCode time pt,
      LowLevelKeyboardProc K g nCode wParam vkCode time pt = Some evt) \/
  (exists nCode wParam time pt,
      LowLevelMouseProc K g nCode wParam time pt = Some evt).

(** [evt] is an event handed to [logEvent] by a hook called on the tracker
    [g] or by a polling thread in some run of its function. *)
Definition produced (K : Win32) (g : TrackerConfig) (evt : InputEvent) : Prop :=
  hooked K g evt \/
  (exists steps, In evt (snd (cursorPollingThread steps P_Test))).

(* ================================================================== *)
(** ** Command lines *)

(** [isspace] in the "C" locale: tab, line feed, vertical tab, form feed,
    carriage return, space. *)
Definition isspace (c : ascii) : bool :=
  let n := nat_of_ascii c in
  ((9 <=? n)%nat && (n <=? 13)%nat) || (n =? 32)%nat.

(** [splitTokens]: [while (iss >> token) tokens.push_back(token)].  The
    extraction skips white space, then takes characters up to the next
    white space; it fails at the end of the line.  [cur] is the token being
    read. *)
Fixpoint read_tokens (line : string) (cur : string) : list string :=
  match line with
  | EmptyString => if String.eqb cur "" then [] else [cur]
  | String c rest =>
      if isspace c
      then (if String.eqb cur "" then read_tokens rest ""
            else cur :: read_tokens rest "")
      else read_tokens rest (cur +++ String c EmptyString)
  end.

Definition splitTokens (line : string) : list string := read_tokens line "".

(** A token: not empty, no white space in it. *)
Definition is_token (t : string) : bool :=
  negb (String.eqb t "") && all_chars (fun c => negb (isspace c)) t.

Fixpoint drop_spaces (s : string) : string :=
  match s with
  | EmptyString => EmptyString
  | String c rest =>
      if isspace c then drop_spaces rest else String c (drop_spaces rest)
  end.

(** *** [std::stoi] *)

Definition INT_MIN : Z := - 2 ^ 31.
Definition INT_MAX : Z := 2 ^ 31 - 1.

Definition digit_value (c : ascii) : Z := Z.of_nat (nat_of_ascii c) - 48.

Fixpoint skip_spaces (s : string) : string :=
  match s with
  | EmptyString => EmptyString
  | String c rest => if isspace c then skip_spaces rest else s
  end.

(** The digits at the front of [s], read in base ten onto [acc]; [seen]
    tells whether a digit was read. *)
Fixpoint read_digits (s : string) (acc : Z) (seen : bool) : option Z :=
  match s with
  | EmptyString => if seen then Some acc else None
  | String c rest =>
      if digit_char c then read_digits rest (10 * acc + digit_value c) true
      else if seen then Some acc else None
  end.

(** [std::stoi(str)]: white space is skipped, then an optional sign and
    the longest run of digits are read; what follows is ignored.  [None]
    stands for an exception: [invalid_argument] when there is no digit,
    [out_of_range] when the value does not fit an [int]. *)
Definition stoi (str : string) : option Z :=
  let s := skip_spaces str in
  let '(negative, digits) :=
    match s with
    | String c rest =>
        if Ascii.eqb c "-" then (true, rest)
        else if Ascii.eqb c "+" then (false, rest)
        else (false, s)
    | EmptyString => (false, s)
    end in
  match read_digits digits 0 false with
  | None => None
  | Some v =>
      let n := if negative then - v else v in
      if (INT_MIN <=? n)%Z && (n <=? INT_MAX)%Z then Some n else None
  end.

(** The interval [main] of [input_tracker.cpp] passes to [startLogging]:
    20 unless a second token converts. *)
Definition start_interval (tokens : list string) : Z :=
  match tokens with
  | _ :: t :: _ => match stoi t with Some v => v | None => 20 end
  | _ => 20
  end.

(** [command.find(' ')] followed by [command.substr(spacePos)]: the line
    from its first space on. *)
Fixpoint from_first_space (command : string) : option string :=
  match command with
  | EmptyString => None
  | String c rest =>
      if Ascii.eqb c " " then Some command else from_first_space rest
  end.

(** The interval [main] of [main.cpp] passes to [startLogging]. *)
Definition start_interval2 (command : string) : Z :=
  match from_first_space command with
  | Some tail => match stoi tail with Some v => v | None => 20 end
  | None => 20
  end.

(** A text at which the reading of digits stops: empty, or beginning with
    something else than a digit. *)
Definition stops_digits (tail : string) : bool :=
  match tail with
  | EmptyString => true
  | String c _ => negb (digit_char c)
  end.

(** The value fits an [int]. *)
Definition fits_int (z : Z) : bool := (INT_MIN <=? z)%Z && (z <=? INT_MAX)%Z.

(* ================================================================== *)
(** ** Starting and stopping the tracker *)

(** What the rest of the program and the system do around one command:
    [e_idle] while the command loop waits for its line, [e_call] during
    the call of [csvLogger.start()] or [csvLogger.stop()] (producers,
    steps of the flush thread, ticks, and the steps of the call itself);
    [e_mouse] and [e_kbd] are the handles [SetWindowsHookEx] returns. *)
Record Env := mkEnv {
  e_idle  : list Action;
  e_call  : list Action;
  e_mouse : option Z;
  e_kbd   : option Z
}.

(** The logger while its owner does something else. *)
Definition background (sched : list Action) (l : Sys) : option Sys :=
  if no_calls sched then exec sched l else None.

(** A call of a method of the logger, run to its return. *)
Definition call_logger (m : Method) (sched : list Action) (l : Sys)
  : option Sys :=
  if no_calls sched then
    match exec (A_Call m :: sched) l with
    | Some l' => match owner l' with C_Idle => Some l' | _ => None end
    | None => None
    end
  else None.

Definition with_flag (b : bool) (g : TrackerConfig) : TrackerConfig :=
  mkTracker b (pollIntervalMs g) (trackedKeys g) (mouseHook g)
            (keyboardHook g) (csvLogger g) (pollers g) (cout g) (cerr_tracker g).

Definition with_interval (ms : Z) (g : TrackerConfig) : TrackerConfig :=
  mkTracker (isRunning g) ms (trackedKeys g) (mouseHook g)
            (keyboardHook g) (csvLogger g) (pollers g) (cout g) (cerr_tracker g).

Definition with_logger (l : Sys) (g : TrackerConfig) : TrackerConfig :=
  mkTracker (isRunning g) (pollIntervalMs g) (trackedKeys g) (mouseHook g)
            (keyboardHook g) l (pollers g) (cout g) (cerr_tracker g).

Definition with_hooks (m k : option Z) (g : TrackerConfig) : TrackerConfig :=
  mkTracker (isRunning g) (pollIntervalMs g) (trackedKeys g) m k
            (csvLogger g) (pollers g) (cout g) (cerr_tracker g).

Definition with_poller (g : TrackerConfig) : TrackerConfig :=
  mkTracker (isRunning g) (pollIntervalMs g) (trackedKeys g) (mouseHook g)
            (keyboardHook g) (csvLogger g) (S (pollers g)) (cout g)
            (cerr_tracker g).

Definition complain (line : string) (g : TrackerConfig) : TrackerConfig :=
  mkTracker (isRunning g) (pollIntervalMs g) (trackedKeys g) (mouseHook g)
            (keyboardHook g) (csvLogger g) (pollers g) (cout g)
            (cerr_tracker g ++ [line]).

(** [installHooks]. *)
Definition installHooks (e : Env) (g : TrackerConfig) : TrackerConfig :=
  let g1 := with_hooks (e_mouse e) (keyboardHook g) g in
  let g2 := match mouseHook g1 with
            | None => complain ("Failed to install mouse hook." +++ nl) g1
            | Some _ => g1
            end in
  let g3 := with_hooks (mouseHook g2) (e_kbd e) g2 in
  match keyboardHook g3 with
  | None => complain ("Failed to install keyboard hook." +++ nl) g3
  | Some _ => g3
  end.

(** [removeHooks]: each hook that is set is unhooked and set to
    [nullptr]. *)
Definition removeHooks (g : TrackerConfig) : TrackerConfig :=
  let g1 := match mouseHook g with
            | Some _ => with_hooks None (keyboardHook g) g
            | None => g
            end in
  match keyboardHook g1 with
  | Some _ => with_hooks (mouseHook g1) None g1
  | None => g1
  end.

(** [startLogging].  [None]: [e_call] is not a run of [csvLogger.start()]
    to its return. *)
Definition startLogging (intervalMs : Z) (e : Env) (g : TrackerConfig)
  : option TrackerConfig :=
  if isRunning g then Some (print ("Logging is already running." +++ nl) g)
  else
    let g1 := if (intervalMs >? 0)%Z then with_interval intervalMs g else g in
    let g2 := with_flag true g1 in
    match call_logger M_start (e_call e) (csvLogger g2) with
    | None => None
    | Some l =>
        let g3 := with_logger l g2 in
        let g4 := installHooks e g3 in
        let g5 := with_poller g4 in
        Some (print ("Logging started (poll interval = "
                     +++ dec (pollIntervalMs g5) +++ " ms)." +++ nl) g5)
    end.

(** [stopLogging]. *)
Definition stopLogging (e : Env) (g : TrackerConfig) : option TrackerConfig :=
  if negb (isRunning g)
  then Some (print ("Logging is not currently running." +++ nl) g)
  else
    let g1 := with_flag false g in
    let g2 := removeHooks g1 in
    match call_logger M_stop (e_call e) (csvLogger g2) with
    | None => None
    | Some l => Some (print ("Logging stopped." +++ nl) (with_logger l g2))
    end.

(* ------------------------------------------------------------------ *)
(** *** The command loops *)

(** One turn of the loop of [main] in [input_tracker.cpp], a line having
    been read: the state after the command and whether the loop goes
    on. *)
Definition command (K : Win32) (line : string) (e : Env) (g : TrackerConfig)
  : option (TrackerConfig * bool) :=
  match splitTokens line with
  | [] => Some (g, true)
  | cmd :: args =>
      if String.eqb cmd "start" then
        option_map (fun g' => (g', true))
                   (startLogging (start_interval (cmd :: args)) e g)
      else if String.eqb cmd "stop" then
        option_map (fun g' => (g', true)) (stopLogging e g)
      else if String.eqb cmd "setkeys" then
        match args with
        | _ :: _ => Some (setTrackedKeys K args g, true)
        | [] => Some (print ("Usage: setkeys [key1 key2 ...]" +++ nl) g, true)
        end
      else if String.eqb cmd "exit" then Some (g, false)
      else Some (print ("Unknown command: " +++ cmd +++ nl) g, true)
  end.

(** The prompt, the wait for a line, the command. *)
Definition turn (K : Win32) (line : string) (e : Env) (g : TrackerConfig)
  : option (TrackerConfig * bool) :=
  let g1 := print "> " g in
  match background (e_idle e) (csvLogger g1) with
  | None => None
  | Some l => command K line e (with_logger l g1)
  end.

(** The loop over the lines of the input; at the end of the input the
    prompt has been printed and [getline] fails. *)
Fixpoint command_loop (K : Win32) (input : list (string * Env))
         (g : TrackerConfig) : option TrackerConfig :=
  match input with
  | [] => Some (print "> " g)
  | (line, e) :: rest =>
      match turn K line e g with
      | None => None
      | Some (g', true) => command_loop K rest g'
      | Some (g', false) => Some g'
      end
  end.







(** One turn of the loop of [main] in [main.cpp]: the whole line is the
    command. *)
Definition command2 (line : string) (e : Env) (g : TrackerConfig)
  : option (TrackerConfig * bool) :=
  if starts_with "start" line then
    option_map (fun g' => (g', true)) (startLogging (start_interval2 line) e g)
  else if String.eqb line "stop" then
    option_map (fun g' => (g', true)) (stopLogging e g)
  else if String.eqb line "exit" then Some (g, false)
  else Some (print ("Unknown command." +++ nl) g, true).

Definition turn2 (line : string) (e : Env) (g : TrackerConfig)
  : option (TrackerConfig * bool) :=
  let g1 := print "> " g in
  match background (e_idle e) (csvLogger g1) with
  | None => None
  | Some l => command2 line e (with_logger l g1)
  end.

Fixpoint command_loop2 (input : list (string * Env)) (g : TrackerConfig)
  : option TrackerConfig :=
  match input with
  | [] => Some (print "> " g)
  | (line, e) :: rest =>
      match turn2 line e g with
      | None => None
      | Some (g', true) => command_loop2 rest g'
      | Some (g', false) => Some g'
      end
  end.

Definition welcome2 : list string :=
  ["Welcome to the standalone Win32 skillshot analyzer!" +++ nl;
   "Type 'start [intervalMs]' to begin logging" +++ nl;
   "Type 'stop' to stop logging" +++ nl;
   "Type 'exit' to quit" +++ nl].

(** [main] of [main.cpp]: [stopLogging] is called whether or not the
    tracker runs. *)
Definition main2 (input : list (string * Env)) (last : Env) (g : TrackerConfig)
  : option (TrackerConfig * Z) :=
  match command_loop2 input (fold_left (fun acc s => print s acc) welcome2 g) with
  | None => None
  | Some g1 =>
      match stopLogging last g1 with
      | None => None
      | Some g2 => Some (print ("Exiting." +++ nl) g2, 0)
      end
  end.

(** What holds of the tracker between two commands: the polling interval
    is positive, the logger is between two calls and runs exactly when the
    tracker's flag is set, and no hook is installed while it is cleared. *)
Definition tracker_ok (g : TrackerConfig) : Prop :=
  0 < pollIntervalMs g /\
  wf (csvLogger g) = true /\
  owner (csvLogger g) = C_Idle /\
  m_running (store (csvLogger g)) = isRunning g /\
  (isRunning g = false -> mouseHook g = None /\ keyboardHook g = None).

(** The flag at each point of a call of [start] made on a stopped logger
    and at its return. *)
Definition start_inv (s : Sys) : bool :=
  match owner s with
  | C_Start_Check | C_Start_Store => negb (m_running (store s))
  | C_Start_Open | C_Start_Launch | C_Idle => m_running (store s)
  | _ => false
  end.

(** The steps of a call after its invocation, nobody else running but the
    flush thread [stop] waits for. *)
Definition quiet_call (g : TrackerConfig) : list Action :=
  if isRunning g then tl (stop_schedule (m_flushThread (csvLogger g)))
  else tl (start_schedule true).

(* ================================================================== *)
(** * Properties *)

(** ** Texts *)

Lemma sapp_nil_r (s : string) : s +++ "" = s.
Proof. induction s as [|c s IH]; simpl; [reflexivity | now rewrite IH]. Qed.

Lemma sapp_assoc (a b c : string) : (a +++ b) +++ c = a +++ (b +++ c).
Proof. induction a as [|ch a IH]; simpl; [reflexivity | now rewrite IH]. Qed.

Lemma has_char_app (c : ascii) (a b : string) :
  has_char c (a +++ b) = has_char c a || has_char c b.
Proof.
  induction a as [|d a IH]; simpl; [reflexivity|].
  rewrite IH. now rewrite orb_assoc.
Qed.

Lemma split_on_plain (sep : ascii) (a : string) :
  has_char sep a = false -> split_on sep a = [a].
Proof.
  induction a as [|d a IH]; simpl; [reflexivity|].
  intros H. apply orb_false_iff in H as [Hd Ha].
  rewrite Hd, (IH Ha). reflexivity.
Qed.

Lemma split_on_field (sep : ascii) (a b : string) :
  has_char sep a = false ->
  split_on sep (a +++ String sep b) = a :: split_on sep b.
Proof.
  induction a as [|d a IH]; simpl.
  - intros _. now rewrite Ascii.eqb_refl.
  - intros H. apply orb_false_iff in H as [Hd Ha].
    rewrite Hd, (IH Ha). reflexivity.
Qed.

(** *** Decimal numerals *)

Lemma uint_digits (d : Decimal.uint) :
  all_chars digit_char (NilEmpty.string_of_uint d) = true.
Proof. induction d; simpl; auto. Qed.

Lemma uint_digits0 (d : Decimal.uint) :
  all_chars digit_char (NilZero.string_of_uint d) = true.
Proof. destruct d; try reflexivity; apply (uint_digits (_ _)). Qed.

Lemma all_chars_has_char (p : ascii -> bool) (c : ascii) (s : string) :
  p c = false -> all_chars p s = true -> has_char c s = false.
Proof.
  intros Hc. induction s as [|d s IH]; simpl; [reflexivity|].
  intros H. apply andb_true_iff in H as [Hd Hs].
  rewrite (IH Hs), orb_false_r.
  apply Ascii.eqb_neq. intros ->. congruence.
Qed.

(** A numeral holds digits and at most a leading minus sign. *)
Lemma dec_chars (z : Z) (c : ascii) :
  digit_char c = false -> c <> "-"%char -> has_char c (dec z) = false.
Proof.
  intros Hd Hm. unfold dec.
  destruct (Z.to_int z) as [d|d]; unfold NilZero.string_of_int.
  - apply (all_chars_has_char digit_char); [exact Hd | apply uint_digits0].
  - cbn [has_char].
    rewrite (all_chars_has_char digit_char c _ Hd (uint_digits0 d)).
    rewrite orb_false_r. apply Ascii.eqb_neq. congruence.
Qed.

(** An unsigned value prints as digits only. *)
Lemma dec_unsigned_digits (z : Z) :
  0 <= z -> all_chars digit_char (dec z) = true.
Proof.
  intros Hz. unfold dec. destruct z as [|p|p]; [reflexivity | | lia].
  apply uint_digits0.
Qed.

Lemma dec_no_comma (z : Z) : has_char comma (dec z) = false.
Proof. apply dec_chars; [reflexivity | discriminate]. Qed.

Lemma dec_no_newline (z : Z) : has_char newline (dec z) = false.
Proof. apply dec_chars; [reflexivity | discriminate]. Qed.

(** A numeral reads back as the integer it was printed from. *)
Lemma read_dec_dec (z : Z) : read_dec (dec z) = Some z.
Proof.
  unfold read_dec, dec.
  rewrite NilZero.isi.
  - simpl. now rewrite DecimalZ.of_to.
  - destruct z; simpl; try discriminate.
    intros H. injection H as H. now apply DecimalPos.Unsigned.to_uint_nonnil in H.
  - destruct z; simpl; try discriminate.
    intros H. injection H as H. now apply DecimalPos.Unsigned.to_uint_nonnil in H.
Qed.

(** *** Records and batches *)

Lemma write_loop_render (localBuffer : list InputEvent) (ofs : string) :
  write_loop localBuffer ofs = ofs +++ render localBuffer.
Proof.
  revert ofs. induction localBuffer as [|evt rest IH]; intros ofs; simpl.
  - unfold render. simpl. now rewrite sapp_nil_r.
  - rewrite IH, sapp_assoc. f_equal.
    unfold render. simpl. destruct (map csv_record rest) eqn:E.
    + destruct rest; [|discriminate]. simpl. now rewrite sapp_nil_r.
    + destruct rest as [|e' rest']; [discriminate|].
      simpl in E. injection E as <- <-. reflexivity.
Qed.

Lemma render_cons (evt : InputEvent) (evts : list InputEvent) :
  render (evt :: evts) = csv_record evt +++ render evts.
Proof.
  pose proof (write_loop_render (evt :: evts) "") as H. simpl in H.
  rewrite write_loop_render in H. simpl in H. congruence.
Qed.

Lemma render_app (a b : list InputEvent) :
  render (a ++ b) = render a +++ render b.
Proof.
  induction a as [|evt a IH]; [reflexivity|].
  simpl. now rewrite !render_cons, IH, sapp_assoc.
Qed.

(** ** The queue *)

Lemma drain_loop_all (q : EventQueue) (localBuffer : list InputEvent) :
  drain_loop q localBuffer = ([], localBuffer ++ q).
Proof.
  revert localBuffer. induction q as [|evt rest IH]; intros localBuffer; simpl.
  - now rewrite app_nil_r.
  - now rewrite IH, <- app_assoc.
Qed.

(** The loop in terms of the queue's own operations, as the source has it. *)
Lemma drain_loop_unfold (q : EventQueue) (localBuffer : list InputEvent) :
  drain_loop q localBuffer =
  if q_empty q then (q, localBuffer)
  else match q_front q with
       | Some evt => drain_loop (q_pop q) (localBuffer ++ [evt])
       | None => (q, localBuffer)
       end.
Proof. destruct q; reflexivity. Qed.

Lemma drainAll_all (q : EventQueue) : drainAll q = (q, []).
Proof. unfold drainAll. now rewrite drain_loop_all. Qed.

Lemma drain_locked_all (st : Store) :
  drain_locked st = (set_queue [] st, m_eventQueue st).
Proof. unfold drain_locked. now rewrite drainAll_all. Qed.

Lemma pushes_from_empty (evts : list InputEvent) (q : EventQueue) :
  fold_left (fun acc evt => q_push evt acc) evts q = q ++ evts.
Proof.
  revert q. induction evts as [|evt evts IH]; intros q; simpl.
  - now rewrite app_nil_r.
  - rewrite IH. unfold q_push. now rewrite <- app_assoc.
Qed.

(** C4: [drainAll] returns the whole queue in FIFO order and leaves it
    empty, whatever the queue holds: the events taken are exactly the
    queue's contents (none lost, none twice), a queue filled by successive
    pushes gives the events back in the order pushed, and draining again
    right away gives the empty sequence.  The drain is one step of the
    thread that runs it: an event logged before it is in the batch, an
    event logged after it is in the queue. *)
Theorem drainAll_fifo_and_empties :
  forall q : EventQueue,
    drainAll q = (q, []) /\
    drainAll (snd (drainAll q)) = ([], []) /\
    (forall evts, drainAll (fold_left (fun acc evt => q_push evt acc) evts q)
                  = (q ++ evts, [])) /\
    (forall st, drain_locked st = (set_queue [] st, m_eventQueue st)) /\
    (forall st pc ok,
        flush_step ok (mkSys st FT_Drain pc)
        = Some (mkSys (set_queue [] st) (FT_Write (m_eventQueue st)) pc)) /\
    (forall st before after,
        drain_locked (logEvent before st)
        = (set_queue [] st, m_eventQueue st ++ [before]) /\
        m_eventQueue (logEvent after (fst (drain_locked st))) = [after]).
Proof.
  intros q. repeat split.
  - apply drainAll_all.
  - now rewrite !drainAll_all.
  - intros evts. now rewrite drainAll_all, pushes_from_empty.
  - apply drain_locked_all.
  - intros st pc ok. unfold flush_step. cbn [store m_flushThread owner].
    now rewrite drain_locked_all.
  - now rewrite drain_locked_all.
  - now rewrite drain_locked_all.
Qed.

(** ** The invariant of the owner's code *)

Ltac open_sys s :=
  let st := fresh "st" in
  let ft := fresh "ft" in
  let pc := fresh "pc" in
  destruct s as [st ft pc];
  destruct st as [fname ival run q dsk err ops].

Ltac step_cases H :=
  cbn in H; rewrite ?drain_locked_all in H; cbn in H;
  repeat match type of H with
         | context [match ?k with ByUser => _ | ByDestructor => _ end] =>
             destruct k; cbn in H
         | context [if ?b then _ else _] => destruct b eqn:?; cbn in H
         | context [match ?n with O => _ | S _ => _ end] => destruct n; cbn in H
         end;
  try discriminate H;
  try (injection H as <-).

Lemma running_open_truncate (ok : bool) (st : Store) :
  m_running (open_truncate ok st) = m_running st.
Proof. now destruct ok. Qed.

Lemma running_write_batch (ok : bool) (buf : list InputEvent) (st : Store) :
  m_running (write_batch ok buf st) = m_running st.
Proof. now destruct ok, buf. Qed.

Lemma queue_write_batch (ok : bool) (buf : list InputEvent) (st : Store) :
  m_eventQueue (write_batch ok buf st) = m_eventQueue st.
Proof. now destruct ok, buf. Qed.

Lemma disk_write_batch_ok (buf : list InputEvent) (st : Store) :
  disk (write_batch true buf st) = disk st +++ render buf.
Proof.
  destruct buf as [|evt rest].
  - cbn. now rewrite sapp_nil_r.
  - unfold write_batch. cbn [q_empty negb set_disk disk].
    apply write_loop_render.
Qed.

Lemma wf_step (a : Action) (s s' : Sys) :
  wf s = true -> step a s = Some s' -> wf s' = true.
Proof.
  open_sys s. intros Hwf Hstep.
  destruct a as [m|ok|ok|evt|]; destruct pc; destruct ft; destruct run;
    cbn in Hwf; try discriminate Hwf;
    try (destruct m); step_cases Hstep;
    repeat match goal with k : StopCaller |- _ => destruct k end;
    unfold wf; cbn [store m_flushThread owner stop_return];
    rewrite ?running_open_truncate, ?running_write_batch; reflexivity.
Qed.

Lemma wf_exec (sched : list Action) (s s' : Sys) :
  wf s = true -> exec sched s = Some s' -> wf s' = true.
Proof.
  revert s. induction sched as [|a rest IH]; intros s Hwf Hex; simpl in Hex.
  - now injection Hex as <-.
  - destruct (step a s) as [s1|] eqn:E; [|discriminate].
    eapply IH; [eapply wf_step; eassumption | exact Hex].
Qed.

Lemma wf_fresh (filename ts old : string) (flushIntervalSeconds : Z) :
  wf (fresh filename flushIntervalSeconds ts old) = true.
Proof. reflexivity. Qed.

(** Every state the program reaches from the constructor satisfies the
    invariant; in particular [std::terminate] is never reached. *)
Lemma reachable_wf (filename ts old : string) (flushIntervalSeconds : Z)
      (sched : list Action) (s : Sys) :
  exec sched (fresh filename flushIntervalSeconds ts old) = Some s ->
  wf s = true /\ owner s <> C_Aborted.
Proof.
  intros H. pose proof (wf_exec _ _ _ (wf_fresh _ _ _ _) H) as Hwf.
  split; [exact Hwf|]. intros E. unfold wf in Hwf. now rewrite E in Hwf.
Qed.

Lemma exec_app (a b : list Action) (s : Sys) :
  exec (a ++ b) s =
  match exec a s with Some s1 => exec b s1 | None => None end.
Proof.
  revert s. induction a as [|x a IH]; intros s; simpl; [reflexivity|].
  destruct (step x s); [apply IH | reflexivity].
Qed.

Lemma logged_app (a b : list Action) : logged (a ++ b) = logged a ++ logged b.
Proof.
  induction a as [|x a IH]; simpl; [reflexivity|].
  destruct x; simpl; now rewrite ?IH.
Qed.

(** ** A call of [stop], step by step *)

Section StopInProgress.

(** The state in which [stop] (or the destructor) was called. *)
Variable s0 : Sys.

Lemma disk_extends_weaken (a b : bool) (s : Sys) (W : list InputEvent) :
  disk_extends a s0 s W -> disk_extends (a && b) s0 s W.
Proof. unfold disk_extends. intros H E. apply andb_true_iff in E as [E _]. auto. Qed.

Lemma stop_inv_tick (s : Sys) (h : list InputEvent) (allok : bool) :
  stop_inv s0 h allok s -> stop_inv s0 h allok (tick s).
Proof.
  intros [Hwf H]. split; [now apply (wf_step A_Tick s)|].
  destruct s as [st ft pc]. unfold tick. cbn [m_flushThread store owner].
  destruct ft as [| |[|n]| | | |]; exact H.
Qed.


Lemma disk_extends_write (allok ok : bool) (st : Store)
      (ft ft' : FlushPc) (pc pc' : OwnerPc) (W buf : list InputEvent) :
  disk_extends allok s0 (mkSys st ft pc) W ->
  disk_extends (allok && ok) s0 (mkSys (write_batch ok buf st) ft' pc') (W ++ buf).
Proof.
  unfold disk_extends. cbn [store]. intros H E.
  apply andb_true_iff in E as [Ea ->].
  now rewrite disk_write_batch_ok, (H Ea), render_app, sapp_assoc.
Qed.
Lemma stop_inv_log (s s' : Sys) (h : list InputEvent) (allok : bool)
      (evt : InputEvent) :
  stop_inv s0 h allok s -> log_step evt s = Some s' ->
  stop_inv s0 (h ++ [evt]) allok s'.
Proof.
  intros [Hwf H] Hstep. split; [now apply (wf_step (A_Log evt) s)|].
  destruct s as [st ft pc]. unfold log_step in Hstep.
  cbn [owner store m_flushThread] in *.
  assert (Hp : forall W, W ++ pending (mkSys st ft pc) = pending s0 ++ h ->
               W ++ pending (mkSys (logEvent evt st) ft pc)
               = pending s0 ++ h ++ [evt]).
  { intros W HW. remember (pending s0) as P0. unfold pending in *.
    cbn [owner store m_flushThread logEvent set_queue m_eventQueue q_push] in *.
    rewrite (app_assoc P0), <- HW. now rewrite <- !app_assoc. }
  assert (Hq : forall later, h = later ++ m_eventQueue st ->
               h ++ [evt] = later ++ m_eventQueue (logEvent evt st)).
  { intros later ->. cbn. unfold q_push. now rewrite app_assoc. }
  destruct pc; try contradiction; try discriminate;
    injection Hstep as <-; cbn [owner store m_flushThread] in *;
    unfold disk_extends in *.
  all: repeat match goal with
           | H : _ /\ _ |- _ => destruct H
           | H : exists _, _ |- _ => destruct H
           end.
  all: try (split; [assumption|]).
  all: try (eexists; split; [apply Hp; eassumption | assumption]).
  all: try (eexists; split; [apply Hq; eassumption | ]).
  all: try assumption.
  eexists; split; eassumption.
Qed.
Lemma stop_inv_flush (s s' : Sys) (h : list InputEvent) (allok ok : bool) :
  stop_inv s0 h allok s -> flush_step ok s = Some s' ->
  stop_inv s0 h (allok && ok) s'.
Proof.
  intros [Hwf H] Hstep. split; [now apply (wf_step (A_Flush ok) s)|].
  destruct s as [st ft pc]. remember (pending s0) as P0.
  unfold flush_step in Hstep. cbn [owner store m_flushThread] in *.
  rewrite drain_locked_all in Hstep.
  destruct pc; try contradiction;
    repeat match goal with
           | H : _ /\ _ |- _ => destruct H
           | H : exists _, _ |- _ => destruct H
           end;
    unfold wf in Hwf; cbn [owner store m_flushThread] in Hwf;
    destruct (m_running st) eqn:Hrun; try discriminate;
    destruct ft as [| |[|n]| | |buf|]; try discriminate;
    injection Hstep as <-; cbn [owner store m_flushThread] in *;
    unfold pending in *; cbn [owner store m_flushThread flush_batch owner_batch
                              set_queue m_eventQueue m_running app] in *;
    rewrite ?app_nil_r, ?running_write_batch, ?queue_write_batch in *.
  all: try (split; [assumption|]).
  all: try (eexists; split; [eassumption | now apply disk_extends_weaken]).
  all: match goal with
       | HW : ?W ++ ?buf ++ _ = _ |- _ =>
           exists (W ++ buf); split;
           [ now rewrite <- app_assoc
           | eapply disk_extends_write; eassumption ]
       end.
Qed.
Lemma stop_inv_owner (s s' : Sys) (h : list InputEvent) (allok ok : bool) :
  stop_inv s0 h allok s -> owner_step ok s = Some s' ->
  stop_inv s0 h (allok && ok) s'.
Proof.
  intros [Hwf H] Hstep. split; [now apply (wf_step (A_Owner ok) s)|].
  destruct s as [st ft pc]. remember (pending s0) as P0.
  unfold owner_step in Hstep. cbn [owner store m_flushThread] in *.
  rewrite drain_locked_all in Hstep.
  destruct pc; try contradiction; try discriminate;
    repeat match goal with
           | H : _ /\ _ |- _ => destruct H
           | H : exists _, _ |- _ => destruct H
           end;
    unfold wf in Hwf; cbn [owner store m_flushThread] in Hwf;
    destruct (m_running st) eqn:Hrun; try discriminate;
    destruct ft as [| |[|n]| | |buf|]; try discriminate;
    injection Hstep as <-; cbn [owner store m_flushThread] in *;
    unfold pending in *; cbn [owner store m_flushThread flush_batch owner_batch
                              set_queue set_running m_eventQueue m_running app] in *;
    rewrite ?app_nil_r, ?running_write_batch, ?queue_write_batch in *.
  all: try (split; [assumption|]).
  all: try (eexists; split; [eassumption | now apply disk_extends_weaken]).
  - exists h. split; [now rewrite app_nil_r|].
    match goal with HW : ?W ++ _ = _ ++ h |- _ => exists W end.
    split; [assumption | now apply disk_extends_weaken].
  - assert (G : m_running st = false /\
                exists later, h = later ++ m_eventQueue st /\
                  disk_extends (allok && ok) s0
                    (mkSys (write_batch ok localBuffer st) FT_None (stop_return k))
                    (P0 ++ later)).
    { split; [assumption|]. eexists. split; [eassumption|].
      match goal with HW : _ ++ localBuffer = _ |- _ => rewrite <- HW end.
      eapply disk_extends_write; eassumption. }
    destruct k; exact G.
Qed.
Lemma stop_inv_step (s s' : Sys) (h : list InputEvent) (allok : bool)
      (a : Action) :
  is_call a = false -> stop_inv s0 h allok s -> step a s = Some s' ->
  stop_inv s0 (h ++ logged [a]) (allok && open_ok a) s'.
Proof.
  intros Hc Hinv Hstep. destruct a as [m|ok|ok|evt|]; cbn in *.
  - discriminate Hc.
  - rewrite app_nil_r. eapply stop_inv_owner; eassumption.
  - rewrite app_nil_r. eapply stop_inv_flush; eassumption.
  - rewrite andb_true_r. eapply stop_inv_log; eassumption.
  - rewrite app_nil_r, andb_true_r. injection Hstep as <-.
    now apply stop_inv_tick.
Qed.

Lemma stop_inv_exec (sched : list Action) :
  forall (s s' : Sys) (h : list InputEvent) (allok : bool),
    no_calls sched = true -> stop_inv s0 h allok s -> exec sched s = Some s' ->
    stop_inv s0 (h ++ logged sched) (allok && opens_ok sched) s'.
Proof.
  induction sched as [|a rest IH]; intros s s' h allok Hc Hinv Hex.
  - cbn in *. injection Hex as <-. now rewrite app_nil_r, andb_true_r.
  - cbn [exec] in Hex. destruct (step a s) as [s1|] eqn:E; [|discriminate].
    cbn [no_calls forallb] in Hc. apply andb_true_iff in Hc as [Ha Hrest].
    apply negb_true_iff in Ha.
    pose proof (stop_inv_step s s1 h allok a Ha Hinv E) as H1.
    pose proof (IH s1 s' _ _ Hrest H1 Hex) as H2.
    replace (h ++ logged (a :: rest)) with ((h ++ logged [a]) ++ logged rest).
    + cbn [opens_ok forallb]. now rewrite andb_assoc.
    + rewrite <- app_assoc. f_equal. change (a :: rest) with ([a] ++ rest).
      now rewrite logged_app.
Qed.

End StopInProgress.

(** ** The flush thread after the flag is cleared *)

Lemma exec_ticks (n : nat) (rest : list Action) (st : Store) (pc : OwnerPc) :
  exec (repeat A_Tick n ++ rest) (mkSys st (FT_Sleep n) pc)
  = exec rest (mkSys st (FT_Sleep 0) pc).
Proof. induction n as [|n IH]; [reflexivity | exact IH]. Qed.

(** A thread that is not between its poll and its write returns without
    touching the store. *)
Lemma flush_exit_quiet (st : Store) (ft : FlushPc) (pc : OwnerPc) :
  m_running st = false -> joinable ft = true -> flush_quiet ft = true ->
  exec (flush_exit_schedule ft) (mkSys st ft pc) = Some (mkSys st FT_Exited pc).
Proof.
  intros Hr Hj Hq.
  destruct ft as [| |n| | |buf|]; try discriminate; cbn [flush_exit_schedule].
  - cbn. now rewrite Hr.
  - rewrite exec_ticks. cbn. now rewrite Hr.
  - cbn. now rewrite Hr.
  - reflexivity.
Qed.

(** Any joinable thread returns, the flag staying cleared. *)
Lemma flush_exit_any (st : Store) (ft : FlushPc) (pc : OwnerPc) :
  m_running st = false -> joinable ft = true ->
  exists st', exec (flush_exit_schedule ft) (mkSys st ft pc)
              = Some (mkSys st' FT_Exited pc) /\ m_running st' = false.
Proof.
  intros Hr Hj. destruct (flush_quiet ft) eqn:Hq.
  - exists st. split; [now apply flush_exit_quiet | exact Hr].
  - destruct ft as [| |n| | |buf|]; try discriminate; cbn.
    + rewrite drain_locked_all. cbn. rewrite running_write_batch.
      cbn [m_running set_queue]. rewrite Hr. eexists. split; [reflexivity|].
      now rewrite running_write_batch.
    + rewrite running_write_batch, Hr. eexists. split; [reflexivity|].
      now rewrite running_write_batch.
Qed.

Ltac run_steps :=
  unfold exec, step, call_step, owner_step, flush_step, log_step, tick;
  cbn [owner store m_flushThread negb stop_return joinable].

(** [stop] called on a running logger returns once the flush thread has
    been given the steps it needs. *)
Lemma stop_returns (s : Sys) :
  wf s = true -> owner s = C_Idle -> m_running (store s) = true ->
  exists s1, exec (stop_schedule (m_flushThread s)) s = Some s1 /\
             owner s1 = C_Idle.
Proof.
  destruct s as [st ft pc]. cbn [owner store m_flushThread].
  intros Hwf -> Hr. unfold wf in Hwf. cbn [owner store m_flushThread] in Hwf.
  rewrite Hr in Hwf.
  assert (Hj : joinable ft = true) by (now destruct ft).
  assert (H1 : exec [A_Call M_stop; A_Owner true; A_Owner true]
                    (mkSys st ft C_Idle)
               = Some (mkSys (set_running false st) ft (C_Stop_Join ByUser))).
  { run_steps. rewrite Hr. run_steps. reflexivity. }
  destruct (flush_exit_any (set_running false st) ft (C_Stop_Join ByUser)
              eq_refl Hj) as [st' [H2 Hr']].
  unfold stop_schedule. rewrite exec_app, H1, exec_app, H2.
  run_steps. rewrite drain_locked_all. eexists. split; reflexivity.
Qed.

Lemma dtor_returns (s : Sys) :
  wf s = true -> owner s = C_Idle -> m_running (store s) = true ->
  exists s1, exec (dtor_schedule (m_flushThread s)) s = Some s1 /\
             owner s1 = C_Destroyed.
Proof.
  destruct s as [st ft pc]. cbn [owner store m_flushThread].
  intros Hwf -> Hr. unfold wf in Hwf. cbn [owner store m_flushThread] in Hwf.
  rewrite Hr in Hwf.
  assert (Hj : joinable ft = true) by (now destruct ft).
  assert (H1 : exec [A_Call M_dtor; A_Owner true; A_Owner true; A_Owner true]
                    (mkSys st ft C_Idle)
               = Some (mkSys (set_running false st) ft
                             (C_Stop_Join ByDestructor))).
  { run_steps. rewrite Hr. run_steps. rewrite Hr. run_steps. reflexivity. }
  destruct (flush_exit_any (set_running false st) ft (C_Stop_Join ByDestructor)
              eq_refl Hj) as [st' [H2 Hr']].
  unfold dtor_schedule. rewrite exec_app, H1, exec_app, H2.
  run_steps. rewrite drain_locked_all. eexists. split; reflexivity.
Qed.

(** ** Shutdown *)

Lemma stop_inv_start (s : Sys) (pc : OwnerPc) :
  wf s = true -> owner s = C_Idle -> m_running (store s) = true ->
  pc = C_Stop_Check ByUser \/ pc = C_Dtor_Check ->
  let s0 := mkSys (store s) (m_flushThread s) pc in
  stop_inv s0 [] true s0 /\ pending s0 = pending s.
Proof.
  destruct s as [st ft pc0]. cbn [owner store m_flushThread].
  intros Hwf -> Hr Hpc. unfold wf in Hwf. cbn [owner store m_flushThread] in Hwf.
  assert (E : forall p, owner_batch p = [] ->
              pending (mkSys st ft p) = pending (mkSys st ft C_Idle)).
  { intros p Hp. unfold pending. cbn [owner store m_flushThread]. now rewrite Hp. }
  destruct Hpc as [-> | ->]; (split; [|now apply E]);
    (split; [exact Hwf|]); cbn [owner store];
    (split; [exact Hr|]); exists []; rewrite app_nil_r;
    (split; [reflexivity|]); intros _; cbn; now rewrite sapp_nil_r.
Qed.

(** What a completed shutdown has done, whoever asked for it. *)
Lemma shutdown_outcome (s s1 : Sys) (m : Method) (sched : list Action) :
  wf s = true -> owner s = C_Idle -> m_running (store s) = true ->
  m = M_stop \/ m = M_dtor ->
  no_calls sched = true ->
  exec (A_Call m :: sched) s = Some s1 ->
  owner s1 = C_Idle \/ owner s1 = C_Destroyed ->
  m_running (store s1) = false /\ m_flushThread s1 = FT_None /\
  exists later,
    logged sched = later ++ m_eventQueue (store s1) /\
    (opens_ok sched = true ->
     disk (store s1) = disk (store s) +++ render (pending s ++ later)).
Proof.
  intros Hwf Ho Hr Hm Hc Hex Hend.
  cbn [exec step] in Hex. unfold call_step in Hex. rewrite Ho in Hex.
  set (pc := match m with
             | M_start => C_Start_Check
             | M_stop => C_Stop_Check ByUser
             | M_dtor => C_Dtor_Check
             end) in Hex.
  assert (Hpc : pc = C_Stop_Check ByUser \/ pc = C_Dtor_Check)
    by (destruct Hm as [-> | ->]; [left | right]; reflexivity).
  destruct (stop_inv_start s pc Hwf Ho Hr Hpc) as [Hinv Hpend].
  pose proof (stop_inv_exec _ sched _ _ _ _ Hc Hinv Hex) as [Hwf1 H1].
  cbn [app andb] in H1. rewrite Hpend in H1.
  assert (G : m_running (store s1) = false /\
              exists later, logged sched = later ++ m_eventQueue (store s1) /\
                disk_extends (opens_ok sched)
                  (mkSys (store s) (m_flushThread s) pc) s1 (pending s ++ later))
    by (destruct Hend as [E | E]; rewrite E in H1; exact H1).
  destruct G as [Hr1 [later [Hl Hd]]].
  split; [exact Hr1|]. split.
  - unfold wf in Hwf1. rewrite Hr1 in Hwf1.
    destruct Hend as [E | E]; rewrite E in Hwf1;
      destruct (m_flushThread s1); try discriminate; reflexivity.
  - exists later. split; [exact Hl | exact Hd].
Qed.




(** ** A stopped logger *)

Lemma set_queue_twice (q q' : EventQueue) (st : Store) :
  set_queue q (set_queue q' st) = set_queue q st.
Proof. reflexivity. Qed.

Lemma set_queue_same (st : Store) : set_queue (m_eventQueue st) st = st.
Proof. now destruct st. Qed.

Lemma logEvents_queue (evts : list InputEvent) (st : Store) :
  logEvents evts st = set_queue (m_eventQueue st ++ evts) st.
Proof.
  unfold logEvents. revert st.
  induction evts as [|evt evts IH]; intros st; cbn [fold_left].
  - now rewrite app_nil_r, set_queue_same.
  - rewrite IH. unfold logEvent, q_push. cbn [m_eventQueue set_queue].
    now rewrite <- app_assoc.
Qed.

(** While the logger is stopped and nothing is called, every step either
    enqueues an event or leaves the store alone. *)
Lemma stopped_frame (sched : list Action) :
  forall s s1 : Sys,
    no_calls sched = true ->
    m_running (store s) = false -> m_flushThread s = FT_None ->
    quiescent (owner s) = true ->
    exec sched s = Some s1 ->
    store s1 = logEvents (logged sched) (store s) /\
    m_flushThread s1 = FT_None /\ quiescent (owner s1) = true.
Proof.
  induction sched as [|a rest IH]; intros s s1 Hc Hr Hft Hq Hex.
  - cbn in Hex. injection Hex as <-. repeat split; assumption.
  - cbn [exec] in Hex. destruct (step a s) as [s'|] eqn:E; [|discriminate].
    cbn [no_calls forallb] in Hc. apply andb_true_iff in Hc as [Ha Hrest].
    destruct s as [st ft pc]. cbn [store m_flushThread owner] in *. subst ft.
    assert (G : store s' = logEvents (logged [a]) st /\
                m_running (store s') = false /\
                m_flushThread s' = FT_None /\ quiescent (owner s') = true).
    { destruct a as [m|ok|ok|evt|]; try discriminate Ha;
        unfold step, owner_step, flush_step, log_step, tick in E;
        cbn [store m_flushThread owner] in E;
        destruct pc; try discriminate Hq; try discriminate E;
        try rewrite Hr in E; cbn in E; injection E as <-;
        cbn; repeat split; assumption. }
    destruct G as [Hs [Hr' [Hft' Hq']]].
    destruct (IH s' s1 Hrest Hr' Hft' Hq' Hex) as [Hs1 [Hf1 Hq1]].
    repeat split; try assumption.
    rewrite Hs1, Hs. change (a :: rest) with ([a] ++ rest).
    rewrite logged_app. unfold logEvents. now rewrite fold_left_app.
Qed.

(** C9: [logEvent] has no guard on the running flag.  In every state of the
    logger it appends the event at the tail of the queue and changes nothing
    else; a producer's call is accepted at every point of the owner's code
    as long as the object exists; and while the logger is stopped the
    events accumulate in the queue, in order, the file untouched, until a
    drain writes them. *)
Theorem logEvent_buffers_in_any_state :
  (forall st evt,
      m_eventQueue (logEvent evt st) = m_eventQueue st ++ [evt] /\
      m_running (logEvent evt st) = m_running st /\
      disk (logEvent evt st) = disk st /\
      opens (logEvent evt st) = opens st) /\
  (forall s evt,
      owner s <> C_Destroyed -> owner s <> C_Aborted ->
      step (A_Log evt) s
      = Some (mkSys (logEvent evt (store s)) (m_flushThread s) (owner s))) /\
  (forall s sched s1,
      owner s = C_Idle -> m_running (store s) = false ->
      m_flushThread s = FT_None -> no_calls sched = true ->
      exec sched s = Some s1 ->
      m_eventQueue (store s1) = m_eventQueue (store s) ++ logged sched /\
      disk (store s1) = disk (store s) /\
      opens (store s1) = opens (store s) /\
      disk (flushToDisk true (store s1))
      = disk (store s) +++ render (m_eventQueue (store s) ++ logged sched)).
Proof.
  split; [|split].
  - intros st evt. repeat split.
  - intros s evt Hd Ha. cbn [step]. unfold log_step.
    destruct (owner s); try reflexivity; congruence.
  - intros s sched s1 Ho Hr Hft Hc Hex.
    destruct (stopped_frame sched s s1 Hc Hr Hft) as [Hs _];
      [now rewrite Ho | exact Hex |].
    rewrite Hs, logEvents_queue. cbn [m_eventQueue set_queue disk opens].
    repeat split.
    unfold flushToDisk. rewrite drain_locked_all.
    now rewrite disk_write_batch_ok.
Qed.

Lemma logEvent_buffers_witness :
  step (A_Log click) running_logger
  = Some (mkSys (logEvent click (store running_logger))
                (m_flushThread running_logger) (owner running_logger)) /\
  m_eventQueue (store (final_state [A_Log key_q; A_Tick; A_Log click] tracker_logger))
  = [key_q; click].
Proof.
  destruct logEvent_buffers_in_any_state as [_ [H1 H2]]. split.
  - apply H1; discriminate.
  - apply (H2 tracker_logger [A_Log key_q; A_Tick; A_Log click]); reflexivity.
Defined.

(** ** The destructor *)

(** C10 (amended): destroying a running logger goes through [stop]:
    destruction completes only with the flag cleared and the flush thread
    joined, after the final drain, and, provided the opens for appending
    made on the way succeed, with the records of every event buffered at
    destruction time appended to the file; such a completion exists.
    Destroying a stopped logger takes two steps that leave the store as it
    is: nothing is drained, nothing is opened, nothing is written. *)
Theorem destructor_stops_running_logger (s : Sys) :
  wf s = true -> owner s = C_Idle ->
  (m_running (store s) = true ->
   (exists s1, exec (dtor_schedule (m_flushThread s)) s = Some s1 /\
               owner s1 = C_Destroyed) /\
   (forall sched s1,
       no_calls sched = true ->
       exec (A_Call M_dtor :: sched) s = Some s1 ->
       owner s1 = C_Destroyed ->
       m_running (store s1) = false /\ m_flushThread s1 = FT_None /\
       exists later,
         logged sched = later ++ m_eventQueue (store s1) /\
         (opens_ok sched = true ->
          disk (store s1) = disk (store s) +++ render (pending s ++ later)))) /\
  (m_running (store s) = false ->
   (forall ok1 ok2,
       exec [A_Call M_dtor; A_Owner ok1; A_Owner ok2] s
       = Some (mkSys (store s) FT_None C_Destroyed)) /\
   (forall sched s1,
       no_calls sched = true ->
       exec (A_Call M_dtor :: sched) s = Some s1 ->
       store s1 = logEvents (logged sched) (store s))).
Proof.
  intros Hwf Ho. split; intros Hr.
  - split; [now apply dtor_returns|].
    intros sched s1 Hc Hex Hend.
    apply (shutdown_outcome s s1 M_dtor sched Hwf Ho Hr (or_intror eq_refl)
             Hc Hex (or_intror Hend)).
  - assert (Hft : m_flushThread s = FT_None).
    { unfold wf in Hwf. rewrite Ho, Hr in Hwf.
      now destruct (m_flushThread s). }
    destruct s as [st ft pc]. cbn [store m_flushThread owner] in *. subst.
    split.
    + intros ok1 ok2. run_steps. rewrite Hr. run_steps. reflexivity.
    + intros sched s1 Hc Hex.
      cbn [exec step] in Hex. unfold call_step in Hex.
      cbn [owner store m_flushThread] in Hex.
      now destruct (stopped_frame sched (mkSys st FT_None C_Dtor_Check) s1
                      Hc Hr eq_refl eq_refl Hex).
Qed.

Lemma destructor_stops_running_logger_witness :
  wf running_logger = true /\ owner running_logger = C_Idle /\
  m_running (store running_logger) = true /\
  no_calls (A_Owner true :: shutdown_steps true ++ [A_Owner true]) = true /\
  opens_ok (A_Owner true :: shutdown_steps true ++ [A_Owner true]) = true /\
  owner (final_state (A_Call M_dtor :: A_Owner true :: shutdown_steps true
                        ++ [A_Owner true]) running_logger) = C_Destroyed /\
  exists later,
    disk (store (final_state (A_Call M_dtor :: A_Owner true :: shutdown_steps true
                                ++ [A_Owner true]) running_logger))
    = disk (store running_logger) +++ render (pending running_logger ++ later).
Proof.
  repeat (split; [reflexivity|]).
  destruct (destructor_stops_running_logger running_logger eq_refl eq_refl)
    as [H _].
  destruct (H eq_refl) as [_ H1].
  destruct (H1 (A_Owner true :: shutdown_steps true ++ [A_Owner true])
               (final_state (A_Call M_dtor :: A_Owner true :: shutdown_steps true
                               ++ [A_Owner true]) running_logger)
               eq_refl eq_refl eq_refl) as [_ [_ [later [_ Hd]]]].
  exists later. exact (Hd eq_refl).
Defined.

(** C10 as stated fails: the key press is buffered when the running logger
    is destroyed; the open for appending of the final flush fails; the
    destruction completes with the record absent from the file. *)
Lemma destructor_loses_batch_when_append_fails :
  In key_q (pending running_logger) /\
  m_running (store running_logger) = true /\
  (exists s1,
      exec (A_Call M_dtor :: A_Owner true :: shutdown_steps false
              ++ [A_Owner true]) running_logger = Some s1 /\
      owner s1 = C_Destroyed /\
      disk (store s1) = csv_header /\
      on_disk key_q s1 = false) /\
  ~ (forall sched s1,
        no_calls sched = true ->
        exec (A_Call M_dtor :: sched) running_logger = Some s1 ->
        owner s1 = C_Destroyed ->
        forall evt, In evt (pending running_logger) -> on_disk evt s1 = true).
Proof.
  split; [left; reflexivity|]. split; [reflexivity|]. split.
  - eexists. split; [reflexivity|]. repeat split.
  - intros H.
    specialize (H (A_Owner true :: shutdown_steps false ++ [A_Owner true]) _
                  eq_refl eq_refl eq_refl key_q (or_introl eq_refl)).
    discriminate H.
Qed.

(** ** The sleep of the flush thread *)

(** Without a tick a sleeping thread stays asleep, and a [stop] waiting
    for it stays in [join()]. *)
Lemma asleep_without_ticks (sched : list Action) :
  forall (s s' : Sys) (n : nat),
    no_ticks sched = true -> m_flushThread s = FT_Sleep (S n) ->
    exec sched s = Some s' ->
    m_flushThread s' = FT_Sleep (S n) /\
    (forall k, owner s = C_Stop_Join k -> owner s' = C_Stop_Join k) /\
    (forall k, owner s = C_Stop_Join k -> store s' = logEvents (logged sched) (store s)).
Proof.
  induction sched as [|a rest IH]; intros s s' n Hnt Hft Hex.
  - cbn in Hex. injection Hex as <-. repeat split; auto.
  - cbn [exec] in Hex. destruct (step a s) as [s1|] eqn:E; [|discriminate].
    cbn [no_ticks forallb] in Hnt. apply andb_true_iff in Hnt as [Ha Hrest].
    destruct s as [st ft pc]. cbn [store m_flushThread owner] in *. subst ft.
    assert (G : m_flushThread s1 = FT_Sleep (S n) /\
                (forall k, pc = C_Stop_Join k ->
                           owner s1 = C_Stop_Join k /\
                           store s1 = logEvents (logged [a]) st)).
    { destruct a as [m|ok|ok|evt|]; try discriminate Ha;
        unfold step, call_step, owner_step, flush_step, log_step in E;
        cbn [store m_flushThread owner joinable] in E;
        rewrite ?drain_locked_all in E;
        destruct pc; try discriminate E;
        repeat match type of E with
               | context [if ?b then _ else _] => destruct b
               end;
        injection E as <-; (split; [reflexivity|]);
        intros k' Hk; try discriminate Hk;
        injection Hk as <-; split; reflexivity. }
    destruct G as [Hft1 Hk1].
    destruct (IH s1 s' n Hrest Hft1 Hex) as [Hf [Ho Hs]].
    split; [exact Hf|]. split.
    + intros k Hk. destruct (Hk1 k Hk) as [Hk' _]. now apply Ho.
    + intros k Hk. destruct (Hk1 k Hk) as [Hk' Hst].
      rewrite (Hs k Hk'), Hst. change (a :: rest) with ([a] ++ rest).
      rewrite logged_app. unfold logEvents. now rewrite fold_left_app.
Qed.

(** Once the flag is cleared in [stop], the flush thread never starts a
    drain whose poll it has not already passed. *)
Lemma quiet_after_signal (sched : list Action) :
  forall s s' : Sys,
    no_calls sched = true -> m_running (store s) = false ->
    past_signal (owner s) = true -> flush_quiet (m_flushThread s) = true ->
    exec sched s = Some s' ->
    m_running (store s') = false /\ flush_quiet (m_flushThread s') = true.
Proof.
  induction sched as [|a rest IH]; intros s s' Hc Hr Hp Hq Hex.
  - cbn in Hex. injection Hex as <-. now split.
  - cbn [exec] in Hex. destruct (step a s) as [s1|] eqn:E; [|discriminate].
    cbn [no_calls forallb] in Hc. apply andb_true_iff in Hc as [Ha Hrest].
    destruct s as [st ft pc]. cbn [store m_flushThread owner] in *.
    assert (G : m_running (store s1) = false /\ past_signal (owner s1) = true /\
                flush_quiet (m_flushThread s1) = true).
    { destruct a as [m|ok|ok|evt|]; try discriminate Ha;
        unfold step, owner_step, flush_step, log_step, tick in E;
        cbn [store m_flushThread owner joinable] in E;
        rewrite ?drain_locked_all in E;
        destruct pc; try discriminate Hp;
        destruct ft as [| |[|n]| | |buf|]; try discriminate Hq;
        try discriminate E; rewrite ?Hr in E; cbn [negb] in E;
        injection E as <-; cbn [store m_flushThread owner];
        rewrite ?running_write_batch;
        repeat match goal with k : StopCaller |- _ => destruct k end;
        repeat split; assumption || reflexivity. }
    destruct G as [Hr1 [Hp1 Hq1]]. now apply (IH s1 s').
Qed.

(** C3 (amended): the wait of the flush loop is a fixed sleep that the
    stop signal does not interrupt.  With the flag cleared by [stop] and the
    thread asleep with [n] seconds left: as long as no time passes the
    thread stays asleep and [stop] stays blocked in the join, whatever else
    runs; once the [n] seconds have passed the thread wakes, polls the flag
    and returns, the store untouched; and whatever the interleaving, a
    thread that has not already passed its poll never drains again. *)
Theorem flush_loop_polls_flag_after_full_sleep (s : Sys) (k : StopCaller) :
  m_running (store s) = false -> owner s = C_Stop_Join k ->
  flush_quiet (m_flushThread s) = true ->
  (forall sched s',
      no_calls sched = true -> exec sched s = Some s' ->
      m_running (store s') = false /\ flush_quiet (m_flushThread s') = true) /\
  (forall n,
      m_flushThread s = FT_Sleep n ->
      (forall sched s',
          (0 < n)%nat -> no_ticks sched = true -> exec sched s = Some s' ->
          m_flushThread s' = FT_Sleep n /\ owner s' = C_Stop_Join k /\
          disk (store s') = disk (store s)) /\
      (forall ok1 ok2,
          exec (repeat A_Tick n ++ [A_Flush ok1; A_Flush ok2]) s
          = Some (mkSys (store s) FT_Exited (owner s)))).
Proof.
  intros Hr Ho Hq. split.
  - intros sched s' Hc Hex.
    apply (quiet_after_signal sched s s' Hc Hr); [now rewrite Ho | exact Hq | exact Hex].
  - intros n Hft. split.
    + intros sched s' Hn Hnt Hex. destruct n as [|n]; [lia|].
      destruct (asleep_without_ticks sched s s' n Hnt Hft Hex) as [H1 [H2 H3]].
      split; [exact H1|]. split; [now apply H2|].
      rewrite (H3 k Ho), logEvents_queue. reflexivity.
    + intros ok1 ok2. destruct s as [st ft pc].
      cbn [store m_flushThread owner] in *. subst ft.
      rewrite exec_ticks. run_steps. rewrite Hr. reflexivity.
Qed.

Lemma flush_loop_polls_flag_witness :
  m_running (store signalled_logger) = false /\
  owner signalled_logger = C_Stop_Join ByUser /\
  flush_quiet (m_flushThread signalled_logger) = true /\
  m_flushThread (final_state [A_Log click; A_Log key_q] signalled_logger)
  = FT_Sleep 60 /\
  exec (repeat A_Tick 60 ++ [A_Flush true; A_Flush true]) signalled_logger
  = Some (mkSys (store signalled_logger) FT_Exited (owner signalled_logger)).
Proof.
  split; [reflexivity|]. split; [reflexivity|]. split; [reflexivity|].
  destruct (flush_loop_polls_flag_after_full_sleep signalled_logger ByUser
              eq_refl eq_refl eq_refl) as [_ H].
  destruct (H 60%nat eq_refl) as [H1 H2].
  split; [|exact (H2 true true)].
  apply (H1 [A_Log click; A_Log key_q]); [lia | reflexivity | reflexivity].
Defined.

(** C3 as stated fails: in the sample session, once [stop] has cleared the
    flag, neither the sleeping flush thread nor the owner waiting in the
    join can take a step; no schedule in which time stands still changes
    that; after 59 of the 60 seconds the thread is still asleep. *)
Lemma sleeping_thread_outlasts_signal :
  exec [A_Call M_stop; A_Owner true; A_Owner true] running_logger
  = Some signalled_logger /\
  m_running (store signalled_logger) = false /\
  flush_step true signalled_logger = None /\
  owner_step true signalled_logger = None /\
  (forall sched s',
      no_ticks sched = true -> exec sched signalled_logger = Some s' ->
      m_flushThread s' = FT_Sleep 60 /\ owner s' = C_Stop_Join ByUser) /\
  flush_step true (final_state (repeat A_Tick 59) signalled_logger) = None.
Proof.
  repeat (split; [reflexivity|]). split; [|reflexivity].
  intros sched s' Hnt Hex.
  destruct (asleep_without_ticks sched signalled_logger s' 59 Hnt eq_refl Hex)
    as [H1 [H2 _]].
  split; [exact H1 | now apply H2].
Qed.

(** ** [start] *)

Lemma start_runs (ok : bool) (s : Sys) :
  wf s = true -> owner s = C_Idle -> m_running (store s) = false ->
  exec (start_schedule ok) s
  = Some (mkSys (open_truncate ok (set_running true (store s)))
                FT_LoopHead C_Idle).
Proof.
  intros Hwf Ho Hr.
  assert (Hft : m_flushThread s = FT_None).
  { unfold wf in Hwf. rewrite Ho, Hr in Hwf. now destruct (m_flushThread s). }
  destruct s as [st ft pc]. cbn [store m_flushThread owner] in *. subst.
  unfold start_schedule. run_steps. rewrite Hr. run_steps. reflexivity.
Qed.

(** C2 (amended): [start] has no failure path.  Called on a stopped logger
    when the file cannot be created or truncated, it returns normally with
    the running flag set and the flush thread launched; the header is not
    written, the file is as it was, and nothing is reported on
    [std::cerr]. *)
Theorem start_ignores_open_failure (s : Sys) :
  wf s = true -> owner s = C_Idle -> m_running (store s) = false ->
  exists s1,
    exec (start_schedule false) s = Some s1 /\
    owner s1 = C_Idle /\
    m_running (store s1) = true /\
    m_flushThread s1 = FT_LoopHead /\
    disk (store s1) = disk (store s) /\
    cerr (store s1) = cerr (store s) /\
    opens (store s1) = opens (store s) ++ [(OpenTrunc, false)].
Proof.
  intros Hwf Ho Hr. eexists. split; [now apply start_runs|].
  repeat split.
Qed.

Lemma start_ignores_open_failure_witness :
  wf tracker_logger = true /\ owner tracker_logger = C_Idle /\
  m_running (store tracker_logger) = false /\
  exists s1,
    exec (start_schedule false) tracker_logger = Some s1 /\
    owner s1 = C_Idle /\
    m_running (store s1) = true /\
    m_flushThread s1 = FT_LoopHead /\
    disk (store s1) = disk (store tracker_logger) /\
    cerr (store s1) = cerr (store tracker_logger) /\
    opens (store s1) = opens (store tracker_logger) ++ [(OpenTrunc, false)].
Proof.
  repeat (split; [reflexivity|]).
  exact (start_ignores_open_failure tracker_logger eq_refl eq_refl eq_refl).
Defined.

(** C2 as stated fails: the tracker's logger is started while its file
    cannot be opened; [start] returns to its caller, the logger is running
    and its flush thread exists. *)
Lemma start_runs_despite_open_failure :
  m_running (store tracker_logger) = false /\
  exists s1,
    exec (start_schedule false) tracker_logger = Some s1 /\
    owner s1 = C_Idle /\
    m_running (store s1) = true /\
    m_flushThread s1 = FT_LoopHead /\
    cerr (store s1) = [].
Proof.
  split; [reflexivity|]. eexists. split; [reflexivity|]. repeat split.
Qed.

(** C5: [start] on a running logger and [stop] on a stopped one consist of
    the flag check alone and give back the very state they were called in:
    same file and no open of it (so no truncation, no header, no write),
    same flush thread (none launched, none joined), same queue. *)
Theorem start_stop_idempotent (s : Sys) (ok : bool) :
  owner s = C_Idle ->
  (m_running (store s) = true ->
   exec [A_Call M_start; A_Owner ok] s = Some s) /\
  (m_running (store s) = false ->
   exec [A_Call M_stop; A_Owner ok] s = Some s).
Proof.
  destruct s as [st ft pc]. cbn [store owner]. intros ->.
  split; intros Hr; run_steps; rewrite Hr; reflexivity.
Qed.

Lemma start_stop_idempotent_witness :
  owner running_logger = C_Idle /\ m_running (store running_logger) = true /\
  exec [A_Call M_start; A_Owner true] running_logger = Some running_logger /\
  owner tracker_logger = C_Idle /\ m_running (store tracker_logger) = false /\
  exec [A_Call M_stop; A_Owner true] tracker_logger = Some tracker_logger.
Proof.
  split; [reflexivity|]. split; [reflexivity|].
  split; [exact (proj1 (start_stop_idempotent running_logger true eq_refl)
                       eq_refl)|].
  split; [reflexivity|]. split; [reflexivity|].
  exact (proj2 (start_stop_idempotent tracker_logger true eq_refl) eq_refl).
Defined.

(** ** The drain-and-append cycle *)

(** The two steps of the flush thread through [flushToDisk], nobody in
    between, are [flushToDisk]. *)
Lemma flush_cycle (o ok : bool) (st : Store) (pc : OwnerPc) :
  exec [A_Flush o; A_Flush ok] (mkSys st FT_Drain pc)
  = Some (mkSys (flushToDisk ok st) FT_LoopHead pc).
Proof.
  run_steps. unfold flushToDisk. rewrite drain_locked_all.
  run_steps. reflexivity.
Qed.

(** The same for the final flush of [stop]. *)
Lemma final_flush_cycle (o ok : bool) (st : Store) (ft : FlushPc)
      (k : StopCaller) :
  exec [A_Owner o; A_Owner ok] (mkSys st ft (C_Stop_Drain k))
  = Some (mkSys (flushToDisk ok st) ft (stop_return k)).
Proof.
  run_steps. unfold flushToDisk. rewrite drain_locked_all.
  run_steps. reflexivity.
Qed.




(** C8: a cycle whose drain finds nothing returns at once.  The store it
    leaves is the store it found: same file contents and no attempt to open
    the file, whether or not an open would have succeeded; this holds for
    the cycles of the flush thread and for the final flush of [stop]. *)
Theorem empty_drain_leaves_file_alone (st : Store) (ok : bool) :
  fst (drainAll (m_eventQueue st)) = [] ->
  flushToDisk ok st = st /\
  disk (flushToDisk ok st) = disk st /\
  opens (flushToDisk ok st) = opens st /\
  (forall o pc,
      exec [A_Flush o; A_Flush ok] (mkSys st FT_Drain pc)
      = Some (mkSys st FT_LoopHead pc)) /\
  (forall o ft k,
      exec [A_Owner o; A_Owner ok] (mkSys st ft (C_Stop_Drain k))
      = Some (mkSys st ft (stop_return k))).
Proof.
  rewrite drainAll_all. cbn [fst]. intros Hq.
  assert (E : flushToDisk ok st = st).
  { unfold flushToDisk. rewrite drain_locked_all, Hq. cbn.
    rewrite <- Hq. apply set_queue_same. }
  split; [exact E|]. rewrite E. repeat split.
  - intros o pc. now rewrite flush_cycle, E.
  - intros o ft k. now rewrite final_flush_cycle, E.
Qed.

Lemma empty_drain_witness :
  fst (drainAll (m_eventQueue (store tracker_logger))) = [] /\
  flushToDisk false (store tracker_logger) = store tracker_logger /\
  opens (flushToDisk true (store tracker_logger)) = [].
Proof.
  split; [reflexivity|]. split.
  - exact (proj1 (empty_drain_leaves_file_alone (store tracker_logger) false
                    eq_refl)).
  - exact (proj1 (proj2 (proj2 (empty_drain_leaves_file_alone
                                  (store tracker_logger) true eq_refl)))).
Defined.

(** ** The format of the file *)

Lemma csv_record_fields (evt : InputEvent) :
  csv_record evt = String.concat "," (csv_fields evt) +++ nl.
Proof.
  unfold csv_record, csv_fields. cbn [String.concat].
  now rewrite !sapp_assoc.
Qed.

Lemma csv_line_reads_back (evt : InputEvent) :
  plain_tag (eventType evt) = true ->
  has_char newline (String.concat "," (csv_fields evt)) = false /\
  split_on comma (String.concat "," (csv_fields evt)) = csv_fields evt.
Proof.
  unfold plain_tag. intros H. apply andb_true_iff in H as [Hc Hn].
  apply negb_true_iff in Hc, Hn.
  unfold csv_fields. cbn [String.concat]. split.
  - rewrite !has_char_app, !dec_no_newline, Hn. reflexivity.
  - change ("," +++ ?s) with (String comma s).
    rewrite (split_on_field comma _ _ (dec_no_comma _)).
    change ("," +++ ?s) with (String comma s).
    rewrite (split_on_field comma _ _ Hc).
    change ("," +++ ?s) with (String comma s).
    rewrite (split_on_field comma _ _ (dec_no_comma _)).
    change ("," +++ ?s) with (String comma s).
    rewrite (split_on_field comma _ _ (dec_no_comma _)).
    now rewrite (split_on_plain comma _ (dec_no_comma _)).
Qed.

(** ** What the producers hand over *)

Lemma poller_cons (g : TrackerConfig) (cursor : option POINT) (time : Z)
      (rest : list (TrackerConfig * option POINT * Z)) (pc : PollPc) :
  cursorPollingThread ((g, cursor, time) :: rest) pc
  = (fst (cursorPollingThread rest (fst (cursorPoll g cursor time pc))),
     match snd (cursorPoll g cursor time pc) with
     | Some evt =>
         evt :: snd (cursorPollingThread rest (fst (cursorPoll g cursor time pc)))
     | None => snd (cursorPollingThread rest (fst (cursorPoll g cursor time pc)))
     end).
Proof.
  cbn [cursorPollingThread].
  destruct (cursorPoll g cursor time pc) as [pc1 out].
  cbn [fst snd]. now destruct (cursorPollingThread rest pc1).
Qed.

(** A polling thread hands over nothing but the events it has built from a
    cursor position and a time. *)
Lemma poller_hands_poll_events (steps : list (TrackerConfig * option POINT * Z)) :
  forall pc : PollPc,
    (forall e, pc = P_Log e -> exists time pt, e = cursorPollEvent time pt) ->
    forall evt, In evt (snd (cursorPollingThread steps pc)) ->
                exists time pt, evt = cursorPollEvent time pt.
Proof.
  induction steps as [|[[g cursor] time] rest IH]; intros pc Hpc evt Hin.
  - contradiction.
  - rewrite poller_cons in Hin. cbn [snd] in Hin.
    destruct pc as [| |e| |]; cbn [cursorPoll fst snd] in Hin.
    + apply (IH (if isRunning g then P_Cursor else P_Exited)); [|exact Hin].
      intros e He. destruct (isRunning g); discriminate He.
    + destruct cursor as [pt|]; cbn [fst snd] in Hin.
      * apply (IH (P_Log (cursorPollEvent time pt))); [|exact Hin].
        intros e He. injection He as <-. now exists time, pt.
      * apply (IH P_Sleep); [intros e He; discriminate He | exact Hin].
    + destruct Hin as [<- | Hin]; [now apply Hpc|].
      apply (IH P_Sleep); [intros e' He; discriminate He | exact Hin].
    + apply (IH P_Test); [intros e He; discriminate He | exact Hin].
    + apply (IH P_Exited); [intros e He; discriminate He | exact Hin].
Qed.

(** The mouse hook hands over only while the tracker runs, and what it
    hands over is built with one of its four tags from the time and the
    position it was given. *)
Lemma mouse_hook_event (K : Win32) (g : TrackerConfig)
      (nCode wParam time : Z) (pt : POINT) (evt : InputEvent) :
  LowLevelMouseProc K g nCode wParam time pt = Some evt ->
  isRunning g = true /\
  exists tag, evt = mouseHookEvent tag time pt /\
              In tag ["MOUSE_LEFT_DOWN"; "MOUSE_LEFT_UP";
                      "MOUSE_RIGHT_DOWN"; "MOUSE_RIGHT_UP"].
Proof.
  unfold LowLevelMouseProc. intros H.
  destruct (nCode >=? 0)%Z; [|discriminate H].
  destruct (isRunning g); [|discriminate H]. cbn [andb] in H.
  split; [reflexivity|].
  repeat match type of H with
         | context [if ?b then _ else _] => destruct b
         end;
    try discriminate H; injection H as <-;
    eexists; (split; [reflexivity|]); simpl; auto.
Qed.

(** C6: a [start] whose open succeeds leaves in the file exactly the header
    line, the text [timestamp_ms,event_type,x,y,key_code] followed by a
    line feed, whatever the file held before, after a single truncating
    open.  A flush whose open succeeds appends the records of its batch in
    order, one per event.  A record is the five fields timestamp, tag, x,
    y and key code, in that order, separated by commas and ended by a line
    feed; the four numeric fields are decimal integers that read back as
    the values of the event; the events the mouse hook and the polling
    thread hand over carry key code 0, those of the keyboard hook the code
    of the key; and when the tag holds no comma and no line feed,
    splitting the line at its commas gives back the five fields. *)
Theorem header_and_record_format (s : Sys) (st : Store)
        (localBuffer : list InputEvent) (evt : InputEvent) :
  wf s = true -> owner s = C_Idle -> m_running (store s) = false ->
  (exists s1,
      exec (start_schedule true) s = Some s1 /\
      owner s1 = C_Idle /\
      disk (store s1)
      = "timestamp_ms,event_type,x,y,key_code" +++ String "010"%char "" /\
      opens (store s1) = opens (store s) ++ [(OpenTrunc, true)]) /\
  disk (write_batch true localBuffer st)
  = disk st +++ String.concat "" (map csv_record localBuffer) /\
  csv_record evt
  = String.concat "," [dec (timestamp evt); eventType evt;
                       dec (x (mousePos evt)); dec (y (mousePos evt));
                       dec (keyCode evt)] +++ String "010"%char "" /\
  map read_dec [dec (timestamp evt); dec (x (mousePos evt));
                dec (y (mousePos evt)); dec (keyCode evt)]
  = [Some (timestamp evt); Some (x (mousePos evt));
     Some (y (mousePos evt)); Some (keyCode evt)] /\
  (forall K g nCode wParam time pt e,
      LowLevelMouseProc K g nCode wParam time pt = Some e ->
      keyCode e = 0 /\ nth 4 (csv_fields e) "" = "0") /\
  (forall steps e,
      In e (snd (cursorPollingThread steps P_Test)) ->
      keyCode e = 0 /\ nth 4 (csv_fields e) "" = "0") /\
  (forall K g nCode wParam vkCode time pt e,
      LowLevelKeyboardProc K g nCode wParam vkCode time pt = Some e ->
      keyCode e = vkCode /\ nth 4 (csv_fields e) "" = dec vkCode) /\
  forallb plain_tag producer_tags = true /\
  (InputEvent_in_range evt ->
   all_chars digit_char (dec (timestamp evt)) = true /\
   all_chars digit_char (dec (keyCode evt)) = true) /\
  (plain_tag (eventType evt) = true ->
   has_char "010"%char (String.concat "," (csv_fields evt)) = false /\
   split_on ","%char (String.concat "," (csv_fields evt)) = csv_fields evt).
Proof.
  intros Hwf Ho Hr.
  split; [|split; [|split; [|split; [|split; [|split; [|split; [|split;
    [|split]]]]]]]].
  - eexists. split; [now apply start_runs|]. repeat split.
  - apply disk_write_batch_ok.
  - apply csv_record_fields.
  - cbn [map]. now rewrite !read_dec_dec.
  - intros K g nCode wParam time pt e H.
    destruct (mouse_hook_event K g nCode wParam time pt e H)
      as [_ [tag [-> _]]].
    split; reflexivity.
  - intros steps e H.
    assert (H0 : forall e0, P_Test = P_Log e0 ->
                            exists time pt, e0 = cursorPollEvent time pt)
      by (intros e0 He; discriminate He).
    destruct (poller_hands_poll_events steps P_Test H0 e H) as [time [pt ->]].
    split; reflexivity.
  - intros K g nCode wParam vkCode time pt e H.
    unfold LowLevelKeyboardProc in H.
    repeat match type of H with
           | context [if ?b then _ else _] => destruct b
           end;
      try discriminate H; injection H as <-; split; reflexivity.
  - reflexivity.
  - intros [[Ht _] [_ [_ [Hk _]]]]. split; now apply dec_unsigned_digits.
  - apply csv_line_reads_back.
Qed.

Lemma header_and_record_format_witness :
  wf tracker_logger = true /\ owner tracker_logger = C_Idle /\
  m_running (store tracker_logger) = false /\
  plain_tag (eventType key_q) = true /\
  (exists s1, exec (start_schedule true) tracker_logger = Some s1 /\
              disk (store s1)
              = "timestamp_ms,event_type,x,y,key_code" +++ String "010"%char "") /\
  csv_record key_q = "100,KEY_DOWN,5,9,81" +++ String "010"%char "" /\
  split_on ","%char "100,KEY_DOWN,5,9,81" = ["100"; "KEY_DOWN"; "5"; "9"; "81"] /\
  all_chars digit_char (dec (timestamp key_q)) = true /\
  all_chars digit_char (dec (keyCode key_q)) = true.
Proof.
  split; [reflexivity|]. split; [reflexivity|]. split; [reflexivity|].
  split; [reflexivity|].
  destruct (header_and_record_format tracker_logger (store tracker_logger)
              [key_q] key_q eq_refl eq_refl eq_refl)
    as [[s1 [H1 [_ [H2 _]]]] [_ [H3 [_ [_ [_ [_ [_ [H4 H5]]]]]]]]].
  split; [exists s1; split; assumption|].
  split; [exact H3|].
  split; [exact (proj2 (H5 eq_refl))|].
  apply H4. unfold InputEvent_in_range, DWORD_range, LONG_range. cbn. lia.
Defined.

(** ** A whole session *)

(** A logger on [test.csv] with a flush interval of one second is started,
    a key press is logged, the second passes and the flush thread runs its
    cycle: the file, whatever it held, is the header followed by the record
    of the key press. *)
Example periodic_flush_session :
  exists s1,
    exec (start_schedule true ++
          [A_Flush true; A_Log key_q; A_Tick;
           A_Flush true; A_Flush true; A_Flush true; A_Flush true])
         (fresh "test.csv" 1 "" "left over") = Some s1 /\
    disk (store s1)
    = "timestamp_ms,event_type,x,y,key_code" +++ nl +++
      "100,KEY_DOWN,5,9,81" +++ nl /\
    m_eventQueue (store s1) = [] /\
    m_flushThread s1 = FT_LoopHead.
Proof. eexists. split; [reflexivity|]. repeat split. Qed.

(** A batch written while the flush thread is between its poll and its
    write is not lost by a concurrent [stop]: the thread finishes its
    cycle, [stop] joins it and flushes what was logged meanwhile. *)
Example stop_during_cycle :
  exists s1,
    exec [A_Tick; A_Flush true; A_Flush true;
          A_Call M_stop; A_Owner true; A_Owner true;
          A_Flush true; A_Log click; A_Flush true; A_Flush true;
          A_Owner true; A_Owner true; A_Owner true]
         (mkSys (store running_logger) (FT_Sleep 1) C_Idle) = Some s1 /\
    owner s1 = C_Idle /\
    disk (store s1) = csv_header +++ csv_record key_q +++ csv_record click.
Proof. eexists. split; [reflexivity|]. repeat split. Qed.

(* ================================================================== *)
(** * Further properties of the logger *)

(** ** The footprint of a step *)

Lemma step_store_op (a : Action) (s s' : Sys) :
  step a s = Some s' -> store_op (store s) (store s').
Proof.
  destruct s as [st ft pc]. intros H.
  destruct a as [m|ok|ok|evt|];
    unfold step, call_step, owner_step, flush_step, log_step, tick in H;
    cbn [store m_flushThread owner] in H;
    rewrite ?drain_locked_all in H.
  - destruct pc; try discriminate H. injection H as <-. constructor.
  - destruct pc; try discriminate H;
      repeat match type of H with
             | context [if ?b then _ else _] => destruct b
             | context [match ?f with FT_None => _ | _ => _ end] => destruct f
             end;
      try discriminate H; injection H as <-; cbn [store]; constructor.
  - destruct ft as [| |[|n]| | |buf|]; try discriminate H;
      repeat match type of H with
             | context [if ?b then _ else _] => destruct b
             end;
      injection H as <-; cbn [store]; constructor.
  - destruct pc; try discriminate H; injection H as <-; constructor.
  - injection H as <-. destruct ft as [| |[|n]| | | |]; constructor.
Qed.

(** No step changes the name of the file or the flush interval. *)
Lemma store_op_config (st st' : Store) :
  store_op st st' ->
  m_filename st' = m_filename st /\
  m_flushIntervalSec st' = m_flushIntervalSec st.
Proof.
  intros H. destruct H as [st|evt st|b st|ok st|st|ok buf st];
    try (split; reflexivity).
  - destruct ok; split; reflexivity.
  - destruct ok, buf; split; reflexivity.
Qed.

(** ** The file grows in the order of the queue *)

Lemma kept_of_refl (W : list InputEvent) : kept_of W W.
Proof. induction W; constructor; assumption. Qed.

Lemma kept_of_none (W : list InputEvent) : kept_of [] W.
Proof. induction W; constructor; assumption. Qed.

Lemma kept_of_app (D1 W1 D2 W2 : list InputEvent) :
  kept_of D1 W1 -> kept_of D2 W2 -> kept_of (D1 ++ D2) (W1 ++ W2).
Proof.
  intros H1 H2. induction H1; simpl; [exact H2 | |]; constructor; assumption.
Qed.

Lemma kept_of_length (D W : list InputEvent) :
  kept_of D W -> (List.length D <= List.length W)%nat.
Proof. intros H. induction H; simpl; lia. Qed.

Lemma disk_write_batch_failed (buf : list InputEvent) (st : Store) :
  disk (write_batch false buf st) = disk st.
Proof. unfold write_batch. now destruct buf. Qed.

Section FifoOrder.

Variables base disk0 : string.
Variable P0 : list InputEvent.

Lemma extends_write (allok ok : bool) (st : Store) (W buf : list InputEvent) :
  written base disk0 allok st W ->
  written base disk0 (allok && ok) (write_batch ok buf st) (W ++ buf).
Proof.
  intros [D [Hk [Hall [b [Hd Hb]]]]]. destruct ok.
  - exists (D ++ buf). rewrite andb_true_r.
    split; [apply kept_of_app; [exact Hk | apply kept_of_refl]|].
    split; [intros E; now rewrite (Hall E)|].
    exists b. split; [|exact Hb].
    now rewrite disk_write_batch_ok, Hd, render_app, sapp_assoc.
  - exists D. rewrite andb_false_r.
    split.
    { rewrite <- (app_nil_r D). apply kept_of_app; [exact Hk | apply kept_of_none]. }
    split; [discriminate|].
    exists b. split; [now rewrite disk_write_batch_failed|].
    destruct Hb as [Hb | [_ Hb]]; [now left | now right].
Qed.

Lemma extends_weaken (a b : bool) (st : Store) (W : list InputEvent) :
  written base disk0 a st W -> written base disk0 (a && b) st W.
Proof.
  intros [D [Hk [Hall [b0 [Hd Hb]]]]]. exists D. split; [exact Hk|].
  split; [intros E; apply andb_true_iff in E as [E _]; auto|].
  exists b0. split; [exact Hd|].
  destruct Hb as [Hb | [Ha Hb]]; [now left | right]. now rewrite Ha.
Qed.

Lemma written_trunc (allok ok : bool) (st : Store) :
  base = csv_header -> disk st = disk0 ->
  written base disk0 (allok && ok) (open_truncate ok st) [].
Proof.
  intros Hb Hd. exists []. split; [constructor|]. split; [reflexivity|].
  destruct ok.
  - exists base. split; [|now left]. subst base.
    change (render []) with "". now rewrite sapp_nil_r.
  - exists disk0. rewrite andb_false_r. split; [|now right].
    change (render []) with "". now rewrite sapp_nil_r.
Qed.

Lemma written_log (allok : bool) (evt : InputEvent) (st : Store)
      (W : list InputEvent) :
  written base disk0 allok st W -> written base disk0 allok (logEvent evt st) W.
Proof. intros H. exact H. Qed.

Lemma fifo_inv_tick (s : Sys) (h : list InputEvent) (allok : bool) :
  fifo_inv base disk0 P0 h allok s -> fifo_inv base disk0 P0 h allok (tick s).
Proof.
  intros [Hwf H]. split; [now apply (wf_step A_Tick s)|].
  destruct s as [st ft pc]. unfold tick. cbn [m_flushThread store owner].
  destruct ft as [| |[|n]| | | |]; exact H.
Qed.

Lemma fifo_inv_log (s s' : Sys) (h : list InputEvent) (allok : bool)
      (evt : InputEvent) :
  fifo_inv base disk0 P0 h allok s -> log_step evt s = Some s' ->
  fifo_inv base disk0 P0 (h ++ [evt]) allok s'.
Proof.
  intros [Hwf H] Hstep. split; [now apply (wf_step (A_Log evt) s)|].
  destruct s as [st ft pc]. unfold log_step in Hstep.
  cbn [owner store m_flushThread] in *.
  assert (Hp : forall W, W ++ pending (mkSys st ft pc) = P0 ++ h ->
               W ++ pending (mkSys (logEvent evt st) ft pc)
               = P0 ++ h ++ [evt]).
  { intros W HW. unfold pending in *.
    cbn [owner store m_flushThread logEvent set_queue m_eventQueue q_push] in *.
    rewrite (app_assoc P0), <- HW. now rewrite <- !app_assoc. }
  pose proof (Hp []) as Hp0. cbn [app] in Hp0.
  destruct pc; try contradiction; try discriminate;
    injection Hstep as <-; cbn [owner store m_flushThread] in *.
  all: repeat match goal with
           | H : _ /\ _ |- _ => destruct H
           | H : exists _, _ |- _ => destruct H
           end.
  all: repeat (split; [assumption|]).
  all: try (apply Hp0; assumption).
  all: try (eexists; split; [apply Hp; eassumption | assumption]).
  all: try (split; [apply Hp0; assumption | assumption]).
Qed.

Lemma fifo_inv_flush (s s' : Sys) (h : list InputEvent) (allok ok : bool) :
  fifo_inv base disk0 P0 h allok s -> flush_step ok s = Some s' ->
  fifo_inv base disk0 P0 h (allok && ok) s'.
Proof.
  intros [Hwf H] Hstep. split; [now apply (wf_step (A_Flush ok) s)|].
  destruct s as [st ft pc].
  unfold flush_step in Hstep. cbn [owner store m_flushThread] in *.
  rewrite drain_locked_all in Hstep.
  destruct pc; try contradiction;
    repeat match goal with
           | H : _ /\ _ |- _ => destruct H
           | H : exists _, _ |- _ => destruct H
           end;
    unfold wf in Hwf; cbn [owner store m_flushThread] in Hwf;
    destruct (m_running st) eqn:Hrun; try discriminate;
    destruct ft as [| |[|n]| | |buf|]; try discriminate;
    injection Hstep as <-; cbn [owner store m_flushThread] in *;
    unfold pending in *; cbn [owner store m_flushThread flush_batch owner_batch
                              set_queue m_eventQueue m_running app] in *;
    rewrite ?app_nil_r, ?running_write_batch, ?queue_write_batch in *.
  all: try (eexists; split; [eassumption | now apply extends_weaken]).
  all: match goal with
       | HW : ?W ++ ?buf ++ _ = _ |- _ =>
           exists (W ++ buf); split;
           [ now rewrite <- app_assoc
           | apply extends_write; assumption ]
       end.
Qed.

Lemma fifo_inv_owner (s s' : Sys) (h : list InputEvent) (allok ok : bool) :
  fifo_inv base disk0 P0 h allok s -> owner_step ok s = Some s' ->
  fifo_inv base disk0 P0 h (allok && ok) s'.
Proof.
  intros [Hwf H] Hstep. split; [now apply (wf_step (A_Owner ok) s)|].
  destruct s as [st ft pc].
  unfold owner_step in Hstep. cbn [owner store m_flushThread] in *.
  rewrite drain_locked_all in Hstep.
  destruct pc; try contradiction; try discriminate;
    repeat match goal with
           | H : _ /\ _ |- _ => destruct H
           | H : exists _, _ |- _ => destruct H
           end;
    unfold wf in Hwf; cbn [owner store m_flushThread] in Hwf;
    destruct (m_running st) eqn:Hrun; try discriminate;
    destruct ft as [| |[|n]| | |buf|]; try discriminate;
    injection Hstep as <-;
    repeat match goal with k : StopCaller |- _ => destruct k end;
    cbn [owner store m_flushThread stop_return] in *;
    unfold pending in *; cbn [owner store m_flushThread flush_batch owner_batch
                              set_queue set_running m_eventQueue m_running app] in *;
    rewrite ?app_nil_r, ?running_write_batch, ?queue_write_batch in *;
    simpl app in *.
  all: repeat (split; [assumption|]).
  all: try assumption.
  all: try (eexists; split; [eassumption | now apply extends_weaken]).
  - split; [destruct ok; assumption | now apply written_trunc].
  - match goal with HW : _ ++ _ = P0 ++ _ |- _ => simpl in HW end.
    match goal with
    | HW : ?W ++ ?buf ++ _ = _ |- _ =>
        exists (W ++ buf); split;
        [ now rewrite <- app_assoc | apply extends_write; assumption ]
    end.
  - match goal with HW : _ ++ _ = P0 ++ _ |- _ => simpl in HW end.
    match goal with
    | HW : ?W ++ ?buf ++ _ = _ |- _ =>
        exists (W ++ buf); split;
        [ now rewrite <- app_assoc | apply extends_write; assumption ]
    end.
Qed.

Lemma fifo_inv_call (s s' : Sys) (h : list InputEvent) (allok : bool)
      (m : Method) :
  is_start_call (A_Call m) = false ->
  fifo_inv base disk0 P0 h allok s -> call_step m s = Some s' ->
  fifo_inv base disk0 P0 h allok s'.
Proof.
  intros Hm [Hwf H] Hstep. split; [now apply (wf_step (A_Call m) s)|].
  destruct s as [st ft pc]. unfold call_step in Hstep.
  cbn [owner store m_flushThread] in *.
  destruct pc; try discriminate Hstep. injection Hstep as <-.
  destruct m; [discriminate Hm | exact H | exact H].
Qed.

Lemma fifo_inv_step (s s' : Sys) (h : list InputEvent) (allok : bool)
      (a : Action) :
  is_start_call a = false -> fifo_inv base disk0 P0 h allok s ->
  step a s = Some s' ->
  fifo_inv base disk0 P0 (h ++ logged [a]) (allok && open_ok a) s'.
Proof.
  intros Hc Hinv Hstep. destruct a as [m|ok|ok|evt|]; cbn [logged open_ok step] in *.
  - rewrite app_nil_r, andb_true_r. eapply fifo_inv_call; eassumption.
  - rewrite app_nil_r. eapply fifo_inv_owner; eassumption.
  - rewrite app_nil_r. eapply fifo_inv_flush; eassumption.
  - rewrite andb_true_r. eapply fifo_inv_log; eassumption.
  - rewrite app_nil_r, andb_true_r. injection Hstep as <-.
    now apply fifo_inv_tick.
Qed.

Lemma fifo_inv_exec (sched : list Action) :
  forall (s s' : Sys) (h : list InputEvent) (allok : bool),
    no_start sched = true -> fifo_inv base disk0 P0 h allok s ->
    exec sched s = Some s' ->
    fifo_inv base disk0 P0 (h ++ logged sched) (allok && opens_ok sched) s'.
Proof.
  induction sched as [|a rest IH]; intros s s' h allok Hc Hinv Hex.
  - cbn in *. injection Hex as <-. now rewrite app_nil_r, andb_true_r.
  - cbn [exec] in Hex. destruct (step a s) as [s1|] eqn:E; [|discriminate].
    cbn [no_start forallb] in Hc. apply andb_true_iff in Hc as [Ha Hrest].
    apply negb_true_iff in Ha.
    pose proof (fifo_inv_step s s1 h allok a Ha Hinv E) as H1.
    pose proof (IH s1 s' _ _ Hrest H1 Hex) as H2.
    replace (h ++ logged (a :: rest)) with ((h ++ logged [a]) ++ logged rest).
    + cbn [opens_ok forallb]. now rewrite andb_assoc.
    + rewrite <- app_assoc. f_equal. change (a :: rest) with ([a] ++ rest).
      now rewrite logged_app.
Qed.

End FifoOrder.

Lemma outside_start_step (a : Action) (s s' : Sys) :
  is_start_call a = false -> in_start (owner s) = false ->
  step a s = Some s' -> in_start (owner s') = false.
Proof.
  destruct s as [st ft pc]. cbn [owner]. intros Ha Hpc H.
  destruct a as [m|ok|ok|evt|];
    unfold step, call_step, owner_step, flush_step, log_step, tick in H;
    cbn [store m_flushThread owner] in H;
    rewrite ?drain_locked_all in H.
  - destruct pc; try discriminate H. injection H as <-.
    destruct m; [discriminate Ha | reflexivity | reflexivity].
  - destruct pc; try discriminate Hpc; try discriminate H;
      repeat match type of H with
             | context [if ?b then _ else _] => destruct b
             | context [match ?f with FT_None => _ | _ => _ end] => destruct f
             end;
      try discriminate H; injection H as <-;
      repeat match goal with k : StopCaller |- _ => destruct k end;
      reflexivity.
  - destruct ft as [| |[|n]| | |buf|]; try discriminate H;
      repeat match type of H with
             | context [if ?b then _ else _] => destruct b
             end;
      injection H as <-; exact Hpc.
  - destruct pc; try discriminate H; injection H as <-; exact Hpc.
  - injection H as <-. destruct ft as [| |[|n]| | | |]; exact Hpc.
Qed.

Lemma outside_start_exec (sched : list Action) :
  forall s s' : Sys,
    no_start sched = true -> in_start (owner s) = false ->
    exec sched s = Some s' -> in_start (owner s') = false.
Proof.
  induction sched as [|a rest IH]; intros s s' Hc Hpc Hex.
  - cbn in Hex. now injection Hex as <-.
  - cbn [exec] in Hex. destruct (step a s) as [s1|] eqn:E; [|discriminate].
    cbn [no_start forallb] in Hc. apply andb_true_iff in Hc as [Ha Hrest].
    apply negb_true_iff in Ha.
    apply (IH s1 s' Hrest); [|exact Hex].
    now apply (outside_start_step a s s1).
Qed.

Lemma fifo_inv_outside_start (base disk0 : string) (P0 h : list InputEvent)
      (allok : bool) (s : Sys) :
  fifo_inv base disk0 P0 h allok s -> in_start (owner s) = false ->
  exists W, W ++ pending s = P0 ++ h /\ written base disk0 allok (store s) W.
Proof.
  intros [_ H] Hpc. destruct (owner s); try discriminate Hpc;
    try exact H; contradiction.
Qed.

Lemma written_file (base disk0 : string) (allok : bool) (st : Store)
      (W : list InputEvent) :
  written base disk0 allok st W ->
  exists D, kept_of D W /\ (allok = true -> D = W) /\
            (disk st = base +++ render D \/
             allok = false /\ disk st = disk0 +++ render D).
Proof.
  intros [D [Hk [Hall [b [Hd Hb]]]]]. exists D.
  split; [exact Hk|]. split; [exact Hall|]. rewrite Hd.
  destruct Hb as [-> | [Hf ->]]; [now left | right]. now split.
Qed.

Lemma start_session_fifo (s s' : Sys) (sched : list Action) :
  wf s = true -> owner s = C_Idle -> m_running (store s) = false ->
  no_start sched = true ->
  exec (A_Call M_start :: sched) s = Some s' ->
  in_start (owner s') = false ->
  exists W, W ++ pending s' = m_eventQueue (store s) ++ logged sched /\
            written csv_header (disk (store s)) (opens_ok sched) (store s') W.
Proof.
  intros Hwf Ho Hr Hc Hex Hend.
  assert (Hft : m_flushThread s = FT_None).
  { unfold wf in Hwf. rewrite Ho, Hr in Hwf. now destruct (m_flushThread s). }
  destruct s as [st ft pc]. cbn [store m_flushThread owner] in *. subst.
  cbn [exec step] in Hex. unfold call_step in Hex.
  cbn [store m_flushThread owner] in Hex.
  assert (Hinv : fifo_inv csv_header (disk st) (m_eventQueue st) [] true
                          (mkSys st FT_None C_Start_Check)).
  { split; [unfold wf; cbn; now rewrite Hr|].
    cbn [owner store]. split; [reflexivity|]. split; [exact Hr|].
    split; [|reflexivity].
    unfold pending. cbn. now rewrite app_nil_r. }
  pose proof (fifo_inv_exec _ _ _ sched _ s' [] true Hc Hinv Hex) as H.
  apply fifo_inv_outside_start in H; [exact H | exact Hend].
Qed.

Lemma no_calls_no_start (sched : list Action) :
  no_calls sched = true -> no_start sched = true.
Proof.
  unfold no_calls, no_start. induction sched as [|a rest IH]; [reflexivity|].
  cbn [forallb]. intros H. apply andb_true_iff in H as [Ha Hrest].
  rewrite (IH Hrest), andb_true_r. now destruct a as [[| |]| | | |].
Qed.

(** As long as [start] is not called again, the file only grows, by the
    records of events in the order they were logged.  Whatever the
    interleaving of producers, flush cycles, ticks, [stop] and the
    destructor, the events [W] whose batch has gone through its write and
    those still pending are together what was pending before followed by
    the events logged since, none twice, none out of order; and the file is
    its former contents followed by the records of the events [D] kept of
    [W], in their order.  An event of [W] is missing from the file only
    when an open failed, the batch of a failed open being dropped: if no
    open failed, [D] is [W]. *)
Theorem file_grows_in_queue_order (s s' : Sys) (sched : list Action) :
  wf s = true -> owner s = C_Idle -> no_start sched = true ->
  exec sched s = Some s' ->
  exists W D,
    W ++ pending s' = pending s ++ logged sched /\
    kept_of D W /\
    disk (store s') = disk (store s) +++ render D /\
    (opens_ok sched = true -> D = W).
Proof.
  intros Hwf Ho Hc Hex.
  assert (Hinv : fifo_inv (disk (store s)) (disk (store s)) (pending s) [] true s).
  { split; [exact Hwf|]. rewrite Ho. exists []. split.
    - now rewrite app_nil_r.
    - exists []. split; [constructor|]. split; [reflexivity|].
      exists (disk (store s)). split; [|now left].
      change (render []) with "". now rewrite sapp_nil_r. }
  pose proof (fifo_inv_exec _ _ _ sched s s' [] true Hc Hinv Hex) as H.
  apply fifo_inv_outside_start in H;
    [|apply (outside_start_exec sched s s' Hc); [now rewrite Ho | exact Hex]].
  destruct H as [W [HW [D [Hk [Hall [b [Hd Hb]]]]]]].
  exists W, D. split; [exact HW|]. split; [exact Hk|]. split; [|exact Hall].
  rewrite Hd. now destruct Hb as [-> | [_ ->]].
Qed.

Lemma file_grows_in_queue_order_witness :
  wf running_logger = true /\ owner running_logger = C_Idle /\
  (exists W,
      W ++ pending (final_state ([A_Log click; A_Call M_stop]
                                   ++ shutdown_steps true ++ [A_Log key_q])
                                running_logger)
      = [key_q; click; key_q] /\
      disk (store (final_state ([A_Log click; A_Call M_stop]
                                  ++ shutdown_steps true ++ [A_Log key_q])
                               running_logger))
      = csv_header +++ render W) /\
  (exists W D,
      W ++ pending (final_state (A_Call M_stop :: shutdown_steps false)
                                running_logger)
      = [key_q] /\
      kept_of D W /\
      disk (store (final_state (A_Call M_stop :: shutdown_steps false)
                               running_logger))
      = csv_header +++ render D).
Proof.
  split; [reflexivity|]. split; [reflexivity|].
  split.
  - assert (E : exec ([A_Log click; A_Call M_stop] ++ shutdown_steps true
                        ++ [A_Log key_q]) running_logger
                = Some (final_state ([A_Log click; A_Call M_stop]
                                       ++ shutdown_steps true ++ [A_Log key_q])
                                    running_logger))
      by (vm_compute; reflexivity).
    destruct (file_grows_in_queue_order running_logger _
                ([A_Log click; A_Call M_stop] ++ shutdown_steps true
                   ++ [A_Log key_q])
                eq_refl eq_refl eq_refl E) as [W [D [H1 [_ [H2 H3]]]]].
    exists W. split; [exact H1|]. now rewrite <- (H3 eq_refl).
  - assert (E : exec (A_Call M_stop :: shutdown_steps false) running_logger
                = Some (final_state (A_Call M_stop :: shutdown_steps false)
                                    running_logger))
      by (vm_compute; reflexivity).
    destruct (file_grows_in_queue_order running_logger _
                (A_Call M_stop :: shutdown_steps false)
                eq_refl eq_refl eq_refl E) as [W [D [H1 [H2 [H3 _]]]]].
    exists W, D. split; [exact H1|]. split; [exact H2 | exact H3].
Defined.

(** [start] empties the file, not the queue.  From a stopped logger, a
    session that begins with [start] and calls it no more ends with the
    events [W] whose batch has gone through its write and those still
    pending being the events that were waiting in the queue when [start]
    was called followed by those logged during the session; and the file
    is the header followed by the records of the events [D] kept of [W],
    in their order, or, when an open failed, possibly the former contents
    of the file followed by those records, the truncating open being one
    that can fail.  If no open failed, [D] is [W] and the file begins with
    the header. *)
Theorem session_file_is_header_then_queue_order (s s' : Sys)
        (sched : list Action) :
  wf s = true -> owner s = C_Idle -> m_running (store s) = false ->
  no_start sched = true ->
  exec (A_Call M_start :: sched) s = Some s' ->
  in_start (owner s') = false ->
  exists W D,
    W ++ pending s' = m_eventQueue (store s) ++ logged sched /\
    kept_of D W /\
    (opens_ok sched = true -> D = W) /\
    (disk (store s') = csv_header +++ render D \/
     opens_ok sched = false /\
     disk (store s') = disk (store s) +++ render D).
Proof.
  intros Hwf Ho Hr Hc Hex Hend.
  destruct (start_session_fifo s s' sched Hwf Ho Hr Hc Hex Hend) as [W [HW Hw]].
  destruct (written_file _ _ _ _ _ Hw) as [D [Hk [Hall Hd]]].
  exists W, D. split; [exact HW|]. split; [exact Hk|]. split; [exact Hall|].
  exact Hd.
Qed.

Lemma session_file_witness :
  wf tracker_logger = true /\ owner tracker_logger = C_Idle /\
  m_running (store tracker_logger) = false /\
  in_start (owner (final_state (A_Log click :: session_prefix) tracker_logger))
  = false /\
  exists W,
    W ++ pending (final_state (A_Log click :: session_prefix) tracker_logger)
    = [click; key_q] /\
    disk (store (final_state (A_Log click :: session_prefix) tracker_logger))
    = csv_header +++ render W.
Proof.
  split; [reflexivity|]. split; [reflexivity|]. split; [reflexivity|].
  split; [reflexivity|].
  destruct (session_file_is_header_then_queue_order
              (final_state [A_Log click] tracker_logger)
              (final_state (A_Log click :: session_prefix) tracker_logger)
              [A_Owner true; A_Owner true; A_Owner true; A_Owner true;
               A_Flush true; A_Log key_q]
              eq_refl eq_refl eq_refl eq_refl eq_refl eq_refl)
    as [W [D [H1 [_ [H2 [H3 | [H3 _]]]]]]].
  - exists W. split; [exact H1|]. now rewrite <- (H2 eq_refl).
  - discriminate H3.
Defined.

(** ** What is reported, what is not *)

Lemma failed_appends_snoc (trace : list (OpenMode * bool)) (m : OpenMode)
      (ok : bool) :
  failed_appends (trace ++ [(m, ok)])
  = (failed_appends trace
     + match m, ok with OpenApp, false => 1 | _, _ => 0 end)%nat.
Proof.
  induction trace as [|[m' ok'] rest IH].
  - destruct m, ok; reflexivity.
  - destruct m', ok'; simpl; rewrite IH; reflexivity.
Qed.

Lemma store_op_report (st st' : Store) :
  store_op st st' ->
  cerr st = failure_report st (failed_appends (opens st)) ->
  cerr st' = failure_report st' (failed_appends (opens st')).
Proof.
  intros H Hc. destruct H as [st|evt st|b st|ok st|st|ok buf st];
    try exact Hc.
  - unfold open_truncate.
    assert (E : cerr (note_open OpenTrunc ok st)
                = failure_report (note_open OpenTrunc ok st)
                    (failed_appends (opens (note_open OpenTrunc ok st)))).
    { cbn [note_open cerr opens]. rewrite failed_appends_snoc.
      destruct ok; rewrite Nat.add_0_r; exact Hc. }
    destruct ok; exact E.
  - unfold write_batch. destruct buf as [|evt rest]; [exact Hc|].
    cbn [q_empty]. destruct ok; cbn [negb].
    + cbn [set_disk note_open cerr opens]. rewrite failed_appends_snoc.
      rewrite Nat.add_0_r. exact Hc.
    + cbn [put_cerr note_open cerr opens]. rewrite failed_appends_snoc.
      rewrite Nat.add_1_r. unfold failure_report in *. cbn [m_filename].
      rewrite Hc. unfold append_failure.
      now rewrite <- repeat_cons.
Qed.

Lemma exec_store_invariant (P : Store -> Prop) :
  (forall st st', store_op st st' -> P st -> P st') ->
  forall sched s s', exec sched s = Some s' -> P (store s) -> P (store s').
Proof.
  intros HP. induction sched as [|a rest IH]; intros s s' Hex Hs.
  - cbn in Hex. now injection Hex as <-.
  - cbn [exec] in Hex. destruct (step a s) as [s1|] eqn:E; [|discriminate].
    apply (IH s1 s' Hex). apply (HP (store s)); [|exact Hs].
    now apply (step_store_op a).
Qed.

Lemma interval_kept (sched : list Action) (s s' : Sys) :
  exec sched s = Some s' ->
  m_flushIntervalSec (store s') = m_flushIntervalSec (store s).
Proof.
  intros Hex.
  exact (exec_store_invariant
           (fun st => m_flushIntervalSec st = m_flushIntervalSec (store s))
           (fun st st' Hop Hst =>
              eq_trans (proj2 (store_op_config st st' Hop)) Hst)
           sched s s' Hex eq_refl).
Qed.

(** Whatever happens to a logger after its construction, the name of its
    file never changes and is not empty, the flush interval never changes,
    and [std::cerr] holds exactly one line naming the file for each open
    for appending that failed, and nothing else: a failure of the
    truncating open of [start] leaves no trace there. *)
Theorem failures_reported_appends_only (filename ts old : string)
        (flushIntervalSeconds : Z) (sched : list Action) (s : Sys) :
  exec sched (fresh filename flushIntervalSeconds ts old) = Some s ->
  m_filename (store s)
  = (if String.eqb filename "" then "input_log_" +++ ts +++ ".csv"
     else filename) /\
  m_filename (store s) <> "" /\
  m_flushIntervalSec (store s) = flushIntervalSeconds /\
  cerr (store s) = failure_report (store s) (failed_appends (opens (store s))).
Proof.
  intros Hex.
  pose proof (exec_store_invariant
                (fun st => m_filename st
                           = m_filename (store (fresh filename
                                                  flushIntervalSeconds ts old)) /\
                           m_flushIntervalSec st = flushIntervalSeconds)
                (fun st st' Hop Hst =>
                   conj (eq_trans (proj1 (store_op_config st st' Hop)) (proj1 Hst))
                        (eq_trans (proj2 (store_op_config st st' Hop)) (proj2 Hst)))
                sched _ s Hex (conj eq_refl eq_refl)) as [Hn Hi].
  pose proof (exec_store_invariant
                (fun st => cerr st = failure_report st (failed_appends (opens st)))
                store_op_report sched _ s Hex eq_refl) as Hc.
  cbn [fresh store CSVLogger m_filename] in Hn.
  split; [exact Hn|]. split; [|split; [exact Hi | exact Hc]].
  rewrite Hn. destruct (String.eqb filename "") eqn:E.
  - discriminate.
  - intros ->. discriminate E.
Qed.

Lemma failures_reported_witness :
  exec (session_prefix ++ A_Call M_stop :: shutdown_steps false) tracker_logger
  = Some (final_state (session_prefix ++ A_Call M_stop :: shutdown_steps false)
                      tracker_logger) /\
  cerr (store (final_state (session_prefix ++ A_Call M_stop :: shutdown_steps false)
                           tracker_logger))
  = ["Failed to open CSV file for appending: input_log.csv" +++ nl].
Proof.
  assert (H : exec (session_prefix ++ A_Call M_stop :: shutdown_steps false)
                   tracker_logger
              = Some (final_state (session_prefix ++ A_Call M_stop
                                     :: shutdown_steps false) tracker_logger))
    by (vm_compute; reflexivity).
  split; [exact H|].
  destruct (failures_reported_appends_only "input_log.csv" "" "" 60 _ _ H)
    as [_ [_ [_ Hc]]].
  rewrite Hc. vm_compute. reflexivity.
Defined.

(** ** The thread object *)

(** From construction on, under every schedule, the owner never reaches
    [std::terminate]: the thread member is never assigned while it holds a
    joinable thread and never destroyed joinable.  Between two calls the
    flush thread is alive exactly when the running flag is set, and there
    is no thread object left when it is not. *)
Theorem thread_object_never_misused (filename ts old : string)
        (flushIntervalSeconds : Z) (sched : list Action) (s : Sys) :
  exec sched (fresh filename flushIntervalSeconds ts old) = Some s ->
  owner s <> C_Aborted /\
  (owner s = C_Idle ->
   flush_active (m_flushThread s) = m_running (store s) /\
   (m_running (store s) = false -> m_flushThread s = FT_None)).
Proof.
  intros Hex. destruct (reachable_wf _ _ _ _ _ _ Hex) as [Hwf Hna].
  split; [exact Hna|]. intros Ho. unfold wf in Hwf. rewrite Ho in Hwf.
  destruct (m_running (store s)); destruct (m_flushThread s);
    try discriminate Hwf; split; try reflexivity; intros; congruence.
Qed.

Lemma thread_object_witness :
  exec (session_prefix ++ A_Call M_stop :: shutdown_steps true ++ session_prefix)
       tracker_logger
  = Some (final_state (session_prefix ++ A_Call M_stop :: shutdown_steps true
                         ++ session_prefix) tracker_logger) /\
  owner (final_state (session_prefix ++ A_Call M_stop :: shutdown_steps true
                        ++ session_prefix) tracker_logger) <> C_Aborted.
Proof.
  assert (H : exec (session_prefix ++ A_Call M_stop :: shutdown_steps true
                      ++ session_prefix) tracker_logger
              = Some (final_state (session_prefix ++ A_Call M_stop
                                     :: shutdown_steps true ++ session_prefix)
                                  tracker_logger))
    by (vm_compute; reflexivity).
  split; [exact H|].
  exact (proj1 (thread_object_never_misused "input_log.csv" "" "" 60 _ _ H)).
Defined.

(** ** How long [stop] waits *)

Lemma ticks_app (a b : list Action) : ticks (a ++ b) = (ticks a + ticks b)%nat.
Proof.
  induction a as [|c a IH]; [reflexivity|].
  destruct c; simpl; now rewrite ?IH.
Qed.

Lemma ticks_repeat (n : nat) : ticks (repeat A_Tick n) = n.
Proof. induction n as [|n IH]; simpl; now rewrite ?IH. Qed.

Lemma sleep_bounded_step (a : Action) (s s' : Sys) :
  sleep_bounded s -> step a s = Some s' -> sleep_bounded s'.
Proof.
  intros Hb H.
  destruct (store_op_config _ _ (step_store_op a s s' H)) as [_ Hi].
  unfold sleep_bounded in *. rewrite Hi. clear Hi.
  destruct s as [st ft pc]. cbn [store m_flushThread] in *.
  destruct a as [m|ok|ok|evt|];
    unfold step, call_step, owner_step, flush_step, log_step, tick in H;
    cbn [store m_flushThread owner] in H;
    rewrite ?drain_locked_all in H.
  - destruct pc; try discriminate H. injection H as <-. exact Hb.
  - destruct pc; try discriminate H;
      repeat match type of H with
             | context [if ?b then _ else _] => destruct b
             end;
      try (injection H as <-; cbn [m_flushThread]; exact Hb || exact I).
    destruct ft; try discriminate H; injection H as <-; exact I.
  - destruct ft as [| |[|n]| | |buf|]; try discriminate H;
      repeat match type of H with
             | context [if ?b then _ else _] => destruct b
             end;
      injection H as <-; cbn [m_flushThread]; try exact I.
    apply Nat.le_refl.
  - destruct pc; try discriminate H; injection H as <-; exact Hb.
  - injection H as <-. destruct ft as [| |[|n]| | | |]; try exact Hb.
    cbn [m_flushThread]. lia.
Qed.

Lemma sleep_bounded_exec (sched : list Action) :
  forall s s', sleep_bounded s -> exec sched s = Some s' -> sleep_bounded s'.
Proof.
  induction sched as [|a rest IH]; intros s s' Hb Hex.
  - cbn in Hex. now injection Hex as <-.
  - cbn [exec] in Hex. destruct (step a s) as [s1|] eqn:E; [|discriminate].
    apply (IH s1 s'); [now apply (sleep_bounded_step a s) | exact Hex].
Qed.

Lemma before_join_step (a : Action) (s s' : Sys) (n : nat) :
  m_flushThread s = FT_Sleep n -> before_join s = true ->
  step a s = Some s' -> before_join s' = true.
Proof.
  destruct s as [st ft pc]. cbn [m_flushThread]. intros -> Hb H.
  unfold before_join in *. cbn [owner store] in *.
  destruct a as [m|ok|ok|evt|];
    unfold step, call_step, owner_step, flush_step, log_step, tick in H;
    cbn [store m_flushThread owner] in H;
    rewrite ?drain_locked_all in H.
  - destruct pc; try discriminate Hb; discriminate H.
  - destruct pc; try discriminate Hb; try discriminate H.
    + rewrite Hb in H. injection H as <-. reflexivity.
    + injection H as <-. reflexivity.
  - destruct n; [|discriminate H]. injection H as <-. exact Hb.
  - destruct pc; try discriminate Hb; injection H as <-; exact Hb.
  - injection H as <-. destruct n; exact Hb.
Qed.

(** A thread asleep with [n] seconds left is still asleep, with what is
    left of them, as long as fewer than [n] seconds have passed, and a
    [stop] that waits for it is still waiting. *)
Lemma asleep_until_due (sched : list Action) :
  forall (s s' : Sys) (n : nat),
    m_flushThread s = FT_Sleep n -> exec sched s = Some s' ->
    (ticks sched < n)%nat ->
    m_flushThread s' = FT_Sleep (n - ticks sched) /\
    (before_join s = true -> before_join s' = true).
Proof.
  induction sched as [|a rest IH]; intros s s' n Hft Hex Ht.
  - cbn in Hex. injection Hex as <-. cbn. rewrite Nat.sub_0_r. now split.
  - cbn [exec] in Hex. destruct (step a s) as [s1|] eqn:E; [|discriminate].
    destruct n as [|n]; [lia|].
    pose proof (before_join_step a s s1 (S n) Hft) as Hbj.
    destruct (is_tick a) eqn:Ha.
    + destruct a; try discriminate Ha. cbn [step] in E.
      assert (Hft1 : m_flushThread s1 = FT_Sleep n).
      { injection E as <-. unfold tick. now rewrite Hft. }
      cbn [ticks] in *.
      destruct (IH s1 s' n Hft1 Hex) as [H1 H2]; [lia|].
      split; [exact H1|]. intros Hb. apply H2. now apply Hbj.
    + assert (Hnt : no_ticks [a] = true) by (cbn; now rewrite Ha).
      assert (E1 : exec [a] s = Some s1) by (cbn; now rewrite E).
      destruct (asleep_without_ticks [a] s s1 n Hnt Hft E1) as [Hft1 _].
      assert (Et : ticks (a :: rest) = ticks rest)
        by (destruct a; try reflexivity; discriminate Ha).
      rewrite Et in *.
      destruct (IH s1 s' (S n) Hft1 Hex Ht) as [H1 H2].
      split; [exact H1|]. intros Hb. apply H2. now apply Hbj.
Qed.

Lemma ticks_stop_schedule (ft : FlushPc) :
  ticks (stop_schedule ft) = match ft with FT_Sleep n => n | _ => O end.
Proof.
  unfold stop_schedule, flush_exit_schedule.
  destruct ft; try reflexivity.
  rewrite !ticks_app, ticks_repeat. simpl. lia.
Qed.

(** [stop] on a running logger whose flush thread is asleep with [n]
    seconds left cannot return before those [n] seconds have passed, under
    any schedule; it can return as soon as they have; and [n] never exceeds
    the flush interval the logger was built with.  When the thread is not
    asleep [stop] can return without any time passing. *)
Theorem stop_waits_out_the_sleep (filename ts old : string)
        (flushIntervalSeconds : Z) (before : list Action) (s : Sys) :
  exec before (fresh filename flushIntervalSeconds ts old) = Some s ->
  owner s = C_Idle -> m_running (store s) = true ->
  (exists s1,
      exec (stop_schedule (m_flushThread s)) s = Some s1 /\
      owner s1 = C_Idle /\
      (ticks (stop_schedule (m_flushThread s))
       <= Z.to_nat flushIntervalSeconds)%nat /\
      (forall n, m_flushThread s = FT_Sleep n ->
                 ticks (stop_schedule (m_flushThread s)) = n) /\
      ((forall n, m_flushThread s <> FT_Sleep n) ->
       ticks (stop_schedule (m_flushThread s)) = O)) /\
  (forall n sched s1,
      m_flushThread s = FT_Sleep n ->
      exec (A_Call M_stop :: sched) s = Some s1 ->
      owner s1 = C_Idle ->
      (n <= ticks sched)%nat).
Proof.
  intros Hex Ho Hr.
  destruct (reachable_wf _ _ _ _ _ _ Hex) as [Hwf _].
  assert (Hi : m_flushIntervalSec (store s) = flushIntervalSeconds)
    by exact (interval_kept before _ s Hex).
  assert (Hb : sleep_bounded s).
  { apply (sleep_bounded_exec before
             (fresh filename flushIntervalSeconds ts old) s);
      [exact I | exact Hex]. }
  split.
  - destruct (stop_returns s Hwf Ho Hr) as [s1 [H1 H2]].
    exists s1. split; [exact H1|]. split; [exact H2|].
    rewrite ticks_stop_schedule.
    split; [|split].
    + unfold sleep_bounded in Hb. rewrite Hi in Hb.
      destruct (m_flushThread s); try apply Nat.le_0_l. exact Hb.
    + intros n ->. reflexivity.
    + intros Hn. destruct (m_flushThread s) eqn:E; try reflexivity.
      now destruct (Hn remaining).
  - intros n sched s1 Hft Hrun Hend.
    destruct (Nat.le_gt_cases n (ticks sched)) as [Hle | Hlt]; [exact Hle|].
    exfalso.
    cbn [exec step] in Hrun. unfold call_step in Hrun. rewrite Ho in Hrun.
    destruct (asleep_until_due sched
                (mkSys (store s) (m_flushThread s) (C_Stop_Check ByUser))
                s1 n Hft Hrun Hlt) as [_ Hb1].
    unfold before_join in Hb1. cbn [owner store] in Hb1.
    rewrite Hend in Hb1. specialize (Hb1 Hr). discriminate Hb1.
Qed.

Lemma stop_waits_out_the_sleep_witness :
  exec session_prefix (fresh "input_log.csv" 60 "" "") = Some running_logger /\
  owner running_logger = C_Idle /\ m_running (store running_logger) = true /\
  ticks (stop_schedule (m_flushThread running_logger)) = 60%nat /\
  (60 <= ticks (shutdown_steps true))%nat.
Proof.
  assert (H : exec session_prefix (fresh "input_log.csv" 60 "" "")
              = Some running_logger) by (vm_compute; reflexivity).
  split; [exact H|]. split; [reflexivity|]. split; [reflexivity|].
  destruct (stop_waits_out_the_sleep "input_log.csv" "" "" 60 session_prefix
              running_logger H eq_refl eq_refl) as [[s1 [_ [_ [_ [H1 _]]]]] H2].
  split; [exact (H1 60%nat eq_refl)|].
  apply (H2 60%nat (shutdown_steps true)
            (final_state (A_Call M_stop :: shutdown_steps true) running_logger));
    [reflexivity | vm_compute; reflexivity | vm_compute; reflexivity].
Defined.

(** ** One turn of the flush loop *)

Lemma sleeping_through (mid : list Action) :
  forall (st : Store) (n : nat),
    only_logs_and_ticks mid = true ->
    exec mid (mkSys st (FT_Sleep n) C_Idle)
    = Some (mkSys (logEvents (logged mid) st) (FT_Sleep (n - ticks mid)) C_Idle).
Proof.
  induction mid as [|a rest IH]; intros st n Hm.
  - cbn. now rewrite Nat.sub_0_r.
  - cbn [only_logs_and_ticks forallb] in Hm.
    apply andb_true_iff in Hm as [Ha Hrest].
    destruct a as [m|ok|ok|evt|]; try discriminate Ha.
    + cbn [exec step log_step owner store m_flushThread logged ticks].
      rewrite (IH _ n Hrest). reflexivity.
    + cbn [exec step logged ticks]. destruct n as [|n].
      * unfold tick. cbn [m_flushThread]. rewrite (IH st O Hrest). reflexivity.
      * unfold tick. cbn [m_flushThread store owner].
        rewrite (IH st n Hrest). reflexivity.
Qed.

Lemma logging_through (mid : list Action) :
  forall (st : Store) (ft : FlushPc),
    only_logs_and_ticks mid = true ->
    (forall st', tick (mkSys st' ft C_Idle) = mkSys st' ft C_Idle) ->
    exec mid (mkSys st ft C_Idle)
    = Some (mkSys (logEvents (logged mid) st) ft C_Idle).
Proof.
  induction mid as [|a rest IH]; intros st ft Hm Hft; [reflexivity|].
  cbn [only_logs_and_ticks forallb] in Hm.
  apply andb_true_iff in Hm as [Ha Hrest].
  destruct a as [m|ok|ok|evt|]; try discriminate Ha.
  - cbn [exec step log_step owner store m_flushThread logged].
    rewrite (IH _ ft Hrest Hft). reflexivity.
  - cbn [exec step logged]. rewrite Hft. exact (IH st ft Hrest Hft).
Qed.

(** A turn of the flush loop on a running logger, producers logging all
    the while.  The cycle does not start before the whole interval has
    passed.  Once it has, the thread wakes, tests the flag, drains the
    queue and writes: the batch is everything that was queued or logged
    up to the drain, in order, and the events logged between the drain
    and the write stay in the queue, which holds exactly them when the
    cycle ends.  If the open succeeds the file grows by the records of
    the batch; if it fails the file is left as it was.  When nothing is
    logged between the drain and the write, the cycle is one [flushToDisk]
    run without interruption. *)
Theorem flush_loop_turn (st : Store) (mid a b c : list Action)
        (o1 o2 o3 o4 ok : bool) :
  m_running st = true ->
  only_logs_and_ticks mid = true -> only_logs_and_ticks a = true ->
  only_logs_and_ticks b = true -> only_logs_and_ticks c = true ->
  ((ticks mid < Z.to_nat (m_flushIntervalSec st))%nat ->
   exec (A_Flush o1 :: mid ++ [A_Flush o2]) (mkSys st FT_LoopHead C_Idle) = None) /\
  ((Z.to_nat (m_flushIntervalSec st) <= ticks mid)%nat ->
   exists st',
     exec (A_Flush o1 :: mid ++ A_Flush o2 :: a ++ A_Flush o3 :: b
             ++ A_Flush o4 :: c ++ [A_Flush ok])
          (mkSys st FT_LoopHead C_Idle)
     = Some (mkSys st' FT_LoopHead C_Idle) /\
     m_eventQueue st' = logged c /\
     disk st'
     = (if ok
        then disk st +++ render (m_eventQueue st ++ logged (mid ++ a ++ b))
        else disk st) /\
     opens st'
     = opens st
       ++ match m_eventQueue st ++ logged (mid ++ a ++ b) with
          | [] => []
          | _ :: _ => [(OpenApp, ok)]
          end /\
     (logged c = [] ->
      st' = flushToDisk ok (logEvents (logged (mid ++ a ++ b)) st))).
Proof.
  intros Hr Hm Ha Hb Hc.
  assert (H0 : forall tail,
             exec (A_Flush o1 :: mid ++ tail) (mkSys st FT_LoopHead C_Idle)
             = exec tail (mkSys (logEvents (logged mid) st)
                                (FT_Sleep (Z.to_nat (m_flushIntervalSec st)
                                           - ticks mid)) C_Idle)).
  { intros tail. cbn [exec step]. unfold flush_step.
    cbn [store m_flushThread owner]. rewrite Hr.
    now rewrite exec_app, (sleeping_through mid _ _ Hm). }
  split.
  - intros Hlt. rewrite H0.
    destruct (Z.to_nat (m_flushIntervalSec st) - ticks mid)%nat eqn:E; [lia|].
    reflexivity.
  - intros Hle. rewrite H0.
    replace (Z.to_nat (m_flushIntervalSec st) - ticks mid)%nat with O by lia.
    set (st1 := logEvents (logged mid) st).
    set (st2 := logEvents (logged a) st1).
    set (st3 := logEvents (logged b) st2).
    set (st4 := logEvents (logged c) (set_queue [] st3)).
    assert (Hq3 : st3 = set_queue (m_eventQueue st ++ logged (mid ++ a ++ b)) st).
    { unfold st3, st2, st1. rewrite !logEvents_queue. cbn [set_queue m_eventQueue].
      now rewrite !logged_app, <- !app_assoc. }
    assert (Hr2 : m_running st2 = true).
    { unfold st2, st1. rewrite !logEvents_queue. exact Hr. }
    exists (write_batch ok (m_eventQueue st3) st4).
    assert (Hex : exec (A_Flush o2 :: a ++ A_Flush o3 :: b ++ A_Flush o4 :: c
                          ++ [A_Flush ok])
                       (mkSys st1 (FT_Sleep 0) C_Idle)
                  = Some (mkSys (write_batch ok (m_eventQueue st3) st4)
                                FT_LoopHead C_Idle)).
    { cbn [exec step]. unfold flush_step at 1. cbn [store m_flushThread owner].
      rewrite exec_app, (logging_through a st1 FT_Check Ha (fun _ => eq_refl)).
      fold st2. cbn [exec step]. unfold flush_step at 1.
      cbn [store m_flushThread owner]. rewrite Hr2. cbn [negb].
      rewrite exec_app, (logging_through b st2 FT_Drain Hb (fun _ => eq_refl)).
      fold st3. cbn [exec step]. unfold flush_step at 1.
      cbn [store m_flushThread owner]. rewrite drain_locked_all.
      rewrite exec_app,
        (logging_through c _ (FT_Write (m_eventQueue st3)) Hc (fun _ => eq_refl)).
      fold st4. reflexivity. }
    split; [exact Hex|].
    assert (Hq4 : m_eventQueue st4 = logged c).
    { unfold st4. rewrite logEvents_queue. reflexivity. }
    assert (Hd4 : disk st4 = disk st).
    { unfold st4. rewrite logEvents_queue, Hq3. reflexivity. }
    assert (Ho4 : opens st4 = opens st).
    { unfold st4. rewrite logEvents_queue, Hq3. reflexivity. }
    assert (Hb3 : m_eventQueue st3 = m_eventQueue st ++ logged (mid ++ a ++ b)).
    { rewrite Hq3. reflexivity. }
    split; [now rewrite queue_write_batch|].
    split.
    { rewrite Hb3. destruct ok.
      - now rewrite disk_write_batch_ok, Hd4.
      - now rewrite disk_write_batch_failed, Hd4. }
    split.
    { rewrite Hb3. unfold write_batch.
      destruct (m_eventQueue st ++ logged (mid ++ a ++ b)); cbn [q_empty].
      - now rewrite Ho4, app_nil_r.
      - destruct ok; cbn; now rewrite Ho4. }
    intros Hc0. unfold st4. rewrite Hc0.
    change (logEvents [] (set_queue [] st3)) with (set_queue [] st3).
    rewrite (logEvents_queue (logged (mid ++ a ++ b)) st), <- Hq3.
    unfold flushToDisk. rewrite drain_locked_all. reflexivity.
Qed.

Lemma flush_loop_turn_witness :
  m_running (store running_logger) = true /\
  only_logs_and_ticks (A_Log click :: repeat A_Tick 60) = true /\
  only_logs_and_ticks [A_Log key_q] = true /\
  (Z.to_nat (m_flushIntervalSec (store running_logger))
   <= ticks (A_Log click :: repeat A_Tick 60))%nat /\
  exists st',
    exec (A_Flush true :: (A_Log click :: repeat A_Tick 60) ++ A_Flush true
            :: [] ++ A_Flush true :: [] ++ A_Flush true :: [A_Log key_q]
            ++ [A_Flush true])
         (mkSys (store running_logger) FT_LoopHead C_Idle)
    = Some (mkSys st' FT_LoopHead C_Idle) /\
    m_eventQueue st' = [key_q] /\
    disk st' = csv_header +++ render [key_q; click].
Proof.
  split; [reflexivity|]. split; [reflexivity|]. split; [reflexivity|].
  assert (Hle : (Z.to_nat (m_flushIntervalSec (store running_logger))
                 <= ticks (A_Log click :: repeat A_Tick 60))%nat)
    by (vm_compute; lia).
  split; [exact Hle|].
  destruct (flush_loop_turn (store running_logger)
              (A_Log click :: repeat A_Tick 60) [] [] [A_Log key_q]
              true true true true true
              eq_refl eq_refl eq_refl eq_refl eq_refl) as [_ H].
  destruct (H Hle) as [st' [H1 [H2 [H3 _]]]].
  exists st'. split; [exact H1|]. split; [exact H2|].
  rewrite H3. vm_compute. reflexivity.
Defined.

(* ================================================================== *)
(** * Reading the file back *)

Lemma csv_record_line (evt : InputEvent) :
  csv_record evt = csv_line evt +++ nl.
Proof. apply csv_record_fields. Qed.

Lemma parse_record_line (evt : InputEvent) :
  plain_tag (eventType evt) = true -> parse_record (csv_line evt) = Some evt.
Proof.
  intros Hp. unfold parse_record, csv_line.
  destruct (csv_line_reads_back evt Hp) as [_ ->].
  unfold csv_fields. rewrite !read_dec_dec.
  destruct evt as [tag t [a b] k]. reflexivity.
Qed.

Lemma split_lines_render (evts : list InputEvent) :
  plain_events evts = true ->
  split_on newline (render evts) = map csv_line evts ++ [""].
Proof.
  induction evts as [|evt rest IH]; intros Hp; [reflexivity|].
  cbn [plain_events forallb] in Hp. apply andb_true_iff in Hp as [He Hrest].
  rewrite render_cons, csv_record_line, sapp_assoc.
  change (nl +++ render rest) with (String newline (render rest)).
  rewrite split_on_field.
  - change (map csv_line (evt :: rest) ++ [""])
      with (csv_line evt :: (map csv_line rest ++ [""])).
    now rewrite (IH Hrest).
  - apply (csv_line_reads_back evt He).
Qed.

Lemma parse_lines_render (evts : list InputEvent) :
  plain_events evts = true ->
  parse_lines (map csv_line evts ++ [""]) = Some evts.
Proof.
  induction evts as [|evt rest IH]; intros Hp; [reflexivity|].
  cbn [plain_events forallb] in Hp. apply andb_true_iff in Hp as [He Hrest].
  specialize (IH Hrest).
  change (map csv_line (evt :: rest) ++ [""])
    with (csv_line evt :: (map csv_line rest ++ [""])).
  destruct (map csv_line rest ++ [""]) as [|p ps] eqn:E.
  - destruct (map csv_line rest); discriminate E.
  - change (parse_lines (csv_line evt :: p :: ps))
      with (match parse_record (csv_line evt), parse_lines (p :: ps) with
            | Some e, Some es => Some (e :: es)
            | _, _ => None
            end).
    now rewrite (parse_record_line evt He), IH.
Qed.

Lemma split_length (sep : ascii) (s : string) :
  List.length (split_on sep s) = S (count_char sep s).
Proof.
  induction s as [|c s IH]; [reflexivity|].
  cbn [split_on count_char]. destruct (Ascii.eqb c sep).
  - cbn [List.length]. now rewrite IH.
  - destruct (split_on sep s) as [|p ps]; [discriminate IH|].
    cbn [List.length] in *. exact IH.
Qed.

Lemma count_char_app (c : ascii) (a b : string) :
  count_char c (a +++ b) = (count_char c a + count_char c b)%nat.
Proof.
  induction a as [|d a IH]; [reflexivity|].
  cbn [String.append count_char]. rewrite IH. lia.
Qed.

Lemma count_has_char (c : ascii) (s : string) :
  has_char c s = true -> (1 <= count_char c s)%nat.
Proof.
  induction s as [|d s IH]; [discriminate|].
  cbn [has_char count_char]. destruct (Ascii.eqb d c); [lia|].
  cbn [orb]. intros H. specialize (IH H). lia.
Qed.

(** The file a session leaves can be read back: when no tag holds a comma
    or a line break, the header followed by the records of a sequence of
    events parses, line by line and field by field, into exactly that
    sequence; so two different sequences never give the same file.  A tag
    with a comma in it breaks this: its line has more than five fields. *)
Theorem log_file_reads_back (evts : list InputEvent) :
  plain_events evts = true ->
  parse_file (csv_header +++ render evts) = Some evts /\
  (forall evts', plain_events evts' = true ->
                 render evts' = render evts -> evts' = evts) /\
  (forall evt, has_char comma (eventType evt) = true ->
               (6 <= List.length (split_on comma (csv_line evt)))%nat /\
               parse_record (csv_line evt) = None).
Proof.
  intros Hp.
  assert (Hfile : forall l, plain_events l = true ->
                            parse_file (csv_header +++ render l) = Some l).
  { intros l Hl. unfold parse_file, csv_header. rewrite sapp_assoc.
    change (nl +++ render l) with (String newline (render l)).
    rewrite split_on_field by reflexivity.
    rewrite String.eqb_refl, (split_lines_render l Hl).
    now apply parse_lines_render. }
  split; [now apply Hfile|]. split.
  - intros evts' Hp' E.
    pose proof (Hfile evts' Hp') as H1. rewrite E, (Hfile evts Hp) in H1.
    now injection H1.
  - intros evt Hc.
    assert (Hlen : (6 <= List.length (split_on comma (csv_line evt)))%nat).
    { rewrite split_length. unfold csv_line, csv_fields. cbn [String.concat].
      rewrite !count_char_app. pose proof (count_has_char _ _ Hc) as H1.
      change (count_char comma ",") with 1%nat. lia. }
    split; [exact Hlen|]. unfold parse_record.
    destruct (split_on comma (csv_line evt)) as [|a [|b [|c [|d [|e [|f r]]]]]];
      try reflexivity.
    cbn [List.length] in Hlen. lia.
Qed.

Lemma log_file_reads_back_witness :
  plain_events [key_q; click] = true /\
  parse_file (csv_header +++ render [key_q; click]) = Some [key_q; click].
Proof.
  split; [reflexivity|].
  exact (proj1 (log_file_reads_back [key_q; click] eq_refl)).
Defined.

(* ================================================================== *)
(** * Key names *)

Lemma toupper_fixed (c : ascii) :
  digit_or_capital (char_code c) = true -> toupper c = c.
Proof.
  unfold digit_or_capital, char_code, toupper. intros H.
  destruct ((97 <=? nat_of_ascii c)%nat && (nat_of_ascii c <=? 122)%nat) eqn:E;
    [|reflexivity].
  apply andb_true_iff in E as [E1 E2].
  apply Nat.leb_le in E1. lia.
Qed.

Lemma toupper_idem (c : ascii) : toupper (toupper c) = toupper c.
Proof.
  unfold toupper at 2 3.
  destruct ((97 <=? nat_of_ascii c)%nat && (nat_of_ascii c <=? 122)%nat) eqn:E.
  - apply andb_true_iff in E as [E1 E2].
    apply Nat.leb_le in E1, E2. unfold toupper.
    assert (Hn : nat_of_ascii (ascii_of_nat (nat_of_ascii c - 32))
                 = (nat_of_ascii c - 32)%nat)
      by (apply nat_ascii_embedding; lia).
    rewrite Hn.
    replace ((97 <=? nat_of_ascii c - 32)%nat) with false; [reflexivity|].
    symmetry. apply Nat.leb_gt. lia.
  - unfold toupper. now rewrite E.
Qed.

Lemma upper_idem (s : string) : upper (upper s) = upper s.
Proof.
  induction s as [|c s IH]; [reflexivity|].
  simpl. now rewrite toupper_idem, IH.
Qed.

Lemma char_code_of_code (v : Z) :
  digit_or_capital v = true -> char_code (ascii_of_nat (Z.to_nat v)) = v.
Proof.
  unfold digit_or_capital, char_code. intros H.
  rewrite nat_ascii_embedding; lia.
Qed.

Lemma eqb_one_char (c : ascii) (name : string) :
  (2 <= String.length name)%nat ->
  String.eqb (String c EmptyString) name = false.
Proof.
  destruct name as [|a [|b r]]; simpl; try lia. intros _.
  now destruct (Ascii.eqb c a).
Qed.

Lemma keyStringToVk_name (K : Win32) (vk : Z) :
  nameable K vk = true -> keyStringToVk K (vkCodeToString K vk) = vk.
Proof.
  unfold vkCodeToString, nameable.
  destruct (vk =? VK_CONTROL K)%Z eqn:E1.
  { apply Z.eqb_eq in E1. subst. reflexivity. }
  destruct (vk =? VK_SHIFT K)%Z eqn:E2.
  { apply Z.eqb_eq in E2. subst. reflexivity. }
  destruct (vk =? VK_MENU K)%Z eqn:E3.
  { apply Z.eqb_eq in E3. subst. reflexivity. }
  simpl orb. intros E4. rewrite E4.
  pose proof (char_code_of_code vk E4) as Hc.
  unfold keyStringToVk. simpl upper.
  rewrite toupper_fixed by (now rewrite Hc).
  rewrite !eqb_one_char by (simpl; lia).
  now rewrite Hc, E4.
Qed.

(** Naming a code and reading the name gives the code back, for every
    code that has a name of its own: the three named keys, the digits and
    the capitals.  The fallback name [VK(n)] of any other code is not
    recognised and reads as 0. *)
Theorem key_name_reads_back (K : Win32) (vk : Z) :
  keyStringToVk K (vkCodeToString K vk)
  = if nameable K vk then vk else 0.
Proof.
  destruct (nameable K vk) eqn:E.
  - exact (keyStringToVk_name K vk E).
  - unfold nameable in E.
    apply orb_false_iff in E as [E E4].
    apply orb_false_iff in E as [E E3].
    apply orb_false_iff in E as [E1 E2].
    unfold vkCodeToString. rewrite E1, E2, E3, E4.
    reflexivity.
Qed.

(** Reading a name and naming the code gives the name back in capitals,
    whenever the name is recognised. *)
Theorem key_code_names_back (K : Win32) (keyStr : string) :
  named_keys_apart K = true ->
  keyStringToVk K keyStr <> 0 ->
  vkCodeToString K (keyStringToVk K keyStr) = upper keyStr.
Proof.
  unfold named_keys_apart. intros Hk Hn.
  repeat (apply andb_true_iff in Hk as [Hk ?]).
  repeat match goal with H : negb _ = true |- _ => apply negb_true_iff in H end.
  unfold keyStringToVk in *.
  destruct (String.eqb (upper keyStr) "CTRL") eqn:E1.
  { apply String.eqb_eq in E1. rewrite E1. unfold vkCodeToString.
    now rewrite Z.eqb_refl. }
  destruct (String.eqb (upper keyStr) "SHIFT") eqn:E2.
  { apply String.eqb_eq in E2. rewrite E2. unfold vkCodeToString.
    rewrite Z.eqb_sym, Hk. now rewrite Z.eqb_refl. }
  destruct (String.eqb (upper keyStr) "ALT") eqn:E3.
  { apply String.eqb_eq in E3. rewrite E3. unfold vkCodeToString.
    rewrite Z.eqb_sym, H3. rewrite Z.eqb_sym, H2. now rewrite Z.eqb_refl. }
  destruct (upper keyStr) as [|c [|c' r]]; try contradiction.
  destruct (digit_or_capital (char_code c)) eqn:E4; [|contradiction].
  unfold vkCodeToString.
  assert (Hne : forall v, digit_or_capital v = false ->
                          (char_code c =? v)%Z = false).
  { intros v Hv. apply Z.eqb_neq. intros <-. congruence. }
  rewrite !Hne by assumption. rewrite E4.
  unfold char_code. now rewrite Nat2Z.id, ascii_nat_embedding.
Qed.

Lemma key_code_names_back_witness :
  named_keys_apart winuser = true /\
  keyStringToVk winuser "ctrl" <> 0 /\
  vkCodeToString winuser (keyStringToVk winuser "ctrl") = "CTRL" /\
  vkCodeToString winuser (keyStringToVk winuser "q") = "Q".
Proof.
  split; [reflexivity|]. split; [discriminate|]. split.
  - apply (key_code_names_back winuser "ctrl"); [reflexivity | discriminate].
  - apply (key_code_names_back winuser "q"); [reflexivity | discriminate].
Defined.

(** [keyStringToVk] does not look at the case of its argument, and what it
    recognises is little: the three names and the single digits and
    letters.  Any other text, the empty one included, reads as 0. *)
Theorem key_names_recognised (K : Win32) (keyStr : string) :
  keyStringToVk K (upper keyStr) = keyStringToVk K keyStr /\
  (nameable K (keyStringToVk K keyStr) = true \/ keyStringToVk K keyStr = 0) /\
  (upper keyStr <> "CTRL" -> upper keyStr <> "SHIFT" -> upper keyStr <> "ALT" ->
   String.length keyStr <> 1%nat -> keyStringToVk K keyStr = 0).
Proof.
  split; [|split].
  - unfold keyStringToVk. now rewrite upper_idem.
  - unfold keyStringToVk, nameable.
    destruct (String.eqb (upper keyStr) "CTRL");
      [left; now rewrite Z.eqb_refl|].
    destruct (String.eqb (upper keyStr) "SHIFT");
      [left; rewrite Z.eqb_refl; now rewrite !orb_true_r|].
    destruct (String.eqb (upper keyStr) "ALT");
      [left; rewrite Z.eqb_refl; now rewrite !orb_true_r|].
    destruct (upper keyStr) as [|c [|c' r]]; try (right; reflexivity).
    destruct (digit_or_capital (char_code c)) eqn:E; [left | right; reflexivity].
    now rewrite E, !orb_true_r.
  - intros H1 H2 H3 Hl. unfold keyStringToVk.
    apply String.eqb_neq in H1, H2, H3. rewrite H1, H2, H3.
    assert (Hlen : String.length (upper keyStr) = String.length keyStr).
    { clear. induction keyStr as [|c s IH]; simpl; congruence. }
    destruct (upper keyStr) as [|c [|c' r]]; try reflexivity.
    simpl in Hlen. congruence.
Qed.

Lemma key_names_recognised_witness :
  keyStringToVk winuser (upper "shift") = keyStringToVk winuser "shift" /\
  keyStringToVk winuser "F1" = 0.
Proof.
  split.
  - exact (proj1 (key_names_recognised winuser "shift")).
  - apply (proj2 (proj2 (key_names_recognised winuser "F1")));
      discriminate.
Defined.

(* ================================================================== *)
(** * The tracker's keys and producers *)

Lemma collect_keys_filter (K : Win32) (keys : list string) (newVk : list Z) :
  collect_keys K keys newVk
  = newVk ++ filter (fun vk => negb (vk =? 0)%Z) (map (keyStringToVk K) keys).
Proof.
  revert newVk. induction keys as [|k rest IH]; intros newVk.
  - simpl. now rewrite app_nil_r.
  - simpl. rewrite IH. destruct (keyStringToVk K k =? 0)%Z; simpl.
    + reflexivity.
    + now rewrite <- app_assoc.
Qed.

Lemma isTracked_In (vkCode : Z) (keys : list Z) :
  isTracked vkCode keys = true <-> In vkCode keys.
Proof.
  induction keys as [|code rest IH]; simpl.
  - split; [discriminate | contradiction].
  - destruct (code =? vkCode)%Z eqn:E.
    + apply Z.eqb_eq in E. split; auto.
    + apply Z.eqb_neq in E. rewrite IH. split; [auto | intros [H | H]; congruence].
Qed.

Lemma setTrackedKeys_filter (K : Win32) (keys : list string)
      (g : TrackerConfig) :
  trackedKeys (setTrackedKeys K keys g)
  = filter (fun vk => negb (vk =? 0)%Z) (map (keyStringToVk K) keys).
Proof. unfold setTrackedKeys. simpl. now rewrite collect_keys_filter. Qed.

(** [setTrackedKeys] replaces the tracked keys by the codes of the names it
    recognises, in the order given, and drops the others without a word:
    a code is tracked afterwards exactly when it is not 0 and is the code
    of one of the names; no list of names makes 0 tracked; the count it
    prints is the number of keys kept, which may be less than the number
    of names given, and is 0 when none is recognised; the keys tracked
    before are forgotten. *)
Theorem setTrackedKeys_keeps_recognised (K : Win32) (keys : list string)
        (g : TrackerConfig) :
  trackedKeys (setTrackedKeys K keys g)
  = filter (fun vk => negb (vk =? 0)%Z) (map (keyStringToVk K) keys) /\
  (forall vk, In vk (trackedKeys (setTrackedKeys K keys g)) <->
              vk <> 0 /\ exists k, In k keys /\ keyStringToVk K k = vk) /\
  isTracked 0 (trackedKeys (setTrackedKeys K keys g)) = false /\
  (List.length (trackedKeys (setTrackedKeys K keys g)) <= List.length keys)%nat /\
  cout (setTrackedKeys K keys g)
  = cout g ++ ["Tracked keys updated. Count = "
               +++ dec (Z.of_nat (List.length (trackedKeys (setTrackedKeys K keys g))))
               +++ nl] /\
  ((forall k, In k keys -> keyStringToVk K k = 0) ->
   trackedKeys (setTrackedKeys K keys g) = []).
Proof.
  assert (E : trackedKeys (setTrackedKeys K keys g)
              = filter (fun vk => negb (vk =? 0)%Z) (map (keyStringToVk K) keys)).
  { exact (setTrackedKeys_filter K keys g). }
  assert (Hin : forall vk, In vk (trackedKeys (setTrackedKeys K keys g)) <->
                           vk <> 0 /\ exists k, In k keys /\ keyStringToVk K k = vk).
  { intros vk. rewrite E, filter_In, in_map_iff, negb_true_iff, Z.eqb_neq.
    split.
    - intros [[k [Hk Hi]] Hn]. split; [exact Hn|]. exists k. now split.
    - intros [Hn [k [Hi Hk]]]. split; [|exact Hn]. exists k. now split. }
  split; [exact E|]. split; [exact Hin|]. split; [|split; [|split]].
  - destruct (isTracked 0 (trackedKeys (setTrackedKeys K keys g))) eqn:Ht;
      [|reflexivity].
    apply isTracked_In, Hin in Ht. now destruct Ht.
  - rewrite E. etransitivity; [apply filter_length_le|]. now rewrite length_map.
  - reflexivity.
  - intros Hall. rewrite E. clear E Hin.
    induction keys as [|k rest IH]; [reflexivity|].
    simpl. rewrite (Hall k (or_introl eq_refl)). simpl.
    apply IH. intros k' Hk'. apply Hall. now right.
Qed.

Lemma setTrackedKeys_witness :
  trackedKeys (setTrackedKeys winuser ["q"; "F1"; "ctrl"; ""] (g_config winuser))
  = [81; 17] /\
  trackedKeys (setTrackedKeys winuser ["F1"; "escape"] (g_config winuser)) = [].
Proof.
  split.
  - rewrite (proj1 (setTrackedKeys_keeps_recognised winuser _ _)). reflexivity.
  - apply (proj2 (proj2 (proj2 (proj2 (proj2
             (setTrackedKeys_keeps_recognised winuser ["F1"; "escape"]
                (g_config winuser))))))).
    intros k [<- | [<- | []]]; reflexivity.
Defined.

Lemma keyboard_hook_event (K : Win32) (g : TrackerConfig)
      (nCode wParam vkCode time : Z) (pt : POINT) (evt : InputEvent) :
  LowLevelKeyboardProc K g nCode wParam vkCode time pt = Some evt ->
  0 <= nCode /\ isRunning g = true /\ In vkCode (trackedKeys g) /\
  evt = mkInputEvent (eventType evt) time pt vkCode /\
  (eventType evt = "KEY_DOWN" /\
   (wParam = WM_KEYDOWN K \/ wParam = WM_SYSKEYDOWN K) \/
   eventType evt = "KEY_UP" /\
   (wParam = WM_KEYUP K \/ wParam = WM_SYSKEYUP K)).
Proof.
  intros H. unfold LowLevelKeyboardProc in H.
  destruct (nCode >=? 0)%Z eqn:En; [|discriminate H].
  destruct (isRunning g) eqn:Er; [|discriminate H]. simpl in H.
  destruct (isTracked vkCode (trackedKeys g)) eqn:Et; [|discriminate H].
  simpl in H. apply isTracked_In in Et.
  split; [lia|]. split; [reflexivity|]. split; [exact Et|].
  destruct ((wParam =? WM_KEYDOWN K)%Z || (wParam =? WM_SYSKEYDOWN K)%Z) eqn:Ed.
  - injection H as <-. split; [reflexivity|]. left. split; [reflexivity|].
    apply orb_true_iff in Ed as [Ed | Ed]; apply Z.eqb_eq in Ed; auto.
  - destruct ((wParam =? WM_KEYUP K)%Z || (wParam =? WM_SYSKEYUP K)%Z) eqn:Eu;
      [|discriminate H].
    injection H as <-. split; [reflexivity|]. right. split; [reflexivity|].
    apply orb_true_iff in Eu as [Eu | Eu]; apply Z.eqb_eq in Eu; auto.
Qed.

(** The keyboard hook logs a key only while the tracker runs, only for a
    message it is given as valid ([nCode >= 0]), only for a tracked key and
    only for the four key messages; the event carries the code of the key,
    the time and the cursor position it was given.  Tracking a key by the
    name [vkCodeToString] gives it makes the hook log that key's presses
    and no other key's. *)
Theorem keyboard_hook_logs_tracked_keys (K : Win32) (g : TrackerConfig)
        (nCode wParam vkCode time : Z) (pt : POINT) :
  (forall evt,
      LowLevelKeyboardProc K g nCode wParam vkCode time pt = Some evt ->
      0 <= nCode /\ isRunning g = true /\ In vkCode (trackedKeys g) /\
      evt = mkInputEvent (eventType evt) time pt vkCode /\
      (eventType evt = "KEY_DOWN" /\
       (wParam = WM_KEYDOWN K \/ wParam = WM_SYSKEYDOWN K) \/
       eventType evt = "KEY_UP" /\
       (wParam = WM_KEYUP K \/ wParam = WM_SYSKEYUP K))) /\
  (forall vk,
      nameable K vk = true -> vk <> 0 -> 0 <= nCode -> isRunning g = true ->
      LowLevelKeyboardProc K (setTrackedKeys K [vkCodeToString K vk] g)
                           nCode (WM_KEYDOWN K) vkCode time pt
      = if (vk =? vkCode)%Z then Some (mkInputEvent "KEY_DOWN" time pt vkCode)
        else None).
Proof.
  split.
  - intros evt. exact (keyboard_hook_event K g nCode wParam vkCode time pt evt).
  - intros vk Hn Hz Hc Hr. unfold LowLevelKeyboardProc.
    assert (Hk : trackedKeys (setTrackedKeys K [vkCodeToString K vk] g) = [vk]).
    { rewrite (setTrackedKeys_filter K _ g). simpl.
      rewrite (keyStringToVk_name K vk Hn).
      apply Z.eqb_neq in Hz. now rewrite Hz. }
    rewrite Hk. replace (isRunning (setTrackedKeys K [vkCodeToString K vk] g))
      with true by (symmetry; exact Hr).
    replace (nCode >=? 0)%Z with true by (symmetry; apply Z.geb_le; lia).
    simpl. destruct (vk =? vkCode)%Z; simpl; [|reflexivity].
    now rewrite Z.eqb_refl.
Qed.

Lemma keyboard_hook_witness :
  LowLevelKeyboardProc winuser (mkTracker true 20 [81] None None
                                          running_logger 1 [] [])
                       0 256 81 100 (mkPOINT 5 9) = Some key_q /\
  isRunning (mkTracker true 20 [81] None None running_logger 1 [] []) = true /\
  LowLevelKeyboardProc winuser
    (setTrackedKeys winuser [vkCodeToString winuser 81]
       (mkTracker true 20 [] None None running_logger 1 [] []))
    0 (WM_KEYDOWN winuser) 81 100 (mkPOINT 5 9) = Some key_q.
Proof.
  split; [reflexivity|]. split; [reflexivity|].
  rewrite (proj2 (keyboard_hook_logs_tracked_keys winuser
                    (mkTracker true 20 [] None None running_logger 1 [] [])
                    0 (WM_KEYDOWN winuser) 81 100 (mkPOINT 5 9))
                 81 eq_refl);
    [reflexivity | discriminate | lia | reflexivity].
Defined.

Lemma poller_exited (steps : list (TrackerConfig * option POINT * Z)) :
  cursorPollingThread steps P_Exited = (P_Exited, []).
Proof.
  induction steps as [|[[g cursor] time] rest IH]; [reflexivity|].
  rewrite poller_cons. cbn [cursorPoll fst snd]. now rewrite IH.
Qed.

(** Once the flag stays cleared a polling thread hands over at most the
    event it was about to hand over, and nothing if it stood elsewhere. *)
Lemma poller_winds_down (steps : list (TrackerConfig * option POINT * Z)) :
  forall pc : PollPc,
    flag_cleared steps = true ->
    (List.length (snd (cursorPollingThread steps pc)) <= 1)%nat /\
    match pc with
    | P_Cursor | P_Log _ => True
    | _ => snd (cursorPollingThread steps pc) = []
    end.
Proof.
  induction steps as [|[[g cursor] time] rest IH]; intros pc Hf.
  - split; [simpl; lia | now destruct pc].
  - cbn [flag_cleared forallb fst] in Hf. apply andb_true_iff in Hf as [Hg Hrest].
    apply negb_true_iff in Hg. rewrite poller_cons. cbn [snd].
    destruct pc as [| |e| |]; cbn [cursorPoll fst snd]; rewrite ?Hg.
    + destruct (IH P_Exited Hrest) as [H1 H2]. now split.
    + split; [|exact I].
      destruct cursor as [pt|]; cbn [fst snd]; now apply IH.
    + split; [|exact I].
      destruct (IH P_Sleep Hrest) as [_ H2]. rewrite H2. simpl. lia.
    + destruct (IH P_Test Hrest) as [H1 H2]. now split.
    + destruct (IH P_Exited Hrest) as [H1 H2]. now split.
Qed.

(** Every event handed to [logEvent] by a hook or by a polling thread has
    one of the seven tags, which hold no comma and no line break, carries
    key code 0 or the code of a tracked key, and has a record that reads
    back as the event itself.  The hooks hand nothing over while the
    tracker's flag is cleared.  A polling thread loads the flag at the
    head of its loop only: an event it hands over follows a load that
    found the flag set, but the flag may be cleared by the time of the
    hand-over, which then takes place all the same; once the flag stays
    cleared the thread hands over at most one more event, none if it was
    at the head of its loop, and ends at its next test. *)
Theorem produced_events_read_back (K : Win32) (g : TrackerConfig)
        (evt : InputEvent) :
  (produced K g evt ->
   In (eventType evt) producer_tags /\
   plain_tag (eventType evt) = true /\
   (keyCode evt = 0 \/ In (keyCode evt) (trackedKeys g)) /\
   parse_record (csv_line evt) = Some evt) /\
  (hooked K g evt -> isRunning g = true) /\
  (forall steps,
      In evt (snd (cursorPollingThread steps P_Test)) ->
      (exists time pt, evt = cursorPollEvent time pt) /\
      flag_cleared steps = false) /\
  (forall steps pc,
      flag_cleared steps = true ->
      (List.length (snd (cursorPollingThread steps pc)) <= 1)%nat /\
      snd (cursorPollingThread steps P_Test) = [] /\
      (steps <> [] -> fst (cursorPollingThread steps P_Test) = P_Exited)) /\
  (forall g_on g_off c1 t1 pt time c3 t3,
      isRunning g_on = true ->
      cursorPollingThread [(g_on, c1, t1); (g_off, Some pt, time);
                           (g_off, c3, t3)] P_Test
      = (P_Sleep, [cursorPollEvent time pt])).
Proof.
  assert (Hpoll : forall steps e,
             In e (snd (cursorPollingThread steps P_Test)) ->
             exists time pt, e = cursorPollEvent time pt).
  { intros steps e H.
    apply (poller_hands_poll_events steps P_Test); [|exact H].
    intros e0 He. discriminate He. }
  split; [|split; [|split; [|split]]].
  - intros H.
    assert (G : In (eventType evt) producer_tags /\
                (keyCode evt = 0 \/ In (keyCode evt) (trackedKeys g))).
    { destruct H as [[[nCode [wParam [vkCode [time [pt H]]]]]
                     | [nCode [wParam [time [pt H]]]]] | [steps H]].
      - destruct (keyboard_hook_event K g nCode wParam vkCode time pt evt H)
          as [_ [Hr [Ht [He Hty]]]].
        split.
        + destruct Hty as [[-> _] | [-> _]]; simpl; auto 10.
        + right. rewrite He. exact Ht.
      - destruct (mouse_hook_event K g nCode wParam time pt evt H)
          as [_ [tag [-> Htag]]].
        split; [|now left]. simpl in Htag. simpl.
        repeat (destruct Htag as [<- | Htag]; [auto 10|]). contradiction.
      - destruct (Hpoll steps evt H) as [time [pt ->]].
        split; [simpl; auto 10 | now left]. }
    destruct G as [Ht Hk].
    assert (Hp : plain_tag (eventType evt) = true).
    { unfold producer_tags in Ht. simpl in Ht.
      repeat (destruct Ht as [<- | Ht]; [reflexivity|]). contradiction. }
    repeat (split; [assumption|]). now apply parse_record_line.
  - intros [[nCode [wParam [vkCode [time [pt H]]]]]
           | [nCode [wParam [time [pt H]]]]].
    + now destruct (keyboard_hook_event K g nCode wParam vkCode time pt evt H)
        as [_ [Hr _]].
    + now destruct (mouse_hook_event K g nCode wParam time pt evt H) as [Hr _].
  - intros steps H. split; [exact (Hpoll steps evt H)|].
    destruct (flag_cleared steps) eqn:Hf; [|reflexivity].
    destruct (poller_winds_down steps P_Test Hf) as [_ H0].
    rewrite H0 in H. contradiction.
  - intros steps pc Hf.
    split; [exact (proj1 (poller_winds_down steps pc Hf))|].
    split; [exact (proj2 (poller_winds_down steps P_Test Hf))|].
    intros Hne. destruct steps as [|[[g0 cursor] time] rest]; [contradiction|].
    cbn [flag_cleared forallb fst] in Hf. apply andb_true_iff in Hf as [Hg _].
    apply negb_true_iff in Hg. rewrite poller_cons. cbn [cursorPoll fst snd].
    rewrite Hg. now rewrite poller_exited.
  - intros g_on g_off c1 t1 pt time c3 t3 Hon.
    rewrite !poller_cons. cbn [cursorPoll fst snd]. rewrite Hon.
    reflexivity.
Qed.

Lemma produced_events_witness :
  produced winuser (mkTracker true 20 [81] None None running_logger 1 [] []) key_q /\
  parse_record (csv_line key_q) = Some key_q /\
  In (cursorPollEvent 7 (mkPOINT 3 4))
     (snd (cursorPollingThread
             [(mkTracker true 20 [81] None None running_logger 1 [] [], None, 0);
              (g_config winuser, Some (mkPOINT 3 4), 7);
              (g_config winuser, None, 0)] P_Test)) /\
  flag_cleared
    [(mkTracker true 20 [81] None None running_logger 1 [] [], None, 0);
     (g_config winuser, Some (mkPOINT 3 4), 7);
     (g_config winuser, None, 0)] = false.
Proof.
  assert (H : produced winuser
                (mkTracker true 20 [81] None None running_logger 1 [] []) key_q).
  { left. left. exists 0, 256, 81, 100, (mkPOINT 5 9). reflexivity. }
  split; [exact H|].
  destruct (produced_events_read_back winuser
              (mkTracker true 20 [81] None None running_logger 1 [] []) key_q)
    as [H1 _].
  split; [exact (proj2 (proj2 (proj2 (H1 H))))|].
  destruct (produced_events_read_back winuser (g_config winuser)
              (cursorPollEvent 7 (mkPOINT 3 4))) as [_ [_ [H3 [_ H5]]]].
  assert (Hin : In (cursorPollEvent 7 (mkPOINT 3 4))
     (snd (cursorPollingThread
             [(mkTracker true 20 [81] None None running_logger 1 [] [], None, 0);
              (g_config winuser, Some (mkPOINT 3 4), 7);
              (g_config winuser, None, 0)] P_Test))).
  { rewrite (H5 (mkTracker true 20 [81] None None running_logger 1 [] [])
                (g_config winuser) None 0 (mkPOINT 3 4) 7 None 0 eq_refl).
    now left. }
  split; [exact Hin|]. exact (proj2 (H3 _ Hin)).
Defined.

(* ================================================================== *)
(** * Command lines *)

Lemma sapp_one (a : string) (c : ascii) (b : string) :
  (a +++ String c EmptyString) +++ b = a +++ String c b.
Proof. now rewrite sapp_assoc. Qed.

Lemma all_chars_app (p : ascii -> bool) (a b : string) :
  all_chars p (a +++ b) = all_chars p a && all_chars p b.
Proof.
  induction a as [|c a IH]; [reflexivity|].
  simpl. now rewrite IH, andb_assoc.
Qed.

Lemma eqb_empty_app (a : string) (c : ascii) :
  String.eqb (a +++ String c EmptyString) "" = false.
Proof. now destruct a. Qed.

Lemma read_tokens_tokens (line : string) :
  forall cur, all_chars (fun c => negb (isspace c)) cur = true ->
              forallb is_token (read_tokens line cur) = true.
Proof.
  induction line as [|c rest IH]; intros cur Hc; simpl.
  - destruct (String.eqb cur "") eqn:E; [reflexivity|].
    simpl. unfold is_token. now rewrite E, Hc.
  - destruct (isspace c) eqn:Es.
    + destruct (String.eqb cur "") eqn:E; [now apply IH|].
      simpl. unfold is_token at 1. rewrite E, Hc. now apply IH.
    + apply IH. rewrite all_chars_app, Hc. simpl. now rewrite Es.
Qed.

Lemma read_tokens_concat (line : string) :
  forall cur, String.concat "" (read_tokens line cur) = cur +++ drop_spaces line.
Proof.
  assert (Hcons : forall t ts, String.concat "" (t :: ts)
                               = t +++ String.concat "" ts).
  { intros t [|t' ts]; simpl; [now rewrite sapp_nil_r | reflexivity]. }
  induction line as [|c rest IH]; intros cur; simpl.
  - destruct (String.eqb cur "") eqn:E.
    + apply String.eqb_eq in E. now subst.
    + simpl. now rewrite sapp_nil_r.
  - destruct (isspace c).
    + destruct (String.eqb cur "") eqn:E.
      * apply String.eqb_eq in E. subst. apply IH.
      * rewrite Hcons, IH. reflexivity.
    + rewrite IH. apply sapp_one.
Qed.

Lemma read_tokens_word (t : string) :
  forall tail cur,
    all_chars (fun c => negb (isspace c)) t = true ->
    read_tokens (t +++ tail) cur = read_tokens tail (cur +++ t).
Proof.
  induction t as [|c t IH]; intros tail cur Ht; simpl.
  - now rewrite sapp_nil_r.
  - simpl in Ht. apply andb_true_iff in Ht as [Hc Ht].
    apply negb_true_iff in Hc. rewrite Hc, (IH _ _ Ht). now rewrite sapp_one.
Qed.

(** [splitTokens] cuts a line at its white space: every token it returns
    is non-empty and free of white space, and the tokens joined end to end
    are the line with its white space removed, so no other character is
    lost; a blank line gives no token.  Tokens joined by single spaces
    split into themselves again. *)
Theorem splitTokens_cuts_at_spaces (line : string) (tokens : list string) :
  forallb is_token (splitTokens line) = true /\
  String.concat "" (splitTokens line) = drop_spaces line /\
  (drop_spaces line = "" -> splitTokens line = []) /\
  (forallb is_token tokens = true ->
   splitTokens (String.concat " " tokens) = tokens).
Proof.
  split; [|split; [|split]].
  - now apply read_tokens_tokens.
  - apply read_tokens_concat.
  - intros Hd. pose proof (read_tokens_concat line "") as Hc.
    pose proof (read_tokens_tokens line "" eq_refl) as Ht.
    fold (splitTokens line) in Hc, Ht. rewrite Hd in Hc.
    destruct (splitTokens line) as [|t ts]; [reflexivity|].
    simpl in Ht. apply andb_true_iff in Ht as [Ht _].
    unfold is_token in Ht. apply andb_true_iff in Ht as [Ht _].
    destruct t; [discriminate Ht|].
    destruct ts; discriminate Hc.
  - unfold splitTokens. induction tokens as [|t ts IH]; intros Ht; [reflexivity|].
    simpl in Ht. apply andb_true_iff in Ht as [H1 H2].
    unfold is_token in H1. apply andb_true_iff in H1 as [Hne Hws].
    apply negb_true_iff in Hne.
    destruct ts as [|t' ts].
    + simpl. rewrite <- (sapp_nil_r t) at 1.
      rewrite (read_tokens_word t "" "" Hws). simpl. now rewrite Hne.
    + change (String.concat " " (t :: t' :: ts))
        with (t +++ String " " (String.concat " " (t' :: ts))).
      rewrite (read_tokens_word t _ "" Hws).
      change (read_tokens (String " " (String.concat " " (t' :: ts))) ("" +++ t))
        with (if String.eqb t "" then read_tokens (String.concat " " (t' :: ts)) ""
              else t :: read_tokens (String.concat " " (t' :: ts)) "").
      rewrite Hne. now rewrite (IH H2).
Qed.

Lemma splitTokens_witness :
  forallb is_token ["setkeys"; "q"; "ctrl"] = true /\
  splitTokens "setkeys q ctrl" = ["setkeys"; "q"; "ctrl"] /\
  splitTokens "   " = [].
Proof.
  split; [reflexivity|]. split.
  - exact (proj2 (proj2 (proj2 (splitTokens_cuts_at_spaces ""
                                  ["setkeys"; "q"; "ctrl"]))) eq_refl).
  - exact (proj1 (proj2 (proj2 (splitTokens_cuts_at_spaces "   " []))) eq_refl).
Defined.

(** ** Numbers on the command line *)

Lemma digit_char_plain (c : ascii) :
  digit_char c = true ->
  isspace c = false /\ Ascii.eqb c "-" = false /\ Ascii.eqb c "+" = false.
Proof.
  unfold digit_char, isspace. intros H.
  apply andb_true_iff in H as [H1 H2]. apply Nat.leb_le in H1, H2.
  split; [|split].
  - apply orb_false_iff. split.
    + apply andb_false_iff. right. apply Nat.leb_gt. lia.
    + apply Nat.eqb_neq. lia.
  - apply Ascii.eqb_neq. intros ->. vm_compute in H1. lia.
  - apply Ascii.eqb_neq. intros ->. vm_compute in H1. lia.
Qed.

Lemma read_digits_acc (d : Decimal.uint) :
  forall (acc : positive) (tail : string),
    read_digits (NilEmpty.string_of_uint d +++ tail) (Z.pos acc) true
    = read_digits tail (Z.pos (Pos.of_uint_acc d acc)) true.
Proof.
  induction d; intros acc tail;
    cbn -[Z.mul Z.add Pos.mul Pos.add digit_value]; try reflexivity;
    rewrite <- IHd;
    match goal with
    | |- context [digit_char ?c] => change (digit_char c) with true
    end;
    cbv iota; f_equal; vm_compute digit_value; lia.
Qed.

Lemma read_digits_uint (d : Decimal.uint) :
  forall tail : string,
    read_digits (NilEmpty.string_of_uint d +++ tail) 0 true
    = read_digits tail (Z.of_N (Pos.of_uint d)) true.
Proof.
  induction d; intros tail;
    cbn -[Z.mul Z.add Pos.mul Pos.add digit_value]; try reflexivity;
    match goal with
    | |- context [digit_char ?c] => change (digit_char c) with true
    end;
    cbv iota; vm_compute digit_value;
    try apply IHd; apply (read_digits_acc d _ tail).
Qed.

Lemma read_digits_first (d : Decimal.uint) (tail : string) :
  d <> Decimal.Nil ->
  read_digits (NilEmpty.string_of_uint d +++ tail) 0 false
  = read_digits tail (Z.of_N (Pos.of_uint d)) true /\
  exists c r, NilEmpty.string_of_uint d = String c r /\ digit_char c = true.
Proof.
  intros Hd. destruct d; try contradiction;
    cbn -[Z.mul Z.add Pos.mul Pos.add digit_value]; split;
    try (eexists; eexists; split; reflexivity);
    match goal with
    | |- context [digit_char ?c] => change (digit_char c) with true
    end;
    cbv iota; vm_compute digit_value;
    try apply (read_digits_uint d tail); apply (read_digits_acc d _ tail).
Qed.

Lemma read_digits_stop (tail : string) (v : Z) :
  stops_digits tail = true -> read_digits tail v true = Some v.
Proof.
  destruct tail as [|c r]; simpl; [reflexivity|].
  intros H. apply negb_true_iff in H. now rewrite H.
Qed.

Lemma stoi_unsigned (c : ascii) (r : string) :
  digit_char c = true ->
  stoi (String c r)
  = match read_digits (String c r) 0 false with
    | None => None
    | Some v => if (INT_MIN <=? v)%Z && (v <=? INT_MAX)%Z then Some v else None
    end.
Proof.
  intros Hc. destruct (digit_char_plain c Hc) as [H1 [H2 H3]].
  unfold stoi.
  change (skip_spaces (String c r))
    with (if isspace c then skip_spaces r else String c r).
  rewrite H1, H2, H3. reflexivity.
Qed.

Lemma stoi_negative (r : string) :
  stoi (String "-" r)
  = match read_digits r 0 false with
    | None => None
    | Some v => if (INT_MIN <=? - v)%Z && (- v <=? INT_MAX)%Z then Some (- v)
                else None
    end.
Proof. reflexivity. Qed.

Lemma stoi_dec (z : Z) (tail : string) :
  stops_digits tail = true ->
  stoi (dec z +++ tail)
  = if (INT_MIN <=? z)%Z && (z <=? INT_MAX)%Z then Some z else None.
Proof.
  intros Ht. unfold dec. destruct z as [|p|p].
  - change (NilZero.string_of_int (Z.to_int 0) +++ tail) with (String "0" tail).
    rewrite stoi_unsigned by reflexivity.
    change (read_digits (String "0" tail) 0 false) with (read_digits tail 0 true).
    now rewrite (read_digits_stop tail 0 Ht).
  - pose proof (DecimalPos.Unsigned.to_uint_nonnil p) as Hn.
    destruct (read_digits_first (Pos.to_uint p) tail Hn) as [Hr [c [r [Hs Hc]]]].
    assert (E : NilZero.string_of_int (Z.to_int (Z.pos p))
                = NilEmpty.string_of_uint (Pos.to_uint p)).
    { unfold Z.to_int, NilZero.string_of_int, NilZero.string_of_uint.
      destruct (Pos.to_uint p); [contradiction | reflexivity ..]. }
    rewrite E. pose proof Hr as Hr'. rewrite Hs in Hr' |- *.
    change (String c r +++ tail) with (String c (r +++ tail)) in *.
    rewrite (stoi_unsigned c _ Hc), Hr', DecimalPos.Unsigned.of_to.
    now rewrite (read_digits_stop tail _ Ht).
  - pose proof (DecimalPos.Unsigned.to_uint_nonnil p) as Hn.
    destruct (read_digits_first (Pos.to_uint p) tail Hn) as [Hr _].
    assert (E : NilZero.string_of_int (Z.to_int (Z.neg p))
                = String "-" (NilEmpty.string_of_uint (Pos.to_uint p))).
    { unfold Z.to_int, NilZero.string_of_int, NilZero.string_of_uint.
      destruct (Pos.to_uint p); [contradiction | reflexivity ..]. }
    rewrite E.
    change (String "-" (NilEmpty.string_of_uint (Pos.to_uint p)) +++ tail)
      with (String "-" (NilEmpty.string_of_uint (Pos.to_uint p) +++ tail)).
    rewrite stoi_negative, Hr, DecimalPos.Unsigned.of_to.
    now rewrite (read_digits_stop tail _ Ht).
Qed.

Lemma stoi_skip (c : ascii) (s : string) :
  isspace c = true -> stoi (String c s) = stoi s.
Proof.
  intros Hc. unfold stoi.
  change (skip_spaces (String c s))
    with (if isspace c then skip_spaces s else String c s).
  now rewrite Hc.
Qed.

Lemma stoi_fits (t : string) (v : Z) : stoi t = Some v -> fits_int v = true.
Proof.
  unfold stoi, fits_int.
  destruct (match skip_spaces t with
            | EmptyString => (false, skip_spaces t)
            | String c rest =>
                if Ascii.eqb c "-" then (true, rest)
                else if Ascii.eqb c "+" then (false, rest)
                else (false, skip_spaces t)
            end) as [negative digits].
  destruct (read_digits digits 0 false) as [u|]; [|discriminate].
  destruct ((INT_MIN <=? (if negative then - u else u))%Z
            && ((if negative then - u else u) <=? INT_MAX)%Z) eqn:E;
    [|discriminate].
  intros H. injection H as <-. exact E.
Qed.

Lemma from_first_space_word (w rest : string) :
  has_char " " w = false ->
  from_first_space (w +++ String " " rest) = Some (String " " rest) /\
  from_first_space w = None.
Proof.
  induction w as [|c w IH]; intros Hw.
  - split; reflexivity.
  - simpl in Hw. apply orb_false_iff in Hw as [Hc Hw].
    destruct (IH Hw) as [H1 H2]. simpl. rewrite Hc. now split.
Qed.

(** The polling interval a [start] command asks for, in both command
    loops: a number written in decimal after the command is read as that
    number when it fits an [int], whatever follows its digits; without an
    argument, with one that does not begin with a number, or with a number
    too large, the interval is the default 20.  [main.cpp] reads the number
    after the first space of the line, whatever precedes it. *)
Theorem start_interval_read (cmd w tail : string) (more : list string) (z : Z) :
  stops_digits tail = true -> has_char " " w = false ->
  start_interval (cmd :: (dec z +++ tail) :: more)
  = (if fits_int z then z else 20) /\
  start_interval2 (w +++ String " " (dec z +++ tail))
  = (if fits_int z then z else 20) /\
  start_interval [cmd] = 20 /\
  start_interval2 w = 20 /\
  (forall t, stoi t = None -> start_interval (cmd :: t :: more) = 20) /\
  (forall t v, stoi t = Some v -> INT_MIN <= v <= INT_MAX).
Proof.
  intros Ht Hw. destruct (from_first_space_word w (dec z +++ tail) Hw) as [H1 H2].
  split; [|split; [|split; [|split; [|split]]]].
  - unfold start_interval. rewrite (stoi_dec z tail Ht). unfold fits_int.
    now destruct ((INT_MIN <=? z)%Z && (z <=? INT_MAX)%Z).
  - unfold start_interval2. rewrite H1, stoi_skip by reflexivity.
    rewrite (stoi_dec z tail Ht). unfold fits_int.
    now destruct ((INT_MIN <=? z)%Z && (z <=? INT_MAX)%Z).
  - reflexivity.
  - unfold start_interval2. now rewrite H2.
  - intros t Hn. unfold start_interval. now rewrite Hn.
  - intros t v Hv. apply stoi_fits in Hv. unfold fits_int in Hv.
    apply andb_true_iff in Hv as [Ha Hb]. lia.
Qed.

Lemma start_interval_witness :
  stops_digits "ms" = true /\ has_char " " "startup" = false /\
  start_interval ["start"; "50ms"] = 50 /\
  start_interval2 "startup 50ms" = 50 /\
  start_interval ["start"; "99999999999"] = 20.
Proof.
  split; [reflexivity|]. split; [reflexivity|].
  destruct (start_interval_read "start" "startup" "ms" [] 50 eq_refl eq_refl)
    as [H1 [H2 _]].
  split; [exact H1|]. split; [exact H2|].
  exact (proj1 (start_interval_read "start" "" "" [] 99999999999 eq_refl eq_refl)).
Defined.

(* ================================================================== *)
(** * Starting and stopping the tracker *)

Lemma idle_step (a : Action) (s s' : Sys) :
  is_call a = false -> owner s = C_Idle -> step a s = Some s' ->
  owner s' = C_Idle /\ m_running (store s') = m_running (store s).
Proof.
  destruct s as [st ft pc]. simpl. intros Ha -> H.
  destruct a as [m|ok|ok|evt|]; try discriminate Ha;
    unfold step, owner_step, flush_step, log_step, tick in H;
    simpl in H; rewrite ?drain_locked_all in H.
  - discriminate H.
  - destruct ft as [| |[|n]| | |buf|]; try discriminate H;
      repeat match type of H with
             | context [if ?b then _ else _] => destruct b eqn:?
             end;
      injection H as <-; simpl; rewrite ?running_write_batch;
      split; try reflexivity; congruence.
  - injection H as <-. split; reflexivity.
  - injection H as <-. destruct ft as [| |[|n]| | | |]; split; reflexivity.
Qed.

Lemma idle_exec (sched : list Action) :
  forall s s', no_calls sched = true -> owner s = C_Idle ->
               exec sched s = Some s' ->
               owner s' = C_Idle /\ m_running (store s') = m_running (store s).
Proof.
  induction sched as [|a rest IH]; intros s s' Hc Ho Hex.
  - simpl in Hex. injection Hex as <-. now split.
  - simpl in Hex. destruct (step a s) as [s1|] eqn:E; [|discriminate].
    simpl in Hc. apply andb_true_iff in Hc as [Ha Hrest].
    apply negb_true_iff in Ha.
    destruct (idle_step a s s1 Ha Ho E) as [Ho1 Hr1].
    destruct (IH s1 s' Hrest Ho1 Hex) as [Ho2 Hr2].
    split; [exact Ho2 | congruence].
Qed.

Lemma start_inv_step (a : Action) (s s' : Sys) :
  is_call a = false -> wf s = true -> start_inv s = true ->
  step a s = Some s' -> start_inv s' = true.
Proof.
  destruct s as [st ft pc]. unfold start_inv, wf. simpl.
  intros Ha Hwf Hi H.
  assert (Hsame : forall st', m_running st' = m_running st ->
            match pc with
            | C_Start_Check | C_Start_Store => negb (m_running st')
            | C_Start_Open | C_Start_Launch | C_Idle => m_running st'
            | _ => false
            end = true) by (intros st' ->; exact Hi).
  destruct a as [m|ok|ok|evt|]; try discriminate Ha;
    unfold step, owner_step, flush_step, log_step, tick in H;
    simpl in H; rewrite ?drain_locked_all in H.
  - clear Hsame.
    destruct pc; try discriminate Hi; try discriminate H;
      destruct (m_running st) eqn:Hr; try discriminate Hi;
      simpl in H;
      repeat match type of H with
             | context [if ?b then _ else _] => destruct b eqn:?
             end;
      try discriminate H; try discriminate Hwf;
      injection H as <-; simpl; rewrite ?running_open_truncate; auto.
    + rewrite Hr. reflexivity.
    + destruct ft; discriminate.
  - destruct ft as [| |[|n]| | |buf|]; try discriminate H;
      repeat match type of H with
             | context [if ?b then _ else _] => destruct b eqn:?
             end;
      injection H as <-; simpl; apply Hsame;
      rewrite ?running_write_batch;
      try reflexivity; try assumption;
      match goal with E : negb _ = _ |- _ => now destruct (m_running st) end.
  - destruct pc; try discriminate Hi; injection H as <-; exact Hi.
  - injection H as <-. destruct ft as [| |[|n]| | | |]; exact Hi.
Qed.

Lemma start_inv_exec (sched : list Action) :
  forall s s', no_calls sched = true -> wf s = true -> start_inv s = true ->
               exec sched s = Some s' -> start_inv s' = true.
Proof.
  induction sched as [|a rest IH]; intros s s' Hc Hwf Hi Hex.
  - simpl in Hex. now injection Hex as <-.
  - simpl in Hex. destruct (step a s) as [s1|] eqn:E; [|discriminate].
    simpl in Hc. apply andb_true_iff in Hc as [Ha Hrest].
    apply negb_true_iff in Ha.
    apply (IH s1 s' Hrest); [now apply (wf_step a s) | | exact Hex].
    now apply (start_inv_step a s).
Qed.

Lemma background_ok (sched : list Action) (l l' : Sys) :
  wf l = true -> owner l = C_Idle -> background sched l = Some l' ->
  wf l' = true /\ owner l' = C_Idle /\
  m_running (store l') = m_running (store l).
Proof.
  unfold background. intros Hwf Ho H.
  destruct (no_calls sched) eqn:Hc; [|discriminate].
  split; [now apply (wf_exec sched l)|]. now apply (idle_exec sched l).
Qed.

Lemma call_logger_inv (m : Method) (sched : list Action) (l l' : Sys) :
  call_logger m sched l = Some l' ->
  no_calls sched = true /\ exec (A_Call m :: sched) l = Some l' /\
  owner l' = C_Idle.
Proof.
  unfold call_logger. destruct (no_calls sched); [|discriminate].
  destruct (exec (A_Call m :: sched) l) as [l1|]; [|discriminate].
  destruct (owner l1) eqn:E; try discriminate.
  intros H. injection H as <-. now repeat split.
Qed.

Lemma call_start_ok (sched : list Action) (l l' : Sys) :
  wf l = true -> owner l = C_Idle -> m_running (store l) = false ->
  call_logger M_start sched l = Some l' ->
  wf l' = true /\ owner l' = C_Idle /\ m_running (store l') = true.
Proof.
  intros Hwf Ho Hr H. apply call_logger_inv in H as [Hc [Hex Hend]].
  split; [now apply (wf_exec (A_Call M_start :: sched) l)|].
  split; [exact Hend|].
  simpl in Hex. unfold call_step in Hex. rewrite Ho in Hex.
  assert (Hi : start_inv (mkSys (store l) (m_flushThread l) C_Start_Check) = true)
    by (unfold start_inv; simpl; now rewrite Hr).
  assert (Hwf0 : wf (mkSys (store l) (m_flushThread l) C_Start_Check) = true).
  { apply (wf_step (A_Call M_start) l); [exact Hwf|].
    simpl. unfold call_step. now rewrite Ho. }
  pose proof (start_inv_exec sched _ l' Hc Hwf0 Hi Hex) as H1.
  unfold start_inv in H1. now rewrite Hend in H1.
Qed.

Lemma call_stop_ok (sched : list Action) (l l' : Sys) :
  wf l = true -> owner l = C_Idle -> m_running (store l) = true ->
  call_logger M_stop sched l = Some l' ->
  wf l' = true /\ owner l' = C_Idle /\ m_running (store l') = false /\
  m_flushThread l' = FT_None /\
  exists later,
    logged sched = later ++ m_eventQueue (store l') /\
    (opens_ok sched = true ->
     disk (store l') = disk (store l) +++ render (pending l ++ later)).
Proof.
  intros Hwf Ho Hr H. apply call_logger_inv in H as [Hc [Hex Hend]].
  split; [now apply (wf_exec (A_Call M_stop :: sched) l)|].
  split; [exact Hend|].
  apply (shutdown_outcome l l' M_stop sched Hwf Ho Hr (or_introl eq_refl)
           Hc Hex (or_introl Hend)).
Qed.

Lemma call_logger_quiet (g : TrackerConfig) :
  tracker_ok g ->
  exists l', call_logger (if isRunning g then M_stop else M_start)
                         (quiet_call g) (csvLogger g) = Some l'.
Proof.
  intros [_ [Hwf [Ho [Hr _]]]]. unfold call_logger, quiet_call.
  destruct (isRunning g).
  - destruct (stop_returns _ Hwf Ho Hr) as [s1 [H1 H2]].
    assert (Hc : no_calls (tl (stop_schedule (m_flushThread (csvLogger g)))) = true).
    { unfold stop_schedule, flush_exit_schedule.
      destruct (m_flushThread (csvLogger g)); try reflexivity.
      simpl. unfold no_calls. rewrite forallb_app. simpl.
      rewrite andb_true_r. clear. induction remaining; simpl; auto. }
    rewrite Hc.
    change (A_Call M_stop :: tl (stop_schedule (m_flushThread (csvLogger g))))
      with (stop_schedule (m_flushThread (csvLogger g))).
    rewrite H1, H2. now exists s1.
  - change (A_Call M_start :: tl (start_schedule true)) with (start_schedule true).
    rewrite (start_runs true _ Hwf Ho Hr). simpl. eexists. reflexivity.
Qed.

Lemma removeHooks_clears (g : TrackerConfig) :
  mouseHook (removeHooks g) = None /\ keyboardHook (removeHooks g) = None /\
  isRunning (removeHooks g) = isRunning g /\
  pollIntervalMs (removeHooks g) = pollIntervalMs g /\
  csvLogger (removeHooks g) = csvLogger g /\
  cout (removeHooks g) = cout g /\ trackedKeys (removeHooks g) = trackedKeys g.
Proof.
  unfold removeHooks. destruct (mouseHook g) eqn:Em, (keyboardHook g) eqn:Ek;
    simpl; rewrite ?Ek, ?Em; simpl; repeat split; assumption || reflexivity.
Qed.

Lemma installHooks_sets (e : Env) (g : TrackerConfig) :
  mouseHook (installHooks e g) = e_mouse e /\
  keyboardHook (installHooks e g) = e_kbd e /\
  isRunning (installHooks e g) = isRunning g /\
  pollIntervalMs (installHooks e g) = pollIntervalMs g /\
  csvLogger (installHooks e g) = csvLogger g /\
  cout (installHooks e g) = cout g /\
  pollers (installHooks e g) = pollers g /\
  cerr_tracker (installHooks e g)
  = cerr_tracker g
    ++ match e_mouse e with
       | None => ["Failed to install mouse hook." +++ nl]
       | Some _ => []
       end
    ++ match e_kbd e with
       | None => ["Failed to install keyboard hook." +++ nl]
       | Some _ => []
       end.
Proof.
  unfold installHooks. destruct (e_mouse e) eqn:Em, (e_kbd e) eqn:Ek;
    simpl; rewrite ?Ek, ?Em; simpl; rewrite ?app_nil_r, <- ?app_assoc;
    repeat split; reflexivity.
Qed.



Lemma tracker_ok_print (line : string) (g : TrackerConfig) :
  tracker_ok g -> tracker_ok (print line g).
Proof. intros H. exact H. Qed.

Lemma tracker_ok_background (sched : list Action) (g : TrackerConfig) (l : Sys) :
  tracker_ok g -> background sched (csvLogger g) = Some l ->
  tracker_ok (with_logger l g).
Proof.
  intros [Hp [Hwf [Ho [Hr Hh]]]] Hb.
  destruct (background_ok _ _ _ Hwf Ho Hb) as [Hwf' [Ho' Hr']].
  unfold tracker_ok. simpl. rewrite Hr'. repeat split; try assumption; now apply Hh.
Qed.

Lemma installHooks_keys (e : Env) (g : TrackerConfig) :
  trackedKeys (installHooks e g) = trackedKeys g.
Proof.
  unfold installHooks. destruct (e_mouse e) eqn:Em, (e_kbd e) eqn:Ek;
    simpl; rewrite ?Ek, ?Em; reflexivity.
Qed.

Lemma filename_kept (sched : list Action) (s s' : Sys) :
  exec sched s = Some s' -> m_filename (store s') = m_filename (store s).
Proof.
  intros Hex.
  exact (exec_store_invariant
           (fun st => m_filename st = m_filename (store s))
           (fun st st' Hop Hst =>
              eq_trans (proj1 (store_op_config st st' Hop)) Hst)
           sched s s' Hex eq_refl).
Qed.

(** [startLogging] on a stopped tracker: when it returns the tracker and
    its logger run, the polling interval is the one asked for if that is
    positive and is left alone otherwise, one more polling thread has been
    launched, and the message of success is printed, whether or not the
    hooks could be installed: a hook that could not be installed is
    reported on the error stream and left null.  The tracked keys are
    kept.  The logger is changed by its [start] and by what runs during
    that call, and by nothing else: it keeps the name of its file and its
    flush interval; the events whose batch has gone through its write and
    those pending are the events that were waiting in its queue followed
    by those logged during the call; the file is the header, or its former
    contents if an open failed, followed by the records of the events
    written.  The call does return when nothing else runs. *)
Theorem startLogging_runs_whatever_the_hooks (intervalMs : Z) (e : Env)
        (g : TrackerConfig) :
  tracker_ok g -> isRunning g = false ->
  (exists g', startLogging intervalMs (mkEnv [] (quiet_call g) (e_mouse e) (e_kbd e)) g
              = Some g') /\
  (forall g',
      startLogging intervalMs e g = Some g' ->
      tracker_ok g' /\ isRunning g' = true /\
      m_running (store (csvLogger g')) = true /\
      pollIntervalMs g'
      = (if (intervalMs >? 0)%Z then intervalMs else pollIntervalMs g) /\
      pollers g' = S (pollers g) /\
      mouseHook g' = e_mouse e /\ keyboardHook g' = e_kbd e /\
      cout g'
      = cout g ++ ["Logging started (poll interval = "
                   +++ dec (pollIntervalMs g') +++ " ms)." +++ nl] /\
      cerr_tracker g'
      = cerr_tracker g
        ++ match e_mouse e with
           | None => ["Failed to install mouse hook." +++ nl]
           | Some _ => []
           end
        ++ match e_kbd e with
           | None => ["Failed to install keyboard hook." +++ nl]
           | Some _ => []
           end /\
      trackedKeys g' = trackedKeys g /\
      call_logger M_start (e_call e) (csvLogger g) = Some (csvLogger g') /\
      m_filename (store (csvLogger g')) = m_filename (store (csvLogger g)) /\
      m_flushIntervalSec (store (csvLogger g'))
      = m_flushIntervalSec (store (csvLogger g)) /\
      exists W D,
        W ++ pending (csvLogger g')
        = m_eventQueue (store (csvLogger g)) ++ logged (e_call e) /\
        kept_of D W /\
        (opens_ok (e_call e) = true -> D = W) /\
        (disk (store (csvLogger g')) = csv_header +++ render D \/
         opens_ok (e_call e) = false /\
         disk (store (csvLogger g'))
         = disk (store (csvLogger g)) +++ render D)).
Proof.
  intros Hok Hrun. pose proof Hok as [Hp [Hwf [Ho [Hr Hh]]]].
  rewrite Hrun in Hr.
  assert (Hlog : csvLogger (with_flag true
                   (if (intervalMs >? 0)%Z then with_interval intervalMs g else g))
                 = csvLogger g) by (destruct (intervalMs >? 0)%Z; reflexivity).
  split.
  - destruct (call_logger_quiet g Hok) as [l' Hl']. rewrite Hrun in Hl'.
    unfold startLogging. rewrite Hrun. cbv zeta. rewrite Hlog.
    simpl e_call. rewrite Hl'. eexists. reflexivity.
  - intros g' H. unfold startLogging in H. rewrite Hrun in H. cbv zeta in H.
    rewrite Hlog in H.
    destruct (call_logger M_start (e_call e) (csvLogger g)) as [l|] eqn:El;
      [|discriminate H].
    injection H as <-.
    destruct (call_start_ok _ _ _ Hwf Ho Hr El) as [Hwf' [Ho' Hr']].
    match goal with
    | |- context [installHooks e ?G] =>
        destruct (installHooks_sets e G)
          as [Hm [Hk [Hf [Hi [Hl [Hc [Hn Herr]]]]]]]
    end.
    match goal with
    | |- context [installHooks e ?G] =>
        pose proof (installHooks_keys e G) as Hkeys
    end.
    assert (Hint : 0 < (if (intervalMs >? 0)%Z then intervalMs else pollIntervalMs g))
      by (destruct (intervalMs >? 0)%Z eqn:E; lia).
    simpl. simpl in Hm, Hk, Hf, Hi, Hl, Hc, Hn, Herr, Hkeys.
    rewrite Hm, Hk, Hf, Hi, Hl, Hc, Hn, Herr, Hkeys.
    assert (Hi' : pollIntervalMs
                    (if (intervalMs >? 0)%Z then with_interval intervalMs g else g)
                  = (if (intervalMs >? 0)%Z then intervalMs else pollIntervalMs g))
      by (destruct (intervalMs >? 0)%Z; reflexivity).
    assert (Hc' : cout (if (intervalMs >? 0)%Z then with_interval intervalMs g else g)
                  = cout g) by (destruct (intervalMs >? 0)%Z; reflexivity).
    assert (Hn' : pollers (if (intervalMs >? 0)%Z then with_interval intervalMs g else g)
                  = pollers g) by (destruct (intervalMs >? 0)%Z; reflexivity).
    assert (He' : cerr_tracker
                    (if (intervalMs >? 0)%Z then with_interval intervalMs g else g)
                  = cerr_tracker g) by (destruct (intervalMs >? 0)%Z; reflexivity).
    assert (Hk' : trackedKeys
                    (if (intervalMs >? 0)%Z then with_interval intervalMs g else g)
                  = trackedKeys g) by (destruct (intervalMs >? 0)%Z; reflexivity).
    rewrite Hi', Hc', Hn', He', Hk'.
    split.
    { unfold tracker_ok. simpl. rewrite Hm, Hk, Hf, Hi, Hl, Hi'. simpl.
      repeat split; try assumption; discriminate. }
    do 10 (split; [reflexivity || assumption|]).
    pose proof (call_logger_inv _ _ _ _ El) as [Hnc [Hex Hend]].
    split; [exact (filename_kept _ _ _ Hex)|].
    split; [exact (interval_kept _ _ _ Hex)|].
    assert (Hout : in_start (owner l) = false) by (now rewrite Hend).
    destruct (start_session_fifo (csvLogger g) l (e_call e) Hwf Ho Hr
                (no_calls_no_start _ Hnc) Hex Hout) as [W [HW Hw]].
    destruct (written_file _ _ _ _ _ Hw) as [D [Hkept [Hall Hd]]].
    exists W, D. split; [exact HW|]. split; [exact Hkept|].
    split; [exact Hall | exact Hd].
Qed.

Lemma startLogging_witness :
  tracker_ok (g_config winuser) /\ isRunning (g_config winuser) = false /\
  exists g',
    startLogging (-5) (mkEnv [] (tl (start_schedule true)) None (Some 2))
                 (g_config winuser) = Some g' /\
    isRunning g' = true /\ pollIntervalMs g' = 20 /\ mouseHook g' = None.
Proof.
  assert (Hok : tracker_ok (g_config winuser)).
  { unfold tracker_ok. simpl. repeat split; try reflexivity; lia. }
  split; [exact Hok|]. split; [reflexivity|].
  assert (E : exists g', startLogging (-5)
                (mkEnv [] (tl (start_schedule true)) None (Some 2))
                (g_config winuser) = Some g') by (eexists; vm_compute; reflexivity).
  destruct E as [g' E]. exists g'. split; [exact E|].
  destruct (startLogging_runs_whatever_the_hooks (-5)
              (mkEnv [] (tl (start_schedule true)) None (Some 2)) _ Hok eq_refl)
    as [_ H].
  destruct (H g' E) as [_ [Hr [_ [Hi [_ [Hm _]]]]]].
  split; [exact Hr|]. split; [exact Hi|exact Hm].
Defined.

Lemma idle_stopped_no_thread (l : Sys) :
  wf l = true -> owner l = C_Idle -> m_running (store l) = false ->
  m_flushThread l = FT_None.
Proof.
  unfold wf. intros Hwf Ho Hr. rewrite Ho, Hr in Hwf.
  now destruct (m_flushThread l).
Qed.

Lemma stopLogging_ok (e : Env) (g g' : TrackerConfig) :
  tracker_ok g -> stopLogging e g = Some g' ->
  tracker_ok g' /\ isRunning g' = false.
Proof.
  intros Hok H. pose proof Hok as [Hp [Hwf [Ho [Hr Hh]]]].
  unfold stopLogging in H. destruct (isRunning g) eqn:Hrun; simpl negb in H;
    cbv iota in H.
  - destruct (removeHooks_clears (with_flag false g))
      as [Hm [Hk [Hf [Hi [Hl [Hc Ht]]]]]].
    rewrite Hl in H. simpl csvLogger in H.
    destruct (call_logger M_stop (e_call e) (csvLogger g)) as [l|] eqn:El;
      [|discriminate H].
    injection H as <-.
    destruct (call_stop_ok _ _ _ Hwf Ho Hr El) as [Hwf' [Ho' [Hr' _]]].
    unfold tracker_ok. simpl. rewrite Hi, Hf, Hm, Hk. simpl.
    repeat split; assumption.
  - injection H as <-. split; [exact Hok|exact Hrun].
Qed.

Lemma startLogging_ok (intervalMs : Z) (e : Env) (g g' : TrackerConfig) :
  tracker_ok g -> startLogging intervalMs e g = Some g' -> tracker_ok g'.
Proof.
  intros Hok H. pose proof Hok as [Hp [Hwf [Ho [Hr Hh]]]].
  unfold startLogging in H. destruct (isRunning g) eqn:Hrun.
  - injection H as <-. unfold tracker_ok. simpl. rewrite Hrun.
    repeat split; try assumption; discriminate.
  - cbv zeta in H.
    assert (Hlog : csvLogger (with_flag true
                     (if (intervalMs >? 0)%Z then with_interval intervalMs g else g))
                   = csvLogger g) by (destruct (intervalMs >? 0)%Z; reflexivity).
    rewrite Hlog in H.
    destruct (call_logger M_start (e_call e) (csvLogger g)) as [l|] eqn:El;
      [|discriminate H].
    injection H as <-.
    destruct (call_start_ok _ _ _ Hwf Ho Hr El) as [Hwf' [Ho' Hr']].
    match goal with
    | |- context [installHooks e ?G] =>
        destruct (installHooks_sets e G) as [Hm [Hk [Hf [Hi [Hl _]]]]]
    end.
    unfold tracker_ok. simpl. rewrite Hf, Hi, Hl. simpl.
    repeat split; try assumption; try discriminate.
    destruct (intervalMs >? 0)%Z eqn:E; simpl; lia.
Qed.

Lemma stopLogging_returns (g : TrackerConfig) :
  tracker_ok g ->
  exists g', stopLogging (mkEnv [] (quiet_call g) None None) g = Some g'.
Proof.
  intros Hok. unfold stopLogging. destruct (isRunning g) eqn:Hrun; simpl negb;
    cbv iota; [|eexists; reflexivity].
  destruct (removeHooks_clears (with_flag false g)) as [_ [_ [_ [_ [Hl _]]]]].
  destruct (call_logger_quiet g Hok) as [l' Hl']. rewrite Hrun in Hl'.
  rewrite Hl. simpl csvLogger. simpl e_call. rewrite Hl'. eexists. reflexivity.
Qed.

Lemma startLogging_returns (intervalMs : Z) (g : TrackerConfig) :
  tracker_ok g ->
  exists g', startLogging intervalMs (mkEnv [] (quiet_call g) None None) g = Some g'.
Proof.
  intros Hok. unfold startLogging. destruct (isRunning g) eqn:Hrun;
    [eexists; reflexivity|].
  cbv zeta.
  assert (Hlog : csvLogger (with_flag true
                   (if (intervalMs >? 0)%Z then with_interval intervalMs g else g))
                 = csvLogger g) by (destruct (intervalMs >? 0)%Z; reflexivity).
  destruct (call_logger_quiet g Hok) as [l' Hl']. rewrite Hrun in Hl'.
  rewrite Hlog. simpl e_call. rewrite Hl'. eexists. reflexivity.
Qed.

Lemma command_ok (K : Win32) (line : string) (e : Env) (g g' : TrackerConfig)
      (b : bool) :
  tracker_ok g -> command K line e g = Some (g', b) -> tracker_ok g'.
Proof.
  intros Hok H. unfold command in H.
  destruct (splitTokens line) as [|cmd args]; [now inversion H; subst|].
  destruct (String.eqb cmd "start").
  { destruct (startLogging _ e g) as [g1|] eqn:E; [|discriminate H].
    inversion H; subst. exact (startLogging_ok _ _ _ _ Hok E). }
  destruct (String.eqb cmd "stop").
  { destruct (stopLogging e g) as [g1|] eqn:E; [|discriminate H].
    inversion H; subst. exact (proj1 (stopLogging_ok _ _ _ Hok E)). }
  destruct (String.eqb cmd "setkeys").
  { destruct args; inversion H; subst; exact Hok. }
  destruct (String.eqb cmd "exit"); inversion H; subst; exact Hok.
Qed.

Lemma command2_ok (line : string) (e : Env) (g g' : TrackerConfig) (b : bool) :
  tracker_ok g -> command2 line e g = Some (g', b) -> tracker_ok g'.
Proof.
  intros Hok H. unfold command2 in H.
  destruct (starts_with "start" line).
  { destruct (startLogging _ e g) as [g1|] eqn:E; [|discriminate H].
    inversion H; subst. exact (startLogging_ok _ _ _ _ Hok E). }
  destruct (String.eqb line "stop").
  { destruct (stopLogging e g) as [g1|] eqn:E; [|discriminate H].
    inversion H; subst. exact (proj1 (stopLogging_ok _ _ _ Hok E)). }
  destruct (String.eqb line "exit"); inversion H; subst; exact Hok.
Qed.

Lemma command_loop_ok (K : Win32) (input : list (string * Env)) :
  forall g g', tracker_ok g -> command_loop K input g = Some g' -> tracker_ok g'.
Proof.
  induction input as [|[line e] rest IH]; intros g g' Hok H; simpl in H.
  - injection H as <-. exact Hok.
  - unfold turn in H. cbv zeta in H.
    destruct (background (e_idle e) (csvLogger (print "> " g))) as [l|] eqn:Eb;
      [|discriminate H].
    pose proof (tracker_ok_background _ (print "> " g) l Hok Eb) as Hok1.
    destruct (command K line e (with_logger l (print "> " g)))
      as [[g1 b]|] eqn:Ec; [|discriminate H].
    pose proof (command_ok _ _ _ _ _ _ Hok1 Ec) as Hok2.
    destruct b; [exact (IH _ _ Hok2 H)|]. injection H as <-. exact Hok2.
Qed.

Lemma command_loop2_ok (input : list (string * Env)) :
  forall g g', tracker_ok g -> command_loop2 input g = Some g' -> tracker_ok g'.
Proof.
  induction input as [|[line e] rest IH]; intros g g' Hok H; simpl in H.
  - injection H as <-. exact Hok.
  - unfold turn2 in H. cbv zeta in H.
    destruct (background (e_idle e) (csvLogger (print "> " g))) as [l|] eqn:Eb;
      [|discriminate H].
    pose proof (tracker_ok_background _ (print "> " g) l Hok Eb) as Hok1.
    destruct (command2 line e (with_logger l (print "> " g)))
      as [[g1 b]|] eqn:Ec; [|discriminate H].
    pose proof (command2_ok _ _ _ _ _ Hok1 Ec) as Hok2.
    destruct b; [exact (IH _ _ Hok2 H)|]. injection H as <-. exact Hok2.
Qed.

Lemma turn_returns (K : Win32) (line : string) (g : TrackerConfig) :
  tracker_ok g ->
  exists r, turn K line (mkEnv [] (quiet_call g) None None) g = Some r.
Proof.
  intros Hok.
  change (turn K line (mkEnv [] (quiet_call g) None None) g)
    with (command K line (mkEnv [] (quiet_call (print "> " g)) None None)
                  (print "> " g)).
  pose proof (tracker_ok_print "> " g Hok) as Hok1.
  generalize dependent (print "> " g). intros g1 Hok1.
  unfold command. destruct (splitTokens line) as [|cmd args];
    [eexists; reflexivity|].
  destruct (String.eqb cmd "start").
  { destruct (startLogging_returns (start_interval (cmd :: args)) g1 Hok1)
      as [g2 E]. rewrite E. eexists. reflexivity. }
  destruct (String.eqb cmd "stop").
  { destruct (stopLogging_returns g1 Hok1) as [g2 E]. rewrite E.
    eexists. reflexivity. }
  destruct (String.eqb cmd "setkeys"); [destruct args; eexists; reflexivity|].
  destruct (String.eqb cmd "exit"); eexists; reflexivity.
Qed.

Lemma turn2_returns (line : string) (g : TrackerConfig) :
  tracker_ok g ->
  exists r, turn2 line (mkEnv [] (quiet_call g) None None) g = Some r.
Proof.
  intros Hok.
  change (turn2 line (mkEnv [] (quiet_call g) None None) g)
    with (command2 line (mkEnv [] (quiet_call (print "> " g)) None None)
                   (print "> " g)).
  pose proof (tracker_ok_print "> " g Hok) as Hok1.
  generalize dependent (print "> " g). intros g1 Hok1.
  unfold command2. destruct (starts_with "start" line).
  { destruct (startLogging_returns (start_interval2 line) g1 Hok1) as [g2 E].
    rewrite E. eexists. reflexivity. }
  destruct (String.eqb line "stop").
  { destruct (stopLogging_returns g1 Hok1) as [g2 E]. rewrite E.
    eexists. reflexivity. }
  destruct (String.eqb line "exit"); eexists; reflexivity.
Qed.

Lemma turn_ok (K : Win32) (line : string) (e : Env) (g g' : TrackerConfig)
      (b : bool) :
  tracker_ok g -> turn K line e g = Some (g', b) -> tracker_ok g'.
Proof.
  intros Hok H. unfold turn in H. cbv zeta in H.
  destruct (background (e_idle e) (csvLogger (print "> " g))) as [l|] eqn:Eb;
    [|discriminate H].
  exact (command_ok _ _ _ _ _ _
           (tracker_ok_background _ (print "> " g) l Hok Eb) H).
Qed.

Lemma turn2_ok (line : string) (e : Env) (g g' : TrackerConfig) (b : bool) :
  tracker_ok g -> turn2 line e g = Some (g', b) -> tracker_ok g'.
Proof.
  intros Hok H. unfold turn2 in H. cbv zeta in H.
  destruct (background (e_idle e) (csvLogger (print "> " g))) as [l|] eqn:Eb;
    [|discriminate H].
  exact (command2_ok _ _ _ _ _
           (tracker_ok_background _ (print "> " g) l Hok Eb) H).
Qed.

Lemma command_loop_returns (K : Win32) (lines : list string) :
  forall g, tracker_ok g ->
  exists input g', map fst input = lines /\ command_loop K input g = Some g'.
Proof.
  induction lines as [|line rest IH]; intros g Hok.
  - exists [], (print "> " g). split; reflexivity.
  - destruct (turn_returns K line g Hok) as [[g1 b] E].
    pose proof (turn_ok _ _ _ _ _ _ Hok E) as Hok1.
    destruct (IH g1 Hok1) as [input [g' [Hm Hl]]].
    exists ((line, mkEnv [] (quiet_call g) None None) :: input).
    destruct b.
    + exists g'. split; [simpl; now rewrite Hm|]. simpl. now rewrite E.
    + exists g1. split; [simpl; now rewrite Hm|]. simpl. now rewrite E.
Qed.

Lemma command_loop2_returns (lines : list string) :
  forall g, tracker_ok g ->
  exists input g', map fst input = lines /\ command_loop2 input g = Some g'.
Proof.
  induction lines as [|line rest IH]; intros g Hok.
  - exists [], (print "> " g). split; reflexivity.
  - destruct (turn2_returns line g Hok) as [[g1 b] E].
    pose proof (turn2_ok _ _ _ _ _ Hok E) as Hok1.
    destruct (IH g1 Hok1) as [input [g' [Hm Hl]]].
    exists ((line, mkEnv [] (quiet_call g) None None) :: input).
    destruct b.
    + exists g'. split; [simpl; now rewrite Hm|]. simpl. now rewrite E.
    + exists g1. split; [simpl; now rewrite Hm|]. simpl. now rewrite E.
Qed.

(** Both command loops keep the tracker consistent: whatever the lines
    read and whatever the other threads do meanwhile, when a loop ends the
    polling interval is positive, the logger is between two calls and runs
    exactly when the tracker's flag is set, and no hook is installed while
    the flag is cleared.  And for every sequence of lines each loop does
    reach its end when nothing else runs during the calls. *)
Theorem command_loops_keep_tracker_consistent (K : Win32) (g : TrackerConfig) :
  tracker_ok g ->
  (forall input g', command_loop K input g = Some g' -> tracker_ok g') /\
  (forall input g', command_loop2 input g = Some g' -> tracker_ok g') /\
  (forall lines, exists input g',
        map fst input = lines /\ command_loop K input g = Some g') /\
  (forall lines, exists input g',
        map fst input = lines /\ command_loop2 input g = Some g').
Proof.
  intros Hok. split; [|split; [|split]].
  - intros input g'. exact (command_loop_ok K input g g' Hok).
  - intros input g'. exact (command_loop2_ok input g g' Hok).
  - intros lines. exact (command_loop_returns K lines g Hok).
  - intros lines. exact (command_loop2_returns lines g Hok).
Qed.

Lemma command_loops_witness :
  tracker_ok (g_config winuser) /\
  exists g',
    command_loop winuser
      [("start 0", mkEnv [] (tl (start_schedule true)) (Some 1) (Some 2));
       ("setkeys q shift", mkEnv [A_Log key_q; A_Flush true] [] None None)]
      (g_config winuser) = Some g' /\
    isRunning g' = true /\ m_running (store (csvLogger g')) = true /\
    0 < pollIntervalMs g'.
Proof.
  assert (Hok : tracker_ok (g_config winuser)).
  { unfold tracker_ok. simpl. repeat split; try reflexivity; lia. }
  split; [exact Hok|].
  assert (E : exists g', command_loop winuser
      [("start 0", mkEnv [] (tl (start_schedule true)) (Some 1) (Some 2));
       ("setkeys q shift", mkEnv [A_Log key_q; A_Flush true] [] None None)]
      (g_config winuser) = Some g' /\ isRunning g' = true)
    by (eexists; split; vm_compute; reflexivity).
  destruct E as [g' [E Hr]]. exists g'. split; [exact E|].
  destruct (command_loops_keep_tracker_consistent winuser _ Hok) as [H _].
  destruct (H _ g' E) as [Hp [_ [_ [Hrun _]]]].
  split; [exact Hr|]. split; [now rewrite Hrun|exact Hp].
Defined.

(** ** The hook thread *)





(** [main] of [main.cpp]: whatever commands were read it returns 0 with
    the tracker stopped, the logger stopped and its flush thread joined,
    and no hook installed; [stopLogging] is called at the end whether or
    not the tracker runs, so that one of its two messages always precedes
    the last line printed.  For every sequence of lines [main] does return
    when nothing else runs during the calls. *)
Theorem main2_exits_with_tracker_stopped (g : TrackerConfig) :
  tracker_ok g ->
  (forall lines, exists input last r,
        map fst input = lines /\ main2 input last g = Some r) /\
  (forall input last g' code,
      main2 input last g = Some (g', code) ->
      code = 0 /\
      isRunning g' = false /\
      m_running (store (csvLogger g')) = false /\
      owner (csvLogger g') = C_Idle /\
      m_flushThread (csvLogger g') = FT_None /\
      mouseHook g' = None /\ keyboardHook g' = None /\
      exists g1,
        command_loop2 input (fold_left (fun acc s => print s acc) welcome2 g)
        = Some g1 /\
        cout g'
        = cout g1
          ++ [if isRunning g1 then "Logging stopped." +++ nl
              else "Logging is not currently running." +++ nl]
          ++ ["Exiting." +++ nl]).
Proof.
  intros Hok.
  assert (Hok0 : tracker_ok (fold_left (fun acc s => print s acc) welcome2 g))
    by exact Hok.
  split.
  - intros lines.
    destruct (command_loop2_returns lines _ Hok0) as [input [g1 [Hm Hl]]].
    pose proof (command_loop2_ok input _ g1 Hok0 Hl) as Hok1.
    destruct (stopLogging_returns g1 Hok1) as [g2 Hs].
    exists input, (mkEnv [] (quiet_call g1) None None).
    unfold main2. rewrite Hl, Hs. eexists. split; [exact Hm|reflexivity].
  - intros input last g' code H. unfold main2 in H.
    destruct (command_loop2 input
                (fold_left (fun acc s => print s acc) welcome2 g))
      as [g1|] eqn:Hl; [|discriminate H].
    pose proof (command_loop2_ok input _ g1 Hok0 Hl) as Hok1.
    destruct (stopLogging last g1) as [g2|] eqn:Hs; [|discriminate H].
    inversion H; subst. clear H.
    destruct (stopLogging_ok _ _ _ Hok1 Hs) as [Hok2 Hrun2].
    destruct Hok2 as [Hp [Hwf [Ho [Hr Hh]]]]. rewrite Hrun2 in Hr.
    destruct (Hh Hrun2) as [Hm Hk].
    split; [reflexivity|]. simpl.
    repeat (split; [assumption|]).
    split; [exact (idle_stopped_no_thread _ Hwf Ho Hr)|].
    repeat (split; [assumption|]).
    exists g1. split; [reflexivity|].
    unfold stopLogging in Hs. destruct (isRunning g1) eqn:Hrun;
      simpl negb in Hs; cbv iota in Hs.
    + destruct (call_logger M_stop (e_call last)
                  (csvLogger (removeHooks (with_flag false g1))));
        [|discriminate Hs].
      injection Hs as <-. simpl.
      destruct (removeHooks_clears (with_flag false g1))
        as [_ [_ [_ [_ [_ [Hc _]]]]]].
      rewrite Hc. simpl. now rewrite <- app_assoc.
    + injection Hs as <-. simpl. now rewrite <- app_assoc.
Qed.

Lemma main2_witness :
  tracker_ok (g_config winuser) /\
  exists g',
    main2 [("startle 50", mkEnv [] (tl (start_schedule true)) (Some 1) None);
           ("stop ", mkEnv [A_Log key_q] [] None None);
           ("exit", mkEnv [] [] None None);
           ("stop", mkEnv [] [] None None)]
          (mkEnv [] (tl (stop_schedule FT_LoopHead)) None None)
          (g_config winuser) = Some (g', 0) /\
    isRunning g' = false /\ keyboardHook g' = None /\
    disk (store (csvLogger g')) = csv_header +++ csv_record key_q.
Proof.
  assert (Hok : tracker_ok (g_config winuser)).
  { unfold tracker_ok. simpl. repeat split; try reflexivity; lia. }
  split; [exact Hok|].
  assert (E : exists g', main2
          [("startle 50", mkEnv [] (tl (start_schedule true)) (Some 1) None);
           ("stop ", mkEnv [A_Log key_q] [] None None);
           ("exit", mkEnv [] [] None None);
           ("stop", mkEnv [] [] None None)]
          (mkEnv [] (tl (stop_schedule FT_LoopHead)) None None)
          (g_config winuser) = Some (g', 0) /\
         disk (store (csvLogger g')) = csv_header +++ csv_record key_q)
    by (eexists; split; vm_compute; reflexivity).
  destruct E as [g' [E Hd]]. exists g'. split; [exact E|].
  destruct (main2_exits_with_tracker_stopped _ Hok) as [_ H].
  destruct (H _ _ g' 0 E) as [_ [Hr [_ [_ [_ [_ [Hk _]]]]]]].
  split; [exact Hr|]. split; [exact Hk|exact Hd].
Defined.
